(** * SEBI update notifier: a shallow embedding of the two scraper variants

    The repository holds two variants of one incremental-discovery pipeline:

    - [SnapshotMerge] embeds [sebi_make_two_csvs.py]: load the whole catalog,
      append in memory, rewrite the catalog file, emit the new rows as JSON;
    - [AppendOnly] embeds [sebi_update_and_download_missing.py]: open the
      catalog for append, resolve and (try to) download each new document,
      write and flush one row per candidate.

    Text is modelled as a list of 8-bit code points (the Latin-1 part of a
    Python [str]); the browser, the network, the clock and the digest are
    inputs of the model (records of query results and oracles), the [csv]
    dialect the scripts configure is written out. *)

From Stdlib Require Import Ascii String List Bool Arith NArith Lia DecimalString.
From stdpp Require Import base decidable list gmap.
Import ListNotations.

Local Open Scope string_scope.
Local Open Scope list_scope.

(** ** Text *)

Abbreviation str := (list ascii).

(** String literals are read as lists of code points. *)
Coercion list_ascii_of_string : string >-> list.

Module Text.

Definition code (c : ascii) : nat := nat_of_ascii c.

(** [str.isspace] / the regular expression class [\s] on code points below
    256: TAB..CR, FS..US, space, NEL and the no-break space. *)
Definition isspace (c : ascii) : bool :=
  let n := code c in
  (Nat.leb 9 n && Nat.leb n 13) || (Nat.leb 28 n && Nat.leb n 32)
  || Nat.eqb n 133 || Nat.eqb n 160.

(** [str.lower] on one code point below 256. *)
Definition lower_char (c : ascii) : ascii :=
  let n := code c in
  if (Nat.leb 65 n && Nat.leb n 90)
     || (Nat.leb 192 n && Nat.leb n 222 && negb (Nat.eqb n 215))
  then ascii_of_nat (n + 32) else c.

Definition lower (s : str) : str := map lower_char s.

Fixpoint lstrip (s : str) : str :=
  match s with
  | c :: t => if isspace c then lstrip t else s
  | [] => []
  end.

Definition rstrip (s : str) : str := rev (lstrip (rev s)).

(** [s.strip()] *)
Definition strip (s : str) : str := rstrip (lstrip s).

(** [s.replace(a, b)] for one-character [a] and [b]. *)
Definition replace (a b : ascii) (s : str) : str :=
  map (fun c => if Ascii.eqb c a then b else c) s.

(** [re.sub(r'[class]+', rep, s)]: every maximal run of characters of the
    class becomes one [rep]. [in_run] tells that the previous character was
    in the class. *)
Fixpoint sub_runs (cls : ascii -> bool) (rep : ascii) (in_run : bool)
         (s : str) : str :=
  match s with
  | [] => []
  | c :: t =>
      if cls c
      then (if in_run then sub_runs cls rep true t
            else rep :: sub_runs cls rep true t)
      else c :: sub_runs cls rep false t
  end.

Definition re_sub_class (cls : ascii -> bool) (rep : ascii) (s : str) : str :=
  sub_runs cls rep false s.

(** [a == b] *)
Fixpoint str_eqb (a b : str) : bool :=
  match a, b with
  | [], [] => true
  | x :: a', y :: b' => Ascii.eqb x y && str_eqb a' b'
  | _, _ => false
  end.

(** [s.startswith(p)] *)
Fixpoint startswith (s p : str) : bool :=
  match p, s with
  | [], _ => true
  | _ :: _, [] => false
  | x :: p', y :: s' => Ascii.eqb x y && startswith s' p'
  end.

(** [s.endswith(p)] *)
Definition endswith (s p : str) : bool :=
  Nat.leb (length p) (length s) && str_eqb (skipn (length s - length p) s) p.

(** [p in s] *)
Fixpoint contains (p s : str) : bool :=
  startswith s p ||
  match s with
  | [] => false
  | _ :: t => contains p t
  end.

(** The character class both scripts replace in file names: slash,
    backslash, colon, star, question mark, double quote, angle brackets
    and the vertical bar. *)
Definition forbidden (c : ascii) : bool :=
  existsb (Ascii.eqb c) (("/\:*?<>|" : str) ++ ["034"%char]).

Definition is_newline (c : ascii) : bool :=
  Ascii.eqb c "010" || Ascii.eqb c "013".

Definition nonempty (s : str) : bool :=
  match s with [] => false | _ => true end.

(** The text after the last slash of [s]; [acc] is what was read since the
    last slash. *)
Fixpoint basename_from (acc s : str) : str :=
  match s with
  | [] => acc
  | c :: t => if Ascii.eqb c "/" then basename_from [] t
              else basename_from (acc ++ [c]) t
  end.

(** The last component of a path. *)
Definition basename (s : str) : str := basename_from [] s.

End Text.

Import Text.

(** ** Exceptions and fallible calls *)

(** The exceptions the scripts tell apart: Playwright's timeout, the
    interpreter's [TypeError], and everything else below [Exception]. *)
Inductive exn := PWTimeoutError | TypeError | OtherException.

Inductive res (A : Type) : Type :=
| Ok (a : A)
| Raise (e : exn).
Arguments Ok {A} a.
Arguments Raise {A} e.

Definition res_bind {A B} (r : res A) (k : A -> res B) : res B :=
  match r with
  | Ok a => k a
  | Raise e => Raise e
  end.

Declare Scope res_scope.
Delimit Scope res_scope with res.
Notation "x <- r ;; k" := (res_bind r (fun x => k))
  (at level 100, r at next level, right associativity) : res_scope.

(** [v and ".pdf" in v.lower()] for an attribute value [v] that may be
    [None]. *)
Definition mentions_pdf (v : option str) : bool :=
  match v with
  | Some s => nonempty s && contains ".pdf" (lower s)
  | None => false
  end.

(** [x or ""] *)
Definition or_empty (v : option str) : str :=
  match v with
  | Some s => s
  | None => []
  end.

(** ** Library functions the scripts import

    [urllib.parse], [hashlib] and [json] are not part of the repository:
    the model takes them as an argument. [url_path_name u] stands for
    [Path(unquote(urlparse(u).path)).name], [json_dumps rows] for the text
    [json.dump] writes for a list of rows. *)
Record Lib := {
  urljoin : str -> str -> str;
  unquote : str -> str;
  url_path_name : str -> str;
  sha1_hexdigest : str -> str;
  json_dumps : list (gmap str str) -> str;
}.

(** ** The browser: what a rendered page answers *)

(** An element handle: [get_attribute] may raise (a detached handle). *)
Record Element := {
  get_attribute : str -> res (option str);
  inner_text : str;
}.

(** A frame of a page: its address and its own [query_selector]. *)
Record Frame := {
  frame_url : str;
  frame_query_selector : str -> res (option Element);
}.

(** A loaded detail page. *)
Record Page := {
  page_url : str;
  query_selector : str -> option Element;
  query_selector_all : str -> list Element;
  page_frames : list Frame;
}.

(** A hyperlink of the listing page; the two [evaluate] calls of the
    fallback tier read the text before the link and before its parent. *)
Record Anchor := {
  a_inner_text : str;
  a_href : option str;
  a_prev_sibling_text : res str;
  a_parent_prev_text : res str;
}.

(** A table row: the text of its [td] cells and its first hyperlink. *)
Record Tr := {
  tr_tds : list str;
  tr_anchor : option Anchor;
}.

(** A table: the rows under [tbody tr] and the rows under [tr]. *)
Record Table := {
  tbody_trs : list Tr;
  all_trs : list Tr;
}.

(** The rendered listing page: its first table, and the hyperlinks inside
    the generic content containers. *)
Record ListingPage := {
  lp_table : option Table;
  lp_content_anchors : list Anchor;
}.

(** A candidate of the listing: the dict with keys date, title and link. *)
Record Entry := {
  e_date : str;
  e_title : str;
  e_link : str;
}.

Definition BASE_URL : str :=
  "https://www.sebi.gov.in/sebiweb/home/HomeAction.do?doListing=yes&sid=1&ssid=7&smid=0".

Definition NUM_ENTRIES : nat := 10.

(** [normalize_text]: [(s or "").strip()]. *)
Definition normalize_text (s : str) : str := strip s.

(** [a or b] on two lists. *)
Definition list_or {A} (a b : list A) : list A :=
  match a with [] => b | _ => a end.

(** ** What both scripts share, line for line *)

Section Shared.
Variable L : Lib.

(** One row of the structured tier, up to the test that keeps or drops
    it: the date, title and link read from the row, or [None] for a row
    without cells. *)
Definition read_table_row (r : Tr) : option Entry :=
  match tr_tds r with
  | [] => None
  | td0 :: rest =>
      let date := normalize_text td0 in
      match tr_anchor r with
      | Some a =>
          Some {| e_date := date;
                  e_title := normalize_text (a_inner_text a);
                  e_link := urljoin L BASE_URL (or_empty (a_href a)) |}
      | None =>
          Some {| e_date := date;
                  e_title := match rest with
                             | td1 :: _ => normalize_text td1
                             | [] => []
                             end;
                  e_link := [] |}
      end
  end.

(** The date the fallback tier recovers around a hyperlink. *)
Definition fallback_date (a : Anchor) : str :=
  match a_prev_sibling_text a with
  | Raise _ => []
  | Ok prev =>
      let date := if nonempty prev then normalize_text prev else [] in
      if nonempty date then date
      else match a_parent_prev_text a with
           | Raise _ => []
           | Ok t => normalize_text t
           end
  end.

(** The loop of the fallback tier over the hyperlinks, with its [seen]
    set of (title, link) pairs. *)
Fixpoint fallback_loop (seen : gset (str * str)) (anchors : list Anchor)
  : list Entry :=
  match anchors with
  | [] => []
  | a :: rest =>
      let title := normalize_text (a_inner_text a) in
      let link := urljoin L BASE_URL (or_empty (a_href a)) in
      let key := (title, link) in
      if nonempty title && negb (bool_decide (key ∈ seen))
      then {| e_date := fallback_date a; e_title := title; e_link := link |}
           :: fallback_loop ({[ key ]} ∪ seen) rest
      else fallback_loop seen rest
  end.

(** The first attribute among [attrs] of [el] whose value mentions a PDF;
    a raising [get_attribute] propagates. *)
Fixpoint first_pdf_attr (el : Element) (attrs : list str)
  : res (option str) :=
  match attrs with
  | [] => Ok None
  | attr :: rest =>
      (v <- get_attribute el attr ;;
       if mentions_pdf v then Ok v else first_pdf_attr el rest)%res
  end.

Definition selectors : list str :=
  [ "iframe[src$='.pdf']" : str; "iframe[src*='.pdf']" : str;
    "embed[src$='.pdf']" : str; "embed[src*='.pdf']" : str;
    "object[data$='.pdf']" : str; "object[data*='.pdf']" : str;
    "a[href$='.pdf']" : str; "a[href*='.pdf']" : str ].

(** Targeted-selector tier: the loop over [selectors]. *)
Fixpoint selector_tier (p : Page) (sels : list str) : res (option str) :=
  match sels with
  | [] => Ok None
  | sel :: rest =>
      match query_selector p sel with
      | Some el =>
          (v <- first_pdf_attr el ["src" : str; "href" : str; "data" : str] ;;
           match v with
           | Some s => Ok (Some (urljoin L (page_url p) s))
           | None => selector_tier p rest
           end)%res
      | None => selector_tier p rest
      end
  end.

(** Exhaustive-attribute tier, one element: a raising [get_attribute]
    counts as [None]. *)
Fixpoint scan_attrs (el : Element) (attrs : list str) : option str :=
  match attrs with
  | [] => None
  | attr :: rest =>
      let v := match get_attribute el attr with
               | Ok v => v
               | Raise _ => None
               end in
      if mentions_pdf v then v else scan_attrs el rest
  end.

Fixpoint attribute_tier (p : Page) (els : list Element) : option str :=
  match els with
  | [] => None
  | el :: rest =>
      match scan_attrs el
              ["src" : str; "href" : str; "data" : str; "data-src" : str] with
      | Some s => Some (urljoin L (page_url p) s)
      | None => attribute_tier p rest
      end
  end.

End Shared.

(** ** Regular expressions of the viewer-parameter tier *)

(** The group [([^&]+)]: the longest run of characters other than [&]. *)
Fixpoint group_not_amp (s : str) : str :=
  match s with
  | [] => []
  | c :: t => if Ascii.eqb c "&" then [] else c :: group_not_amp t
  end.

(** The group after the prefix [key] of [s], when [s] starts with [key] and
    the group is not empty. *)
Definition match_param (key s : str) : option str :=
  let g := group_not_amp (skipn (length key) s) in
  if startswith s key && nonempty g then Some g else None.

(** [re.search(r"[?&]file=([^&]+)", s)]: the group of the leftmost match. *)
Fixpoint search_file_param (s : str) : option str :=
  match s with
  | [] => None
  | c :: t =>
      match (if Ascii.eqb c "?" || Ascii.eqb c "&"
             then match_param "file=" t else None) with
      | Some g => Some g
      | None => search_file_param t
      end
  end.

(** [re.search(r"src=([^&]+)", s)]: the group of the leftmost match. *)
Fixpoint search_src_param (s : str) : option str :=
  match match_param "src=" s with
  | Some g => Some g
  | None =>
      match s with
      | [] => None
      | _ :: t => search_src_param t
      end
  end.

(** * The snapshot-merge variant: [sebi_make_two_csvs.py] *)

Module SnapshotMerge.

Definition MASTER_CSV : str := "sebi_master.csv".
Definition NEW_JSON : str := "new_entries.json".
Definition CSV_DELIM : ascii := "|".

(** [safe_filename(s, fallback)] *)
Definition safe_filename (s fallback : str) : str :=
  let s := if nonempty s then s else fallback in
  let s := replace "010" " " (replace "013" " " (strip s)) in
  let s := re_sub_class forbidden "_" s in
  let s := re_sub_class isspace " " s in
  let max_base := 150 in
  let base := strip (firstn max_base s) in
  if endswith (lower base) ".pdf" then base else base ++ ".pdf".

Section WithLib.
Variable L : Lib.

(** [make_id(date, title, link)] *)
Definition make_id (date title link : str) : str :=
  sha1_hexdigest L (date ++ "|" ++ title ++ "|" ++ link).

(** Viewer-parameter tier of this variant: the [file=] parameter only. *)
Fixpoint viewer_tier (p : Page) (ifrs : list Element) : res (option str) :=
  match ifrs with
  | [] => Ok None
  | ifr :: rest =>
      (v <- get_attribute ifr "src" ;;
       let src := or_empty v in
       let hit :=
         if contains "file=" src && contains ".pdf" src
         then match search_file_param src with
              | Some g =>
                  let candidate := unquote L g in
                  if contains ".pdf" candidate
                  then Some (urljoin L (page_url p) candidate)
                  else None
              | None => None
              end
         else None in
       match hit with
       | Some u => Ok (Some u)
       | None => viewer_tier p rest
       end)%res
  end.

(** [find_pdf_url_on_page(page)] *)
Definition find_pdf_url_on_page (p : Page) : res (option str) :=
  (t1 <- selector_tier L p selectors ;;
   match t1 with
   | Some u => Ok (Some u)
   | None =>
       match attribute_tier L p (query_selector_all p "*") with
       | Some u => Ok (Some u)
       | None => viewer_tier p (query_selector_all p "iframe")
       end
   end)%res.

(** The structured tier's loop: a row is kept when its title is not
    empty. *)
Fixpoint table_rows (trs : list Tr) : list Entry :=
  match trs with
  | [] => []
  | r :: rest =>
      match read_table_row L r with
      | Some e =>
          if nonempty (e_title e) then e :: table_rows rest
          else table_rows rest
      | None => table_rows rest
      end
  end.

(** [extract_entries_from_listing(page)] *)
Definition extract_entries_from_listing (page : ListingPage)
  : list Entry :=
  match lp_table page with
  | Some table => table_rows (list_or (tbody_trs table) (all_trs table))
  | None => fallback_loop L ∅ (lp_content_anchors page)
  end.

End WithLib.

End SnapshotMerge.

(** * The append-only variant: [sebi_update_and_download_missing.py] *)

Module AppendOnly.

Definition OUTPUT_CSV : str := "sebi_circulars_last10_with_pdfs.csv".
Definition PDF_DIR : str := "pdfs".

(** [safe_filename(s, fallback)] *)
Definition safe_filename (s fallback : str) : str :=
  let s := replace "013" " " (replace "010" " " (strip s)) in
  let s := re_sub_class forbidden "_" s in
  let s := re_sub_class isspace " " s in
  if nonempty s then firstn 180 s else fallback.

Section WithLib.
Variable L : Lib.

(** [choose_name_for_pdf(pdf_url, entry_title)] *)
Definition choose_name_for_pdf (pdf_url entry_title : str) : str :=
  let name := url_path_name L pdf_url in
  if nonempty name && contains "." name
  then safe_filename name (safe_filename entry_title "document")
  else safe_filename entry_title "document" ++ ".pdf".

(** [str(PDF_DIR / name)] for a name without slash: the directory, a slash,
    the name; [pathlib] drops a component that is a single dot. *)
Definition path_in_pdf_dir (name : str) : str :=
  if str_eqb name "." then PDF_DIR else PDF_DIR ++ "/" ++ name.

(** The destination the main loop derives: the suggested name under
    [PDF_DIR], with [.pdf] appended when the path does not end in it
    (compared in lower case). *)
Definition dest_path (pdf_url title_raw : str) : str :=
  let suggested_name := choose_name_for_pdf pdf_url title_raw in
  let dest_path := path_in_pdf_dir suggested_name in
  if endswith (lower dest_path) ".pdf" then dest_path
  else dest_path ++ ".pdf".

(** The file name part of [dest_path]: its last component. *)
Definition dest_name (pdf_url title_raw : str) : str :=
  basename (dest_path pdf_url title_raw).

(** [extract_entries_from_table]'s loop: a row is kept when its title
    or its date is not empty. *)
Fixpoint table_rows (trs : list Tr) : list Entry :=
  match trs with
  | [] => []
  | r :: rest =>
      match read_table_row L r with
      | Some e =>
          if nonempty (e_title e) || nonempty (e_date e)
          then e :: table_rows rest
          else table_rows rest
      | None => table_rows rest
      end
  end.

(** [extract_entries_from_table(page)] *)
Definition extract_entries_from_table (page : ListingPage) : list Entry :=
  match lp_table page with
  | None => []
  | Some table => table_rows (list_or (tbody_trs table) (all_trs table))
  end.

(** [fallback_extract_entries(page)] *)
Definition fallback_extract_entries (page : ListingPage) : list Entry :=
  fallback_loop L ∅ (lp_content_anchors page).

(** The two lines of [main] that choose the tier. *)
Definition listing_entries (page : ListingPage) : list Entry :=
  let entries := extract_entries_from_table page in
  match entries with
  | [] => fallback_extract_entries page
  | _ => entries
  end.

(** Viewer-parameter tier of this variant: the [file=] parameter, then
    the [src=] parameter of a viewer address. *)
Fixpoint viewer_tier (p : Page) (ifrs : list Element) : res (option str) :=
  match ifrs with
  | [] => Ok None
  | ifr :: rest =>
      (v <- get_attribute ifr "src" ;;
       let src := or_empty v in
       let decoded (m : option str) : option str :=
         match m with
         | Some g =>
             let candidate := unquote L g in
             if contains ".pdf" candidate
             then Some (urljoin L (page_url p) candidate)
             else None
         | None => None
         end in
       let by_file :=
         if contains "file=" src && contains ".pdf" src
         then decoded (search_file_param src) else None in
       match by_file with
       | Some u => Ok (Some u)
       | None =>
           let by_src :=
             if contains "pdfjs" src || contains "viewer" src
             then decoded (search_src_param src) else None in
           match by_src with
           | Some u => Ok (Some u)
           | None => viewer_tier p rest
           end
       end)%res
  end.

(** [find_pdf_url_on_page(page)] *)
Definition find_pdf_url_on_page (p : Page) : res (option str) :=
  (t1 <- selector_tier L p selectors ;;
   match t1 with
   | Some u => Ok (Some u)
   | None =>
       match attribute_tier L p (query_selector_all p "*") with
       | Some u => Ok (Some u)
       | None => viewer_tier p (query_selector_all p "iframe")
       end
   end)%res.

End WithLib.

End AppendOnly.

(** * The [csv] dialect of the catalog file

    [csv.DictWriter(f, delimiter='|', quoting=csv.QUOTE_MINIMAL,
    escapechar='\\')] on the writing side and
    [csv.DictReader(f, delimiter='|')] on the reading side, both over the
    excel dialect (quote character, doubled quotes, CR LF line terminator,
    not strict), as CPython's [_csv] module (3.11 and later) implements
    them. *)

Module Csv.

Definition delimiter : ascii := "|".
Definition quotechar : ascii := "034".
Definition escapechar : ascii := "\".
Definition CR : ascii := "013".
Definition LF : ascii := "010".
Definition lineterminator : str := [CR; LF].

(** ** Writer *)

(** [join_append_data]: the characters of one field as they are copied
    into the record, and whether the field must be quoted. The delimiter
    and line breaks ask for quotes, a quote character is doubled (and
    asks for quotes), the escape character is escaped by itself. *)
Fixpoint join_append_data (field : str) : str * bool :=
  match field with
  | [] => ([], false)
  | c :: t =>
      let '(body, quoted) := join_append_data t in
      if Ascii.eqb c quotechar then (quotechar :: c :: body, true)
      else if Ascii.eqb c escapechar then (escapechar :: c :: body, quoted)
      else if Ascii.eqb c delimiter || Ascii.eqb c CR || Ascii.eqb c LF
      then (c :: body, true)
      else (c :: body, quoted)
  end.

Definition join_append (field : str) : str :=
  let '(body, quoted) := join_append_data field in
  if quoted then quotechar :: body ++ [quotechar] else body.

Fixpoint join_fields (fields : list str) : str :=
  match fields with
  | [] => []
  | [f] => join_append f
  | f :: rest => join_append f ++ delimiter :: join_fields rest
  end.

(** [writer.writerow(fields)]: a record of one empty field is written as
    a pair of quotes. *)
Definition writerow (fields : list str) : str :=
  match fields with
  | [ [] ] => [quotechar; quotechar] ++ lineterminator
  | _ => join_fields fields ++ lineterminator
  end.

(** ** Reader *)

(** Iterating a file opened with [newline=""]: lines end at LF, CR or
    CR LF and keep their terminator. [cur] is the current line, in
    reverse. *)
Fixpoint readlines_from (cur : str) (s : str) : list str :=
  match s with
  | [] => match cur with [] => [] | _ => [rev cur] end
  | c :: t =>
      if Ascii.eqb c LF then rev (c :: cur) :: readlines_from [] t
      else if Ascii.eqb c CR then
        match t with
        | c' :: t' =>
            if Ascii.eqb c' LF
            then rev (c' :: c :: cur) :: readlines_from [] t'
            else rev (c :: cur) :: readlines_from [] t
        | [] => [rev (c :: cur)]
        end
      else readlines_from (c :: cur) t
  end.

Definition readlines (s : str) : list str := readlines_from [] s.

(** The parser states a reader without escape character can be in. *)
Inductive ParserState :=
| START_RECORD | START_FIELD | IN_FIELD | IN_QUOTED_FIELD
| QUOTE_IN_QUOTED_FIELD | EAT_CRNL.

(** The reader: its state, the fields saved so far and the characters of
    the current field (both in reverse). *)
Record Reader := {
  state : ParserState;
  fields : list str;
  field : str;
}.

Definition parse_reset : Reader :=
  {| state := START_RECORD; fields := []; field := [] |}.

Definition parse_save_field (r : Reader) (next : ParserState) : Reader :=
  {| state := next; fields := rev (field r) :: fields r; field := [] |}.

(** [csv.field_size_limit()], which neither script changes. *)
Definition field_limit : N := 131072%N.

(** [parse_add_char]: a character is refused with [csv.Error] once the
    current field holds [field_limit] characters. *)
Definition parse_add_char (r : Reader) (c : ascii) (next : ParserState)
  : res Reader :=
  if N.leb field_limit (N.of_nat (length (field r)))
  then Raise OtherException
  else Ok {| state := next; fields := fields r; field := c :: field r |}.

Definition set_state (r : Reader) (next : ParserState) : Reader :=
  {| state := next; fields := fields r; field := field r |}.

Definition is_crlf (c : ascii) : bool := Ascii.eqb c CR || Ascii.eqb c LF.

(** [START_FIELD] on a character. *)
Definition start_field (r : Reader) (c : ascii) : res Reader :=
  if is_crlf c then Ok (parse_save_field r EAT_CRNL)
  else if Ascii.eqb c quotechar then Ok (set_state r IN_QUOTED_FIELD)
  else if Ascii.eqb c delimiter then Ok (parse_save_field r START_FIELD)
  else parse_add_char r c IN_FIELD.

(** [parse_process_char] on a character of the line; [Raise] is
    [csv.Error]: a field over the size limit, or a character after a line
    break inside a line. *)
Definition process_char (r : Reader) (c : ascii) : res Reader :=
  match state r with
  | START_RECORD =>
      if is_crlf c then Ok (set_state r EAT_CRNL)
      else start_field r c
  | START_FIELD => start_field r c
  | IN_FIELD =>
      if is_crlf c then Ok (parse_save_field r EAT_CRNL)
      else if Ascii.eqb c delimiter then Ok (parse_save_field r START_FIELD)
      else parse_add_char r c IN_FIELD
  | IN_QUOTED_FIELD =>
      if Ascii.eqb c quotechar then Ok (set_state r QUOTE_IN_QUOTED_FIELD)
      else parse_add_char r c IN_QUOTED_FIELD
  | QUOTE_IN_QUOTED_FIELD =>
      if Ascii.eqb c quotechar then parse_add_char r c IN_QUOTED_FIELD
      else if Ascii.eqb c delimiter then Ok (parse_save_field r START_FIELD)
      else if is_crlf c then Ok (parse_save_field r EAT_CRNL)
      else parse_add_char r c IN_FIELD
  | EAT_CRNL =>
      if is_crlf c then Ok r else Raise OtherException
  end.

(** [parse_process_char] on the end of a line. *)
Definition process_eol (r : Reader) : Reader :=
  match state r with
  | START_RECORD => r
  | START_FIELD | IN_FIELD | QUOTE_IN_QUOTED_FIELD =>
      parse_save_field r START_RECORD
  | IN_QUOTED_FIELD => r
  | EAT_CRNL => set_state r START_RECORD
  end.

Fixpoint process_line (r : Reader) (line : str) : res Reader :=
  match line with
  | [] => Ok (process_eol r)
  | c :: t => (r' <- process_char r c ;; process_line r' t)%res
  end.

(** [list(csv.reader(lines))]: a record is complete when a line ends in
    state [START_RECORD]; input that ends inside a quoted field closes
    the record. *)
Fixpoint read_records (r : Reader) (lines : list str) : res (list (list str)) :=
  match lines with
  | [] =>
      match state r with
      | IN_QUOTED_FIELD => Ok [rev (fields (parse_save_field r START_RECORD))]
      | _ => Ok []
      end
  | line :: rest =>
      (r' <- process_line r line ;;
       match state r' with
       | START_RECORD =>
           (recs <- read_records parse_reset rest ;;
            Ok (rev (fields r') :: recs))
       | _ => read_records r' rest
       end)%res
  end.

Definition reader (text : str) : res (list (list str)) :=
  read_records parse_reset (readlines text).

(** ** Dictionaries *)

(** [dict(zip(fieldnames, row))], then [None] for the field names a short
    row leaves out. A key that holds [None] is modelled as absent:
    the scripts read rows with [r.get(k)] only. *)
Definition dict_of_row (fieldnames row : list str) : gmap str str :=
  foldr delete
    (list_to_map (reverse (zip fieldnames row)) : gmap str str)
    (drop (length row) fieldnames).

(** [list(csv.DictReader(f, delimiter='|'))]: the first record names the
    fields, empty records are skipped. *)
Definition dict_reader (text : str) : res (list (gmap str str)) :=
  (recs <- reader text ;;
   match recs with
   | [] => Ok []
   | fieldnames :: rows =>
       Ok (map (dict_of_row fieldnames)
             (filter (fun row => row ≠ []) rows))
   end)%res.

End Csv.

(** * Files *)

(** What a run does to the world outside, in program order. *)
Inductive Effect :=
| Goto (url : str)                  (* a page is loaded *)
| OpenW (path : str)                (* [open(path, "w")]: created or truncated *)
| Write (path : str) (data : str).  (* [data] is written at the end of the file *)

(** A file system: the text of every file that exists. *)
Definition apply_effect (fs : gmap str str) (ev : Effect) : gmap str str :=
  match ev with
  | Goto _ => fs
  | OpenW path => <[ path := [] ]> fs
  | Write path data => <[ path := default [] (fs !! path) ++ data ]> fs
  end.

Definition apply_effects (fs : gmap str str) (evs : list Effect)
  : gmap str str :=
  fold_left apply_effect evs fs.

(** [r.get(k)] read as text: [""] for a missing key. *)
Definition get (r : gmap str str) (k : str) : str := default [] (r !! k).

(** [t.strip().lower()]: the dedup key of a title. *)
Definition title_key_of (title : str) : str := lower (strip title).

(** The keys of the rows of a catalog: empty keys are left out. *)
Fixpoint titles_of (rows : list (gmap str str)) (acc : gset str) : gset str :=
  match rows with
  | [] => acc
  | r :: rest =>
      let t := title_key_of (get r "title") in
      titles_of rest (if nonempty t then {[ t ]} ∪ acc else acc)
  end.

(** * The snapshot-merge variant: catalog and main loop *)

Module SnapshotMergeRun.
Import SnapshotMerge.

Definition headers : list str :=
  [ "id" : str; "date" : str; "title" : str; "link" : str;
    "pdf_link" : str; "pdf_filename" : str; "pdf_downloaded" : str;
    "created_at" : str; "source_commit" : str ].

(** [load_master_csv(path)] *)
Definition load_master_csv (fs : gmap str str) (path : str)
  : res (list (gmap str str)) :=
  match fs !! path with
  | None => Ok []
  | Some text => Csv.dict_reader text
  end.

(** The row [write_csv] and [write_json] hand on: every header read as
    text, and [pdf_filename] sanitized again. *)
Definition safe_row (r : gmap str str) : gmap str str :=
  let safe_row : gmap str str :=
    list_to_map (map (fun k => (k, get r k)) headers) in
  <[ ("pdf_filename" : str) :=
       safe_filename (get safe_row "pdf_filename") "document.pdf" ]> safe_row.

(** The fields of a row in header order, as [DictWriter] lists them. *)
Definition dict_to_list (r : gmap str str) : list str :=
  map (get r) headers.

(** The text the [csv] writer produces for [rows], header first. *)
Definition csv_lines (rows : list (gmap str str)) : list str :=
  Csv.writerow headers
  :: map (fun r => Csv.writerow (dict_to_list (safe_row r))) rows.

(** [data.replace(b'\r\n', b'\n')] *)
Fixpoint replace_crlf (s : str) : str :=
  match s with
  | [] => []
  | c :: t =>
      match t with
      | c' :: t' =>
          if Ascii.eqb c Csv.CR && Ascii.eqb c' Csv.LF
          then Csv.LF :: replace_crlf t'
          else c :: replace_crlf t
      | [] => [c]
      end
  end.

(** [write_csv(path, rows)]: the file is opened for writing, header and
    rows are written one by one; then it is read back, opened again and
    written with LF line ends. *)
Definition write_csv (path : str) (rows : list (gmap str str))
  : list Effect :=
  let lines := csv_lines rows in
  OpenW path :: map (Write path) lines
  ++ [OpenW path; Write path (replace_crlf (concat lines))].

(** The rows [write_json] dumps: the rows of the new-entries artifact. *)
Definition json_rows (rows : list (gmap str str)) : list (gmap str str) :=
  map safe_row rows.

(** [write_json(path, rows)] *)
Definition write_json (L : Lib) (path : str) (rows : list (gmap str str))
  : list Effect :=
  [OpenW path; Write path (json_dumps L (json_rows rows))].

(** The world of a run: the rendered listing, what loading the detail
    page of the [n]-th candidate gives, and the clock. *)
Record World := {
  listing : ListingPage;
  goto : nat -> str -> res Page;
  utcnow : nat -> str;
}.

Record LoopState := {
  existing_titles : gset str;
  new_master : list (gmap str str);
  new_entries : list (gmap str str);
  trace : list Effect;
}.

Section WithWorld.
Variable L : Lib.
Variable w : World.

(** The [try] block of the loop: the document address found on the
    detail page, [None] when anything raises. *)
Definition detail_pdf_url (n : nat) (link : str) : option str :=
  match goto w n link with
  | Raise _ => None
  | Ok detail_page =>
      match find_pdf_url_on_page L detail_page with
      | Ok pdf_url => pdf_url
      | Raise _ => None
      end
  end.

(** The row built for a new candidate. *)
Definition new_row (n : nat) (e : Entry) : gmap str str :=
  let date := e_date e in
  let title := e_title e in
  let link := e_link e in
  let pdf_url := detail_pdf_url n link in
  list_to_map
    [ ("id" : str, make_id L date title link);
      ("date" : str, date);
      ("title" : str, title);
      ("link" : str, link);
      ("pdf_link" : str, or_empty pdf_url);
      ("pdf_filename" : str, safe_filename title "document");
      ("pdf_downloaded" : str, "no" : str);
      ("created_at" : str, utcnow w n);
      ("source_commit" : str, []) ].

(** The body of the loop over the candidates. *)
Definition process_entry (n : nat) (st : LoopState) (e : Entry)
  : LoopState :=
  let title_key := title_key_of (e_title e) in
  if bool_decide (title_key ∈ existing_titles st) then st
  else
    let row := new_row n e in
    {| existing_titles := {[ title_key ]} ∪ existing_titles st;
       new_master := new_master st ++ [row];
       new_entries := new_entries st ++ [row];
       trace := trace st ++ [Goto (e_link e)] |}.

Fixpoint process_entries (n : nat) (st : LoopState) (entries : list Entry)
  : LoopState :=
  match entries with
  | [] => st
  | e :: rest => process_entries (S n) (process_entry n st e) rest
  end.

(** The result of a run. *)
Record Run := {
  run_entries : list Entry;          (* the candidates examined *)
  master_rows : list (gmap str str); (* the catalog as loaded *)
  final : LoopState;                 (* the state after the loop *)
  effects : list Effect;             (* everything done outside *)
  new_json : list (gmap str str);    (* the new-entries artifact *)
}.

(** [main()]: [Raise] when the catalog cannot be read; a run that finds
    no entry exits after loading the listing. *)
Definition main (fs : gmap str str) : res Run :=
  let entries := extract_entries_from_listing L (listing w) in
  match entries with
  | [] =>
      Ok {| run_entries := []; master_rows := [];
            final := {| existing_titles := ∅; new_master := [];
                        new_entries := []; trace := [Goto BASE_URL] |};
            effects := [Goto BASE_URL]; new_json := [] |}
  | _ =>
      let entries := firstn NUM_ENTRIES entries in
      (master_rows <- load_master_csv fs MASTER_CSV ;;
       let st0 := {| existing_titles := titles_of master_rows ∅;
                     new_master := master_rows;
                     new_entries := [];
                     trace := [Goto BASE_URL] |} in
       let st := process_entries 0 st0 entries in
       Ok {| run_entries := entries; master_rows := master_rows;
             final := st;
             effects := trace st ++ write_csv MASTER_CSV (new_master st)
                        ++ write_json L NEW_JSON (new_entries st);
             new_json := json_rows (new_entries st) |})%res
  end.

End WithWorld.

End SnapshotMergeRun.

(** * The append-only variant: main loop *)

Module AppendOnlyRun.
Import AppendOnly.

(** [log(msg)] takes one argument; a call with another number of
    arguments raises [TypeError]. What is printed is not modelled. *)
Definition log (args : list str) : res unit :=
  match args with
  | [ _ ] => Ok tt
  | _ => Raise TypeError
  end.

(** A value that counts as true: [None] and the empty text do not. *)
Definition truthy (v : option str) : option str :=
  match v with
  | Some (c :: s) => Some (c :: s)
  | _ => None
  end.

(** The outcome of [fh.write(content)] and of leaving the [with] block:
    the body is in the file, or an exception was raised after [on_disk]
    had reached it. *)
Inductive WriteOutcome :=
| Written
| WriteRaised (on_disk : str).

(** The world of a run. *)
Record World := {
  listing : ListingPage;
  (** what the catalog file holds at start, [None] when it does not exist *)
  csv_at_start : option (list (gmap str str));
  (** whether the catalog can be opened for append *)
  open_append : res unit;
  (** loading the detail page of candidate [idx] *)
  goto : nat -> str -> res Page;
  (** [context.request.get(url)]: status and body *)
  request_get : str -> res (nat * str);
  (** [open(dest_path, "wb")]: the destination is created or emptied *)
  open_wb : str -> res unit;
  (** [fh.write(content)] up to the end of the [with] block *)
  write_body : str -> str -> WriteOutcome;
  (** [writer.writerow] and [csvfile.flush] for candidate [idx] *)
  csv_writerow : nat -> res unit;
  csv_flush : nat -> res unit;
}.

(** The variables of one loop iteration the [try] block assigns, and what
    it has left on disk (address fetched, path, bytes in the file). *)
Record Locals := {
  pdf_url : option str;
  pdf_file : str;
  downloaded : bool;
  saved : list (str * str * str);
}.

(** A block that reads and assigns the locals and may raise: the locals
    keep what was assigned before the exception. *)
Definition M (A : Type) : Type := Locals -> res A * Locals.

Definition ret {A} (a : A) : M A := fun l => (Ok a, l).

Definition bind {A B} (m : M A) (k : A -> M B) : M B :=
  fun l =>
    match m l with
    | (Ok a, l') => k a l'
    | (Raise e, l') => (Raise e, l')
    end.

Definition lift {A} (r : res A) : M A := fun l => (r, l).

Definition read : M Locals := fun l => (Ok l, l).

Definition set_pdf_url (v : option str) : M unit :=
  fun l => (Ok tt, {| pdf_url := v; pdf_file := pdf_file l;
                      downloaded := downloaded l; saved := saved l |}).

Definition set_pdf_file (v : str) : M unit :=
  fun l => (Ok tt, {| pdf_url := pdf_url l; pdf_file := v;
                      downloaded := downloaded l; saved := saved l |}).

Definition set_downloaded (v : bool) : M unit :=
  fun l => (Ok tt, {| pdf_url := pdf_url l; pdf_file := pdf_file l;
                      downloaded := v; saved := saved l |}).

(** Of the body fetched from [url], [content] is on disk at [path]. *)
Definition save_file (url path content : str) : M unit :=
  fun l => (Ok tt, {| pdf_url := pdf_url l; pdf_file := pdf_file l;
                      downloaded := downloaded l;
                      saved := saved l ++ [(url, path, content)] |}).

Declare Scope block_scope.
Delimit Scope block_scope with block.
Notation "x <- m ;; k" := (bind m (fun x => k))
  (at level 100, m at next level, right associativity) : block_scope.
Notation "m ;;; k" := (bind m (fun _ => k))
  (at level 100, right associativity) : block_scope.

Section WithWorld.
Variable L : Lib.
Variable w : World.

(** [read_existing_titles(csv_path)] *)
Definition read_existing_titles : gset str :=
  match csv_at_start w with
  | None => ∅
  | Some rows => titles_of rows ∅
  end.

(** The anchor heuristic of the main loop: the first hyperlink whose
    [href] ends in [.pdf], or mentions [.pdf] under a text that says
    view or pdf. A raising [get_attribute] propagates. *)
Fixpoint anchor_heuristic (p : Page) (anchors : list Element)
  : res (option str) :=
  match anchors with
  | [] => Ok None
  | a :: rest =>
      (v <- get_attribute a "href" ;;
       let href := or_empty v in
       let txt := lower (inner_text a) in
       if nonempty href
          && (endswith (lower href) ".pdf"
              || (contains ".pdf" (lower href)
                  && (contains "view" txt || contains "pdf" txt)))
       then Ok (Some (urljoin L (page_url p) href))
       else anchor_heuristic p rest)%res
  end.

(** Inside one frame: the four selectors, each read like the targeted
    tier; [Raise] when a call on the frame raises. A match whose joined
    address is empty does not stop the search. *)
Fixpoint frame_selectors (fr : Frame) (sels : list str)
  : res (option str) :=
  match sels with
  | [] => Ok None
  | sel :: rest =>
      (el <- frame_query_selector fr sel ;;
       hit <- match el with
              | Some el =>
                  v <- first_pdf_attr el
                         ["src" : str; "href" : str; "data" : str] ;;
                  Ok (match v with
                      | Some s => truthy (Some (urljoin L (frame_url fr) s))
                      | None => None
                      end)
              | None => Ok None
              end ;;
       match hit with
       | Some u => Ok (Some u)
       | None => frame_selectors fr rest
       end)%res
  end.

(** The frame check of the main loop: a frame whose own address ends in
    [.pdf], or a hit of the selectors inside it; a frame that raises is
    passed over. *)
Fixpoint check_frames (frames : list Frame) : option str :=
  match frames with
  | [] => None
  | fr :: rest =>
      let fr_url := frame_url fr in
      if nonempty fr_url && endswith (lower fr_url) ".pdf"
      then Some fr_url
      else match frame_selectors fr
                   [ "iframe[src$='.pdf']" : str; "embed[src$='.pdf']" : str;
                     "object[data$='.pdf']" : str; "a[href$='.pdf']" : str ] with
           | Ok (Some u) => Some u
           | Ok None | Raise _ => check_frames rest
           end
  end.

(** [download_pdf_via_playwright_request(context, pdf_url, dest_path)]:
    once the destination is open it exists; a write that raises leaves in
    it what had been written. *)
Definition download_pdf_via_playwright_request (pdf_url dest_path : str)
  : M bool :=
  match request_get w pdf_url with
  | Raise _ => ret false
  | Ok (status, content) =>
      if negb (Nat.eqb status 200) then ret false
      else match open_wb w dest_path with
           | Raise _ => ret false
           | Ok _ =>
               match write_body w dest_path content with
               | Written =>
                   (save_file pdf_url dest_path content ;;; ret true)%block
               | WriteRaised on_disk =>
                   (save_file pdf_url dest_path on_disk ;;; ret false)%block
               end
           end
  end.

(** The lines of the [try] block that look for the document address:
    [find_pdf_url_on_page], then the anchor heuristic, then the frames. *)
Definition resolve_block (entry_page : Page) : M unit :=
  (found <- lift (find_pdf_url_on_page L entry_page) ;;
   set_pdf_url found ;;;
   l <- read ;;
   match truthy (pdf_url l) with
   | Some _ => ret tt
   | None =>
       hit <- lift (anchor_heuristic entry_page
                      (query_selector_all entry_page "a")) ;;
       match hit with
       | Some u => set_pdf_url (Some u)
       | None => ret tt
       end
   end ;;;
   l <- read ;;
   match truthy (pdf_url l) with
   | Some _ => ret tt
   | None =>
       match check_frames (page_frames entry_page) with
       | Some u => set_pdf_url (Some u)
       | None => ret tt
       end
   end)%block.

(** The [try] block of one iteration. *)
Definition try_block (idx : nat) (link title_raw : str) : M unit :=
  (entry_page <- lift (goto w idx link) ;;
   resolve_block entry_page ;;;
   l <- read ;;
   match truthy (pdf_url l) with
   | Some u =>
       let pdf_url := urljoin L (page_url entry_page) u in
       set_pdf_url (Some pdf_url) ;;;
       lift (log ["  [FOUND] PDF URL:" : str; pdf_url]) ;;;
       let dest_path := dest_path L pdf_url title_raw in
       lift (log ["  [DOWNLOAD] Downloading and overwriting" : str]) ;;;
       ok <- download_pdf_via_playwright_request pdf_url dest_path ;;
       if ok : bool
       then lift (log ["  [OK] Downloaded" : str]) ;;;
            set_pdf_file dest_path ;;;
            set_downloaded true
       else lift (log ["  [ERROR] Failed to download PDF from URL." : str])
   | None => lift (log ["  [WARN] No PDF found on the entry page." : str])
   end)%block.

Definition init_locals : Locals :=
  {| pdf_url := None; pdf_file := []; downloaded := false; saved := [] |}.

(** The state the loop of [main] carries: the dedup set, the counter,
    the rows handed to the catalog file by a [writerow] that returned,
    the rows whose [writerow] and [flush] both returned, and the
    documents written to disk. *)
Record RunState := {
  existing_titles : gset str;
  added : nat;
  written : list (gmap str str);
  appended : list (gmap str str);
  files : list (str * str * str);
}.

(** [str(idx)] *)
Definition decimal (n : nat) : str := NilZero.string_of_uint (Nat.to_uint n).

(** [e.get("title", "") or f"entry_{idx}"] *)
Definition title_raw_of (idx : nat) (e : Entry) : str :=
  if nonempty (e_title e) then e_title e
  else ("entry_" : str) ++ decimal idx.

(** The row appended for a candidate, from the locals the [try] block
    left. *)
Definition row_of (e : Entry) (title_raw : str) (l : Locals)
  : gmap str str :=
  list_to_map
    [ ("date" : str, e_date e);
      ("title" : str, title_raw);
      ("link" : str, e_link e);
      ("pdf_link" : str, or_empty (pdf_url l));
      ("pdf_filename" : str, pdf_file l);
      ("pdf_downloaded" : str,
        if downloaded l then ("yes" : str) else ("no" : str)) ].

(** The locals the [try] block leaves for candidate [e] at position
    [idx]. *)
Definition candidate_locals (idx : nat) (e : Entry) : Locals :=
  snd (try_block idx (e_link e) (title_raw_of idx e) init_locals).

(** The row the loop builds for candidate [e] at position [idx]. *)
Definition candidate_row (idx : nat) (e : Entry) : gmap str str :=
  row_of e (title_raw_of idx e) (candidate_locals idx e).

(** The body of the loop over the candidates. *)
Definition process_entry (idx : nat) (st : RunState) (e : Entry)
  : RunState :=
  let title_raw := title_raw_of idx e in
  let title_key := title_key_of title_raw in
  if bool_decide (title_key ∈ existing_titles st) then st
  else
    let l := candidate_locals idx e in
    let row := candidate_row idx e in
    let files' := files st ++ saved l in
    match csv_writerow w idx with
    | Raise _ =>
        {| existing_titles := existing_titles st; added := added st;
           written := written st; appended := appended st;
           files := files' |}
    | Ok _ =>
        match csv_flush w idx with
        | Raise _ =>
            {| existing_titles := existing_titles st; added := added st;
               written := written st ++ [row]; appended := appended st;
               files := files' |}
        | Ok _ =>
            {| existing_titles := {[ title_key ]} ∪ existing_titles st;
               added := added st + 1;
               written := written st ++ [row];
               appended := appended st ++ [row];
               files := files' |}
        end
    end.

Fixpoint process_entries (idx : nat) (st : RunState)
         (entries : list Entry) : RunState :=
  match entries with
  | [] => st
  | e :: rest => process_entries (S idx) (process_entry idx st e) rest
  end.

Definition init_state : RunState :=
  {| existing_titles := read_existing_titles; added := 0;
     written := []; appended := []; files := [] |}.

(** The candidates [main] examines: the chosen tier, cut to
    [NUM_ENTRIES]. *)
Definition candidates : list Entry :=
  firstn NUM_ENTRIES (listing_entries L (listing w)).

(** [main()]: nothing is processed when the listing gives no entry or
    the catalog cannot be opened for append; candidates are numbered
    from 1. The header line a new catalog starts with is not a row and is
    left out. *)
Definition main : RunState :=
  match listing_entries L (listing w) with
  | [] => init_state
  | _ =>
      match open_append w with
      | Raise _ => init_state
      | Ok _ => process_entries 1 init_state candidates
      end
  end.

End WithWorld.

End AppendOnlyRun.

(** * A sample library and sample worlds for the examples

    The examples below need the imported functions at a few concrete
    arguments. [Sample.lib] joins addresses as [urljoin] does when the
    reference is absolute or empty (the examples use no other reference),
    decodes text without percent escapes, names the last path segment of an
    address that has a path, and puts fixed texts in place of the digest
    and of the JSON dump, on which no example depends. *)

Module Sample.

Fixpoint before_query (s : str) : str :=
  match s with
  | [] => []
  | c :: t =>
      if Ascii.eqb c "?" || Ascii.eqb c "#" then [] else c :: before_query t
  end.

Definition lib : Lib :=
  {| urljoin := fun base url => if nonempty url then url else base;
     unquote := fun s => s;
     url_path_name := fun u => basename (before_query u);
     sha1_hexdigest := fun _ => repeat "0"%char 40;
     json_dumps := fun _ => [] |}.

(** An element with the given attributes and text. *)
Definition element (attrs : list (str * str)) (text : str) : Element :=
  {| get_attribute := fun name =>
       Ok (snd <$> List.find (fun kv => str_eqb (fst kv) name) attrs);
     inner_text := text |}.

(** An element handle that has gone stale: reading it raises. *)
Definition stale_element : Element :=
  {| get_attribute := fun _ => Raise OtherException; inner_text := [] |}.

(** A hyperlink of a listing page with nothing readable around it. *)
Definition anchor (text href : str) : Anchor :=
  {| a_inner_text := text; a_href := Some href;
     a_prev_sibling_text := Ok []; a_parent_prev_text := Ok [] |}.

(** A listing whose table has a heading row only (no [td] cell), while the
    content area holds one hyperlink. *)
Definition heading_only_listing : ListingPage :=
  {| lp_table := Some {| tbody_trs := [];
                         all_trs := [ {| tr_tds := []; tr_anchor := None |} ] |};
     lp_content_anchors :=
       [ anchor "Circular A" "https://www.sebi.gov.in/legal/circulars/a.html" ] |}.

(** A listing whose table has one row with a date cell and nothing else. *)
Definition dated_row_listing : ListingPage :=
  {| lp_table := Some {| tbody_trs := [ {| tr_tds := [ "Jan 01, 2024" : str ];
                                           tr_anchor := None |} ];
                         all_trs := [] |};
     lp_content_anchors := [] |}.

(** A listing with one table row per (date, title, address). *)
Definition listing_of (rows : list (str * str * str)) : ListingPage :=
  {| lp_table :=
       Some {| tbody_trs :=
                 map (fun r => {| tr_tds := [ fst (fst r); snd (fst r) ];
                                  tr_anchor := Some (anchor (snd (fst r)) (snd r)) |})
                     rows;
               all_trs := [] |};
     lp_content_anchors := [] |}.

(** A detail page that is still rendering: the selector queries find
    nothing, the sweep over all elements meets a handle that has gone
    stale, the later query for hyperlinks sees a link to the document; one
    frame shows a document of its own. *)
Definition rendering_page : Page :=
  {| page_url := "https://www.sebi.gov.in/legal/circulars/jan-2024/a.html";
     query_selector := fun _ => None;
     query_selector_all := fun sel =>
       if str_eqb sel "a"
       then [ element [ ("href" : str,
                         "https://www.sebi.gov.in/sebi_data/attachdocs/a.pdf" : str) ]
                      "View PDF" ]
       else if str_eqb sel "*" then [ stale_element ]
       else [];
     page_frames :=
       [ {| frame_url := "https://www.sebi.gov.in/web/viewer/frame.pdf";
            frame_query_selector := fun _ => Ok None |} ] |}.

(** A detail page with an embedded document. *)
Definition embed_page : Page :=
  {| page_url := "https://www.sebi.gov.in/legal/circulars/jan-2024/b.html";
     query_selector := fun sel =>
       if str_eqb sel "iframe[src$='.pdf']"
       then Some (element [ ("src" : str,
                             "https://www.sebi.gov.in/sebi_data/attachdocs/b.pdf" : str) ] [])
       else None;
     query_selector_all := fun _ => [];
     page_frames := [] |}.

(** A detail page without document whose only frame shows one. *)
Definition framed_page : Page :=
  {| page_url := "https://www.sebi.gov.in/legal/circulars/jan-2024/c.html";
     query_selector := fun _ => None;
     query_selector_all := fun _ => [];
     page_frames :=
       [ {| frame_url := "https://www.sebi.gov.in/web/viewer/frame.pdf";
            frame_query_selector := fun _ => Ok None |} ] |}.

(** Two rows of a listing. *)
Definition circular_a : str * str * str :=
  ("Jan 01, 2024" : str, "Circular A" : str,
   "https://www.sebi.gov.in/legal/circulars/a.html" : str).

Definition circular_b : str * str * str :=
  ("Jan 02, 2024" : str, "Circular B" : str,
   "https://www.sebi.gov.in/legal/circulars/b.html" : str).

(** A catalog row with the given title. *)
Definition titled (title : str) : gmap str str :=
  {[ ("title" : str) := title ]}.

(** A world of the append-only variant: the listing shows [rows], the
    catalog holds [csv], every detail page loads as [load], every download
    answers 200, and the two catalog calls answer [wr] and [fl]. *)
Definition ao_world (rows : list (str * str * str))
           (csv : option (list (gmap str str))) (load : res Page)
           (wr fl : res unit) : AppendOnlyRun.World :=
  {| AppendOnlyRun.listing := listing_of rows;
     AppendOnlyRun.csv_at_start := csv;
     AppendOnlyRun.open_append := Ok tt;
     AppendOnlyRun.goto := fun _ _ => load;
     AppendOnlyRun.request_get := fun _ => Ok (200, "%PDF-1.4" : str);
     AppendOnlyRun.open_wb := fun _ => Ok tt;
     AppendOnlyRun.write_body := fun _ _ => AppendOnlyRun.Written;
     AppendOnlyRun.csv_writerow := fun _ => wr;
     AppendOnlyRun.csv_flush := fun _ => fl |}.

(** A world of the snapshot-merge variant: the listing shows [rows] and
    every detail page loads as [load]. *)
Definition sm_world (rows : list (str * str * str)) (load : res Page)
  : SnapshotMergeRun.World :=
  {| SnapshotMergeRun.listing := listing_of rows;
     SnapshotMergeRun.goto := fun _ _ => load;
     SnapshotMergeRun.utcnow := fun _ => "2024-01-03T00:00:00Z" |}.

(** A listing with one entry whose title holds a backslash, and one whose
    title holds a CR LF line break. *)
Definition backslash_world : SnapshotMergeRun.World :=
  sm_world [ ("Jan 01, 2024" : str, "Notice A\B" : str,
              "https://www.sebi.gov.in/legal/circulars/a.html" : str) ]
           (Ok embed_page).

Definition crlf_world : SnapshotMergeRun.World :=
  sm_world [ ("Jan 01, 2024" : str,
              ("Notice" : str) ++ [Csv.CR; Csv.LF] ++ ("A" : str),
              "https://www.sebi.gov.in/legal/circulars/a.html" : str) ]
           (Ok embed_page).

Definition plain_world : SnapshotMergeRun.World :=
  sm_world [ circular_a ] (Ok embed_page).

(** A catalog file with one row for Circular A whose [pdf_filename] column
    is empty. *)
Definition bare_catalog : gmap str str :=
  {[ SnapshotMerge.MASTER_CSV :=
       Csv.writerow SnapshotMergeRun.headers
       ++ Csv.writerow [ "1" : str; "Jan 01, 2024" : str; "Circular A" : str;
                         "https://www.sebi.gov.in/legal/circulars/a.html" : str;
                         [] ; [] ; "no" : str; [] ; [] ] ]}.


End Sample.

(** * Notions the statements use *)

(** A character a derived file name may hold: none of the nine characters
    of the forbidden class, neither LF nor CR. *)
Definition allowed (c : ascii) : Prop :=
  forbidden c = false /\ is_newline c = false.

(** After both substitutions: no forbidden character, and no white space
    but the plain space. *)
Definition sanitized (c : ascii) : Prop :=
  forbidden c = false /\ (isspace c = true -> c = " "%char).

(** What a block leaves untouched. *)
Definition same_downloads (l0 l1 : AppendOnlyRun.Locals) : Prop :=
  AppendOnlyRun.downloaded l1 = AppendOnlyRun.downloaded l0
  /\ AppendOnlyRun.pdf_file l1 = AppendOnlyRun.pdf_file l0
  /\ AppendOnlyRun.saved l1 = AppendOnlyRun.saved l0.

(** Blocks that leave the download variables as they found them. *)
Definition keeps {A} (m : AppendOnlyRun.M A) : Prop :=
  forall l, same_downloads l (snd (m l)).

(** The invariant of the loop: the dedup set is the set at start plus the
    keys of the appended rows, and the counter counts them. *)
Definition tracks (T0 : gset str) (st : AppendOnlyRun.RunState) : Prop :=
  AppendOnlyRun.existing_titles st
  = T0 ∪ list_to_set (map (fun r => title_key_of (get r "title"))
                          (AppendOnlyRun.appended st))
  /\ AppendOnlyRun.added st = length (AppendOnlyRun.appended st).

(** The file system after a run that returns. *)
Definition fs_after_run (L : Lib) (w : SnapshotMergeRun.World)
           (fs : gmap str str) : res (gmap str str) :=
  (run <- SnapshotMergeRun.main L w fs ;;
   Ok (apply_effects fs (SnapshotMergeRun.effects run)))%res.

(** The titles [load_master_csv] reads from the catalog file. *)
Definition catalog_titles (fs : gmap str str) : res (list str) :=
  (rows <- SnapshotMergeRun.load_master_csv fs SnapshotMerge.MASTER_CSV ;;
   Ok (map (fun r => get r "title") rows))%res.

(** The [pdf_filename] column [load_master_csv] reads. *)
Definition catalog_filenames (fs : gmap str str) : res (list str) :=
  (rows <- SnapshotMergeRun.load_master_csv fs SnapshotMerge.MASTER_CSV ;;
   Ok (map (fun r => get r "pdf_filename") rows))%res.


(** The text of the catalog file a complete [write_csv] leaves. *)
Definition catalog_text (rows : list (gmap str str)) : str :=
  SnapshotMergeRun.replace_crlf (concat (SnapshotMergeRun.csv_lines rows)).

Definition is_goto (ev : Effect) : Prop :=
  match ev with Goto _ => True | _ => False end.

(** ** Notions of the further properties *)

(** A character the catalog dialect carries unchanged: not the writer's
    escape character, not a line break. *)
Definition plain (c : ascii) : Prop :=
  c <> Csv.escapechar /\ Csv.is_crlf c = false.

(** [plain], decided. *)
Definition plainb (c : ascii) : bool :=
  negb (Ascii.eqb c Csv.escapechar) && negb (Csv.is_crlf c).

(** A character that is no line break. *)
Definition no_break (c : ascii) : Prop := Csv.is_crlf c = false.

(** The characters of a whole line, one after the other, without the end
    of line. *)
Fixpoint process_chars (r : Csv.Reader) (s : str) : res Csv.Reader :=
  match s with
  | [] => Ok r
  | c :: t => (r' <- Csv.process_char r c ;; process_chars r' t)%res
  end.

Section CsvNotions.
Import Csv.

(** What the writer copies for a field: the field with every quote and
    every escape character doubled. *)
Fixpoint escaped (s : str) : str :=
  match s with
  | [] => []
  | c :: t =>
      if Ascii.eqb c quotechar then quotechar :: c :: escaped t
      else if Ascii.eqb c escapechar then escapechar :: c :: escaped t
      else c :: escaped t
  end.

(** A field with every backslash twice. *)
Fixpoint double_backslashes (s : str) : str :=
  match s with
  | [] => []
  | c :: t =>
      if Ascii.eqb c escapechar then c :: c :: double_backslashes t
      else c :: double_backslashes t
  end.

(** A character that makes the writer quote its field. *)
Definition needs_quotes (c : ascii) : bool :=
  Ascii.eqb c quotechar || Ascii.eqb c delimiter || is_crlf c.

(** One written field, read from the start of a field: the reader ends in
    a state from which a delimiter or a line break saves the field. *)
Definition field_read (F : list str) (f : str) (r : Reader) : Prop :=
  fields r = F /\ field r = rev f
  /\ (state r = START_FIELD /\ f = []
      \/ state r = IN_FIELD \/ state r = QUOTE_IN_QUOTED_FIELD).

(** What [writerow] writes before the line terminator. *)
Definition row_text (fs : list str) : str :=
  match fs with
  | [ [] ] => [quotechar; quotechar]
  | _ => join_fields fs
  end.

End CsvNotions.

(** A length the reader accepts for a field: at most [Csv.field_limit]. *)
Definition room (n : nat) : Prop :=
  N.leb (N.of_nat n) Csv.field_limit = true.

(** A field the reader accepts. *)
Definition fits (f : str) : Prop := room (length f).

(** A catalog row whose fields the reader accepts; [pdf_filename] is cut
    on the way out and needs no condition. *)
Definition fits_row (r : gmap str str) : Prop :=
  Forall (fun k => fits (get r k))
         [ "id" : str; "date" : str; "title" : str; "link" : str;
           "pdf_link" : str; "pdf_downloaded" : str; "created_at" : str;
           "source_commit" : str ].

(** [fits_row], decided. *)
Definition fits_rowb (r : gmap str str) : bool :=
  forallb (fun k => N.leb (N.of_nat (length (get r k))) Csv.field_limit)
          [ "id" : str; "date" : str; "title" : str; "link" : str;
            "pdf_link" : str; "pdf_downloaded" : str; "created_at" : str;
            "source_commit" : str ].

(** A catalog row whose fields the reader accepts with every backslash
    counted twice. *)
Definition fits_doubled_row (r : gmap str str) : Prop :=
  Forall (fun k => fits (double_backslashes (get r k)))
         [ "id" : str; "date" : str; "title" : str; "link" : str;
           "pdf_link" : str; "pdf_downloaded" : str; "created_at" : str;
           "source_commit" : str ].

(** [fits_doubled_row], decided. *)
Definition fits_doubled_rowb (r : gmap str str) : bool :=
  forallb (fun k => N.leb (N.of_nat (length (double_backslashes (get r k))))
                          Csv.field_limit)
          [ "id" : str; "date" : str; "title" : str; "link" : str;
            "pdf_link" : str; "pdf_downloaded" : str; "created_at" : str;
            "source_commit" : str ].

(** A catalog row none of whose fields holds a backslash or a line break;
    [pdf_filename] is sanitized on the way out and needs no condition. *)
Definition plain_row (r : gmap str str) : Prop :=
  Forall (fun k => Forall plain (get r k))
         [ "id" : str; "date" : str; "title" : str; "link" : str;
           "pdf_link" : str; "pdf_downloaded" : str; "created_at" : str;
           "source_commit" : str ].

(** [plain_row], decided. *)
Definition plain_rowb (r : gmap str str) : bool :=
  forallb (fun k => forallb plainb (get r k))
          [ "id" : str; "date" : str; "title" : str; "link" : str;
            "pdf_link" : str; "pdf_downloaded" : str; "created_at" : str;
            "source_commit" : str ].

(** A catalog row none of whose fields holds a line break. *)
Definition no_break_row (r : gmap str str) : Prop :=
  Forall (fun k => Forall no_break (get r k))
         [ "id" : str; "date" : str; "title" : str; "link" : str;
           "pdf_link" : str; "pdf_downloaded" : str; "created_at" : str;
           "source_commit" : str ].

(** The row [load_master_csv] reads for a row [write_csv] wrote: the
    fields handed to the writer, every backslash twice. *)
Definition read_back (r : gmap str str) : gmap str str :=
  Csv.dict_of_row SnapshotMergeRun.headers
    (map double_backslashes
         (SnapshotMergeRun.dict_to_list (SnapshotMergeRun.safe_row r))).

(** The dedup key of a catalog row. *)
Definition key_of_row (r : gmap str str) : str :=
  title_key_of (get r "title").

(** A canonical key: not empty, and its own key. *)
Definition normal_key (k : str) : Prop := k <> [] /\ title_key_of k = k.

(** The keys of [rows] are pairwise distinct and none is in [T0]. *)
Definition fresh_keys (T0 : gset str) (rows : list (gmap str str)) : Prop :=
  NoDup (map key_of_row rows)
  /\ Forall (fun k => k ∉ T0) (map key_of_row rows).

(** The state in which the loop of the snapshot-merge variant starts on a
    loaded catalog. *)
Definition start_state (rows : list (gmap str str))
  : SnapshotMergeRun.LoopState :=
  {| SnapshotMergeRun.existing_titles := titles_of rows ∅;
     SnapshotMergeRun.new_master := rows;
     SnapshotMergeRun.new_entries := [];
     SnapshotMergeRun.trace := [Goto BASE_URL] |}.

(** The keys the append-only loop computes for [entries], numbered from
    [idx]. *)
Fixpoint candidate_keys (idx : nat) (entries : list Entry) : list str :=
  match entries with
  | [] => []
  | e :: rest =>
      title_key_of (AppendOnlyRun.title_raw_of idx e)
      :: candidate_keys (S idx) rest
  end.

(** An address [find_pdf_url_on_page] may return for page [p]: the page
    address joined with a value that mentions [.pdf] in lower case. *)
Definition pdf_address (L : Lib) (p : Page) (u : str) : Prop :=
  exists v : str,
    u = urljoin L (page_url p) v /\ contains ".pdf" (lower v) = true.

(** The pair the fallback tier remembers for an entry. *)
Definition pair_of_entry (e : Entry) : str * str := (e_title e, e_link e).

(** No run of white space in [s] but single plain spaces; [prev] tells
    that the character before [s] is white space. *)
Fixpoint spaced (prev : bool) (s : str) : Prop :=
  match s with
  | [] => True
  | c :: t =>
      if isspace c then c = " "%char /\ prev = false /\ spaced true t
      else spaced false t
  end.

(** A catalog row whose file name, as the writer hands it on, has at most
    150 characters. *)
Definition short_name (r : gmap str str) : Prop :=
  length (SnapshotMerge.safe_filename (get r "pdf_filename") "document.pdf")
  <= 150.

(** [short_name], decided. *)
Definition short_nameb (r : gmap str str) : bool :=
  Nat.leb (length (SnapshotMerge.safe_filename (get r "pdf_filename")
                                               "document.pdf")) 150.


(** * Facts about text *)

Section TextFacts.

Lemma str_eqb_refl (a : str) : str_eqb a a = true.
Proof.
  induction a as [|c a IH]; simpl; [reflexivity|].
  rewrite Ascii.eqb_refl. exact IH.
Qed.

Lemma str_eqb_eq (a b : str) : str_eqb a b = true <-> a = b.
Proof.
  split.
  - revert b. induction a as [|x a IH]; intros [|y b] H; simpl in H;
      try discriminate; [reflexivity|].
    apply andb_true_iff in H as [Hxy Hab].
    apply Ascii.eqb_eq in Hxy. subst y. f_equal. apply IH. exact Hab.
  - intros ->. apply str_eqb_refl.
Qed.

Lemma lstrip_length (s : str) : length (lstrip s) <= length s.
Proof.
  induction s as [|c s IH]; simpl; [lia|].
  destruct (isspace c); simpl; lia.
Qed.

Lemma strip_length (s : str) : length (strip s) <= length s.
Proof.
  unfold strip, rstrip. rewrite length_rev.
  etransitivity; [apply lstrip_length|].
  rewrite length_rev. apply lstrip_length.
Qed.

Lemma lstrip_Forall (P : ascii -> Prop) (s : str) :
  Forall P s -> Forall P (lstrip s).
Proof.
  induction 1 as [|c s Hc Hs IH]; simpl; [constructor|].
  destruct (isspace c); [exact IH | constructor; assumption].
Qed.

Lemma strip_Forall (P : ascii -> Prop) (s : str) :
  Forall P s -> Forall P (strip s).
Proof.
  intros H. unfold strip, rstrip.
  apply Forall_rev, lstrip_Forall, Forall_rev, lstrip_Forall, H.
Qed.

(** Replacing the runs of a class: what held of the characters outside
    the class, and holds of the replacement, holds of the result. *)
Lemma sub_runs_Forall (P Q : ascii -> Prop) cls rep b (s : str) :
  P rep ->
  (forall c, Q c -> cls c = false -> P c) ->
  Forall Q s -> Forall P (sub_runs cls rep b s).
Proof.
  intros Hrep Hstep H. revert b.
  induction H as [|c s Hc Hs IH]; intros b; simpl; [constructor|].
  destruct (cls c) eqn:E.
  - destruct b; [apply IH | constructor; [exact Hrep | apply IH]].
  - constructor; [apply Hstep; assumption | apply IH].
Qed.

Lemma firstn_Forall (P : ascii -> Prop) n (s : str) :
  Forall P s -> Forall P (firstn n s).
Proof.
  intros H. revert n.
  induction H; intros [|n]; simpl; constructor; auto.
Qed.

Lemma endswith_app (x p : str) : endswith (x ++ p) p = true.
Proof.
  unfold endswith. rewrite length_app.
  replace (length x + length p - length p) with (length x) by lia.
  rewrite skipn_app, skipn_all, Nat.sub_diag. simpl.
  rewrite str_eqb_refl, andb_true_r. apply Nat.leb_le. lia.
Qed.

Lemma endswith_app_long (x y p : str) :
  length p <= length y -> endswith (x ++ y) p = endswith y p.
Proof.
  intros H. unfold endswith. rewrite length_app.
  replace (length x + length y - length p)
    with (length x + (length y - length p)) by lia.
  rewrite skipn_app.
  rewrite (skipn_all2 x) by lia.
  replace (length x + (length y - length p) - length x)
    with (length y - length p) by lia.
  simpl. f_equal.
  apply Nat.leb_le in H as H'. rewrite H'. apply Nat.leb_le. lia.
Qed.

Lemma lower_app (a b : str) : lower (a ++ b) = lower a ++ lower b.
Proof. apply map_app. Qed.

Lemma lower_length (a : str) : length (lower a) = length a.
Proof. apply length_map. Qed.

End TextFacts.

(** * File names (C6) *)

Section FileNames.

Lemma sanitized_allowed (c : ascii) : sanitized c -> allowed c.
Proof.
  intros [Hf Hs]. split; [exact Hf|].
  destruct (is_newline c) eqn:E; [|reflexivity].
  unfold is_newline in E. apply orb_true_iff in E.
  destruct E as [E|E]; apply Ascii.eqb_eq in E; subst c;
    specialize (Hs eq_refl); discriminate Hs.
Qed.

(** Both scripts sanitize with the same two substitutions. *)
Lemma substitutions_sanitized (s : str) :
  Forall sanitized
    (re_sub_class isspace " " (re_sub_class forbidden "_" s)).
Proof.
  unfold re_sub_class.
  apply sub_runs_Forall with (Q := fun c => forbidden c = false).
  - split; [reflexivity | intros _; reflexivity].
  - intros c Hc Hsp. split; [exact Hc | congruence].
  - apply sub_runs_Forall with (Q := fun _ => True).
    + reflexivity.
    + intros c _ Hc. exact Hc.
    + apply Forall_forall. intros; exact I.
Qed.

Lemma pdf_suffix_sanitized : Forall sanitized (".pdf" : str).
Proof. repeat constructor; discriminate. Qed.

Lemma document_sanitized : Forall sanitized ("document" : str).
Proof. repeat constructor; discriminate. Qed.

Lemma snapshot_safe_filename_sanitized (s fallback : str) :
  Forall sanitized (SnapshotMerge.safe_filename s fallback).
Proof.
  unfold SnapshotMerge.safe_filename.
  match goal with
  | |- context [strip (firstn 150 ?t)] =>
      assert (Hb : Forall sanitized (strip (firstn 150 t)))
        by apply strip_Forall, firstn_Forall, substitutions_sanitized
  end.
  destruct (endswith _ _); [exact Hb|].
  apply Forall_app. split; [exact Hb | apply pdf_suffix_sanitized].
Qed.

Lemma snapshot_safe_filename_length (s fallback : str) :
  length (SnapshotMerge.safe_filename s fallback) <= 154.
Proof.
  unfold SnapshotMerge.safe_filename.
  match goal with
  | |- context [strip (firstn 150 ?t)] =>
      assert (Hb : length (strip (firstn 150 t)) <= 150)
        by (etransitivity; [apply strip_length|];
            rewrite length_firstn; lia)
  end.
  destruct (endswith _ _); [lia|].
  rewrite length_app. simpl. lia.
Qed.

Lemma snapshot_safe_filename_suffix (s fallback : str) :
  endswith (lower (SnapshotMerge.safe_filename s fallback)) ".pdf" = true.
Proof.
  unfold SnapshotMerge.safe_filename.
  set (base := strip (firstn 150 _)).
  destruct (endswith (lower base) ".pdf") eqn:E; [exact E|].
  rewrite lower_app. apply endswith_app.
Qed.

Lemma append_safe_filename_sanitized (s fallback : str) :
  Forall sanitized fallback ->
  Forall sanitized (AppendOnly.safe_filename s fallback).
Proof.
  intros Hf. unfold AppendOnly.safe_filename.
  destruct (nonempty _); [|exact Hf].
  apply firstn_Forall, substitutions_sanitized.
Qed.

Lemma append_safe_filename_length (s fallback : str) :
  length fallback <= 180 ->
  length (AppendOnly.safe_filename s fallback) <= 180.
Proof.
  intros Hf. unfold AppendOnly.safe_filename.
  destruct (nonempty _); [|exact Hf].
  rewrite length_firstn. lia.
Qed.

Section WithLib.
Variable L : Lib.

Lemma choose_name_sanitized (pdf_url title : str) :
  Forall sanitized (AppendOnly.choose_name_for_pdf L pdf_url title).
Proof.
  unfold AppendOnly.choose_name_for_pdf.
  destruct (_ && _).
  - apply append_safe_filename_sanitized, append_safe_filename_sanitized,
      document_sanitized.
  - apply Forall_app. split; [|apply pdf_suffix_sanitized].
    apply append_safe_filename_sanitized, document_sanitized.
Qed.

Lemma choose_name_length (pdf_url title : str) :
  length (AppendOnly.choose_name_for_pdf L pdf_url title) <= 184.
Proof.
  unfold AppendOnly.choose_name_for_pdf.
  destruct (_ && _).
  - etransitivity; [apply append_safe_filename_length|lia].
    apply append_safe_filename_length. simpl. lia.
  - rewrite length_app. simpl.
    pose proof (append_safe_filename_length title "document").
    simpl in H. lia.
Qed.

Lemma basename_from_no_slash (acc s : str) :
  Forall (fun c => Ascii.eqb c "/" = false) s -> basename_from acc s = acc ++ s.
Proof.
  intros H. revert acc. induction H as [|c s Hc _ IH]; intros acc; simpl.
  - rewrite app_nil_r. reflexivity.
  - rewrite Hc, IH, <- app_assoc. reflexivity.
Qed.

Lemma sanitized_no_slash (s : str) :
  Forall sanitized s -> Forall (fun c => Ascii.eqb c "/" = false) s.
Proof.
  intros H. eapply Forall_impl; [exact H|]. intros c [Hf _].
  destruct (Ascii.eqb c "/") eqn:E; [|reflexivity].
  apply Ascii.eqb_eq in E. subst c. discriminate Hf.
Qed.

(** The file name is the suggested name, with [.pdf] appended when the
    path under the download directory does not end in it; a suggested name
    that is a single dot leaves the directory's own name to be suffixed. *)
Lemma dest_name_cases (pdf_url title : str) :
  let name := AppendOnly.choose_name_for_pdf L pdf_url title in
  (name = ("." : str)
   /\ AppendOnly.dest_name L pdf_url title = ("pdfs.pdf" : str))
  \/ (name <> ("." : str)
      /\ AppendOnly.dest_name L pdf_url title
         = if endswith (lower (AppendOnly.PDF_DIR ++ "/" ++ name)) ".pdf"
           then name else name ++ ".pdf").
Proof.
  cbv zeta. unfold AppendOnly.dest_name, AppendOnly.dest_path.
  pose proof (sanitized_no_slash _ (choose_name_sanitized pdf_url title)) as Hn.
  set (name := AppendOnly.choose_name_for_pdf L pdf_url title) in *.
  unfold AppendOnly.path_in_pdf_dir.
  destruct (str_eqb name ".") eqn:E.
  - left. apply str_eqb_eq in E. rewrite E. split; reflexivity.
  - right. split; [intros H; rewrite H in E; discriminate E|].
    destruct (endswith (lower (AppendOnly.PDF_DIR ++ "/" ++ name)) ".pdf").
    + change (basename (AppendOnly.PDF_DIR ++ "/" ++ name))
        with (basename_from [] name).
      apply (basename_from_no_slash []), Hn.
    + change (basename ((AppendOnly.PDF_DIR ++ "/" ++ name) ++ ".pdf"))
        with (basename_from [] (name ++ ".pdf")).
      apply (basename_from_no_slash []), Forall_app. split; [exact Hn|].
      repeat constructor.
Qed.

(** A path under the download directory that ends in [.pdf] has a file
    name that ends in [.pdf]: the directory part brings no dot. *)
Lemma path_suffix (name : str) :
  endswith (lower (AppendOnly.PDF_DIR ++ "/" ++ name)) ".pdf" = true ->
  endswith (lower name) ".pdf" = true.
Proof.
  intros H. destruct (le_lt_dec 4 (length name)) as [Hlen|Hlen].
  - rewrite app_assoc, lower_app in H.
    rewrite endswith_app_long in H; [exact H|].
    rewrite lower_length. exact Hlen.
  - destruct name as [|a [|b [|c [|d name]]]];
      [vm_compute in H; discriminate H ..|simpl in Hlen; lia].
Qed.

Lemma dest_name_sanitized (pdf_url title : str) :
  Forall sanitized (AppendOnly.dest_name L pdf_url title).
Proof.
  destruct (dest_name_cases pdf_url title) as [[_ ->]|[_ ->]].
  - repeat constructor; discriminate.
  - destruct (endswith _ _); [apply choose_name_sanitized|].
    apply Forall_app. split;
      [apply choose_name_sanitized | apply pdf_suffix_sanitized].
Qed.

Lemma dest_name_suffix (pdf_url title : str) :
  endswith (lower (AppendOnly.dest_name L pdf_url title)) ".pdf" = true.
Proof.
  destruct (dest_name_cases pdf_url title) as [[_ ->]|[_ ->]];
    [reflexivity|].
  destruct (endswith (lower (AppendOnly.PDF_DIR ++ "/" ++ _)) ".pdf") eqn:E;
    [apply path_suffix, E|].
  rewrite lower_app. apply endswith_app.
Qed.

Lemma dest_name_length (pdf_url title : str) :
  length (AppendOnly.dest_name L pdf_url title) <= 184.
Proof.
  destruct (dest_name_cases pdf_url title) as [[_ ->]|[_ ->]];
    [simpl; lia|].
  unfold AppendOnly.choose_name_for_pdf.
  destruct (_ && _).
  - set (name := AppendOnly.safe_filename _ _).
    assert (length name <= 180).
    { apply append_safe_filename_length, append_safe_filename_length.
      simpl. lia. }
    destruct (endswith _ _); [lia|].
    rewrite length_app. simpl. lia.
  - set (base := AppendOnly.safe_filename _ _).
    assert (Hb : length base <= 180)
      by (apply append_safe_filename_length; simpl; lia).
    assert (E : endswith (lower (AppendOnly.PDF_DIR ++ "/" ++ base ++ ".pdf"))
                  ".pdf" = true).
    { rewrite !app_assoc, lower_app. apply endswith_app. }
    rewrite E, length_app. simpl. lia.
Qed.

End WithLib.

End FileNames.

(** C6 (amended). For every title (and fallback, and resolved address) the
    derived local file name holds none of the characters slash, backslash,
    colon, star, question mark, double quote, angle brackets, vertical bar,
    LF or CR; it is at most 154 characters long in the snapshot-merge
    variant (a base of at most 150 plus the suffix) and at most 184 in the
    append-only variant (a base of at most 180 plus the suffix); and it ends
    in [.pdf] when compared in lower case, which is the comparison the code
    makes. *)
Theorem C6_filename_safety (L : Lib) (title fallback pdf_url : str) :
  let f := SnapshotMerge.safe_filename title fallback in
  let g := AppendOnly.dest_name L pdf_url title in
  (Forall allowed f /\ length f <= 154
   /\ endswith (lower f) ".pdf" = true)
  /\ (Forall allowed g /\ length g <= 184
      /\ endswith (lower g) ".pdf" = true).
Proof.
  cbv zeta. repeat split.
  - eapply Forall_impl; [apply snapshot_safe_filename_sanitized|].
    apply sanitized_allowed.
  - apply snapshot_safe_filename_length.
  - apply snapshot_safe_filename_suffix.
  - eapply Forall_impl; [apply dest_name_sanitized|].
    apply sanitized_allowed.
  - apply dest_name_length.
  - apply dest_name_suffix.
Qed.

(** C6 as stated fails: a title that ends in upper-case [.PDF] keeps that
    ending, so the name does not end in [.pdf]; and in the append-only
    variant a long title under an address without a dotted file name gives
    a name of 184 characters, above 180. *)
Lemma C6_counterexample :
  SnapshotMerge.safe_filename "NOTICE.PDF" "document" = ("NOTICE.PDF" : str)
  /\ endswith (SnapshotMerge.safe_filename "NOTICE.PDF" "document") ".pdf"
     = false
  /\ length (AppendOnly.dest_name Sample.lib
               "https://www.sebi.gov.in/download?name=a.pdf"
               (repeat "a"%char 200)) = 184.
Proof. vm_compute. repeat split. Qed.

(** * Listing extraction (C3, C4) *)

Section Listing.
Variable L : Lib.

(** The structured tier of the snapshot-merge variant keeps the rows it can
    read whose title is not empty. *)
Lemma snapshot_table_rows_filter (trs : list Tr) :
  SnapshotMerge.table_rows L trs =
  List.filter (fun e => nonempty (e_title e)) (omap (read_table_row L) trs).
Proof.
  induction trs as [|r trs IH]; [reflexivity|].
  cbn [SnapshotMerge.table_rows omap list_omap].
  destruct (read_table_row L r) as [e|]; [|exact IH].
  cbn [List.filter]. destruct (nonempty (e_title e)); [f_equal|]; exact IH.
Qed.

(** The structured tier of the append-only variant keeps the rows it can
    read whose title or date is not empty. *)
Lemma append_table_rows_filter (trs : list Tr) :
  AppendOnly.table_rows L trs =
  List.filter (fun e => nonempty (e_title e) || nonempty (e_date e))
              (omap (read_table_row L) trs).
Proof.
  induction trs as [|r trs IH]; [reflexivity|].
  cbn [AppendOnly.table_rows omap list_omap].
  destruct (read_table_row L r) as [e|]; [|exact IH].
  cbn [List.filter].
  destruct (nonempty (e_title e) || nonempty (e_date e)); [f_equal|]; exact IH.
Qed.

Lemma nonempty_true (s : str) : nonempty s = true <-> s <> [].
Proof. destruct s; simpl; split; congruence. Qed.

Lemma fallback_loop_titles (seen : gset (str * str)) (anchors : list Anchor) :
  Forall (fun e => e_title e <> []) (fallback_loop L seen anchors).
Proof.
  revert seen. induction anchors as [|a anchors IH]; intros seen; simpl;
    [constructor|].
  destruct (nonempty (normalize_text (a_inner_text a))) eqn:E; simpl;
    [|apply IH].
  destruct (bool_decide _); simpl; [apply IH|].
  constructor; [|apply IH]. simpl. apply nonempty_true, E.
Qed.

(** In the append-only variant the fallback tier runs exactly when the
    structured tier gives nothing. *)
Lemma append_listing_entries_tiers (page : ListingPage) :
  (AppendOnly.extract_entries_from_table L page = []
   /\ AppendOnly.listing_entries L page
      = AppendOnly.fallback_extract_entries L page)
  \/ (AppendOnly.extract_entries_from_table L page <> []
      /\ AppendOnly.listing_entries L page
         = AppendOnly.extract_entries_from_table L page).
Proof.
  unfold AppendOnly.listing_entries.
  destruct (AppendOnly.extract_entries_from_table L page);
    [left | right]; split; congruence.
Qed.

(** In the snapshot-merge variant the fallback tier runs exactly when the
    page has no table, whatever the table gives. *)
Lemma snapshot_listing_tiers (page : ListingPage) :
  SnapshotMerge.extract_entries_from_listing L page =
  match lp_table page with
  | Some table =>
      SnapshotMerge.table_rows L (list_or (tbody_trs table) (all_trs table))
  | None => fallback_loop L ∅ (lp_content_anchors page)
  end.
Proof. reflexivity. Qed.

End Listing.

(** C3 at the failing input. On a listing whose table has no data row and
    whose content area holds a hyperlink, the structured tier of both
    variants gives nothing; the append-only variant then runs the fallback
    tier and finds the entry, the snapshot-merge variant returns the empty
    list without running it. *)
Theorem C3_fallback_after_empty_table (L : Lib) :
  SnapshotMerge.extract_entries_from_listing L Sample.heading_only_listing = []
  /\ AppendOnly.extract_entries_from_table L Sample.heading_only_listing = []
  /\ AppendOnly.listing_entries L Sample.heading_only_listing
     = fallback_loop L ∅ (lp_content_anchors Sample.heading_only_listing)
  /\ length (fallback_loop L ∅
               (lp_content_anchors Sample.heading_only_listing)) = 1.
Proof.
  repeat split.
Qed.

(** C4 (amended). The structured tier of the snapshot-merge variant emits
    exactly the readable rows with a title, so no candidate of that variant
    has an empty title; the structured tier of the append-only variant
    emits exactly the readable rows with a title or a date, so every
    candidate it emits has a title or a date. *)
Theorem C4_structured_tier_rows (L : Lib) (page : ListingPage) (trs : list Tr) :
  SnapshotMerge.table_rows L trs
  = List.filter (fun e => nonempty (e_title e)) (omap (read_table_row L) trs)
  /\ AppendOnly.table_rows L trs
     = List.filter (fun e => nonempty (e_title e) || nonempty (e_date e))
                   (omap (read_table_row L) trs)
  /\ Forall (fun e => e_title e <> [])
            (SnapshotMerge.extract_entries_from_listing L page)
  /\ Forall (fun e => e_title e <> [] \/ e_date e <> [])
            (AppendOnly.extract_entries_from_table L page).
Proof.
  split; [apply snapshot_table_rows_filter|].
  split; [apply append_table_rows_filter|].
  split.
  - unfold SnapshotMerge.extract_entries_from_listing.
    destruct (lp_table page) as [table|]; [|apply fallback_loop_titles].
    rewrite snapshot_table_rows_filter. apply List.Forall_forall.
    intros e He. apply filter_In in He as [_ He]. apply nonempty_true, He.
  - unfold AppendOnly.extract_entries_from_table.
    destruct (lp_table page) as [table|]; [|constructor].
    rewrite append_table_rows_filter. apply List.Forall_forall.
    intros e He. apply filter_In in He as [_ He].
    apply orb_true_iff in He as [He|He]; [left|right]; apply nonempty_true, He.
Qed.

(** C4 as stated fails in the append-only variant: a table row with a date
    cell and no title is emitted, with an empty title. *)
Lemma C4_counterexample :
  AppendOnly.extract_entries_from_table Sample.lib Sample.dated_row_listing
  = [ {| e_date := "Jan 01, 2024"; e_title := []; e_link := [] |} ].
Proof. reflexivity. Qed.

(** * Document resolution in the append-only variant (C5) *)

Section Resolution.
Import AppendOnly AppendOnlyRun.
Variable L : Lib.

Lemma truthy_cons (u : str) : u <> [] -> truthy (Some u) = Some u.
Proof. destruct u; [congruence | reflexivity]. Qed.

(** When [find_pdf_url_on_page] finds nothing and the anchor heuristic
    finds an address, that address is the result: the frames are not
    looked at. *)
Lemma resolve_block_anchor (p : Page) (u : str) :
  find_pdf_url_on_page L p = Ok None ->
  anchor_heuristic L p (query_selector_all p "a") = Ok (Some u) ->
  u <> [] ->
  pdf_url (snd (resolve_block L p init_locals)) = Some u.
Proof.
  intros Hfind Hanchor Hu.
  unfold resolve_block, bind, lift, read, set_pdf_url, ret.
  rewrite Hfind. cbn -[list_ascii_of_string]. rewrite Hanchor.
  cbn -[truthy]. rewrite (truthy_cons u Hu). reflexivity.
Qed.

(** When both find nothing, the result is what the frames give. *)
Lemma resolve_block_frames (p : Page) :
  find_pdf_url_on_page L p = Ok None ->
  anchor_heuristic L p (query_selector_all p "a") = Ok None ->
  pdf_url (snd (resolve_block L p init_locals))
  = check_frames L (page_frames p).
Proof.
  intros Hfind Hanchor.
  unfold resolve_block, bind, lift, read, set_pdf_url, ret.
  rewrite Hfind. cbn -[list_ascii_of_string]. rewrite Hanchor. cbn.
  destruct (check_frames L (page_frames p)); reflexivity.
Qed.

End Resolution.

(** C5 (amended). In the download-capable variant, when the selector, the
    attribute and the viewer-parameter tiers all fail on a detail page, the
    anchor heuristic is consulted first: an address it finds is the result
    whatever the frames hold, and the frames are consulted only after the
    anchor heuristic yields nothing. *)
Theorem C5_anchor_heuristic_then_frames (L : Lib) (p : Page) :
  AppendOnly.find_pdf_url_on_page L p = Ok None ->
  (forall u : str,
      AppendOnlyRun.anchor_heuristic L p (query_selector_all p "a")
      = Ok (Some u) ->
      u <> [] ->
      AppendOnlyRun.pdf_url
        (snd (AppendOnlyRun.resolve_block L p AppendOnlyRun.init_locals))
      = Some u)
  /\ (AppendOnlyRun.anchor_heuristic L p (query_selector_all p "a") = Ok None ->
      AppendOnlyRun.pdf_url
        (snd (AppendOnlyRun.resolve_block L p AppendOnlyRun.init_locals))
      = AppendOnlyRun.check_frames L (page_frames p)).
Proof.
  intros Hfind. split.
  - intros u Hanchor Hu. apply resolve_block_anchor; assumption.
  - intros Hanchor. apply resolve_block_frames; assumption.
Qed.

(** C5 at two pages: on the page that is still rendering the hyperlink is
    the result although a frame shows a document; on the page without
    hyperlinks the frame's address is. *)
Lemma C5_witness :
  AppendOnlyRun.pdf_url
    (snd (AppendOnlyRun.resolve_block Sample.lib Sample.rendering_page
            AppendOnlyRun.init_locals))
  = Some ("https://www.sebi.gov.in/sebi_data/attachdocs/a.pdf" : str)
  /\ AppendOnlyRun.pdf_url
       (snd (AppendOnlyRun.resolve_block Sample.lib Sample.framed_page
               AppendOnlyRun.init_locals))
     = Some ("https://www.sebi.gov.in/web/viewer/frame.pdf" : str).
Proof.
  split.
  - apply (proj1 (C5_anchor_heuristic_then_frames Sample.lib
                    Sample.rendering_page eq_refl)).
    + reflexivity.
    + discriminate.
  - rewrite (proj2 (C5_anchor_heuristic_then_frames Sample.lib
                      Sample.framed_page eq_refl) eq_refl).
    reflexivity.
Defined.

(** C5 as stated fails: on the page that is still rendering the first
    three tiers fail and the frames hold a document, yet the address that
    results is the hyperlink's, found by the anchor heuristic. *)
Lemma C5_counterexample :
  AppendOnly.find_pdf_url_on_page Sample.lib Sample.rendering_page = Ok None
  /\ AppendOnlyRun.check_frames Sample.lib (page_frames Sample.rendering_page)
     = Some ("https://www.sebi.gov.in/web/viewer/frame.pdf" : str)
  /\ AppendOnlyRun.pdf_url
       (snd (AppendOnlyRun.resolve_block Sample.lib Sample.rendering_page
               AppendOnlyRun.init_locals))
     = Some ("https://www.sebi.gov.in/sebi_data/attachdocs/a.pdf" : str).
Proof. vm_compute. repeat split. Qed.

(** * The loop of the append-only variant (C1, C7, C10) *)

Section AppendOnlyLoop.
Import AppendOnly AppendOnlyRun.
Variable L : Lib.
Variable w : World.

Lemma keeps_ret {A} (a : A) : keeps (ret a).
Proof. intros l. repeat split. Qed.

Lemma keeps_lift {A} (r : res A) : keeps (lift r).
Proof. intros l. repeat split. Qed.

Lemma keeps_read : keeps read.
Proof. intros l. repeat split. Qed.

Lemma keeps_set_pdf_url (v : option str) : keeps (set_pdf_url v).
Proof. intros l. repeat split. Qed.

Lemma keeps_bind {A B} (m : M A) (k : A -> M B) :
  keeps m -> (forall a, keeps (k a)) -> keeps (bind m k).
Proof.
  intros Hm Hk l. unfold bind. specialize (Hm l).
  destruct (m l) as [[a|ex] l1]; cbn in Hm |- *; [|exact Hm].
  specialize (Hk a l1). destruct Hm as (H1 & H2 & H3).
  destruct Hk as (K1 & K2 & K3). repeat split; congruence.
Qed.

(** A block that raises at once does not run what follows it. *)
Lemma keeps_raise {A B} (ex : exn) (k : A -> M B) :
  keeps (bind (lift (Raise ex)) k).
Proof. intros l. repeat split. Qed.

Lemma resolve_block_keeps (p : Page) : keeps (resolve_block L p).
Proof.
  unfold resolve_block.
  apply keeps_bind; [apply keeps_lift|]. intros found.
  apply keeps_bind; [apply keeps_set_pdf_url|]. intros _.
  apply keeps_bind; [apply keeps_read|]. intros l.
  apply keeps_bind.
  - destruct (truthy (pdf_url l)); [apply keeps_ret|].
    apply keeps_bind; [apply keeps_lift|]. intros [u|];
      [apply keeps_set_pdf_url | apply keeps_ret].
  - intros _. apply keeps_bind; [apply keeps_read|]. intros l'.
    destruct (truthy (pdf_url l')); [apply keeps_ret|].
    destruct (check_frames L (page_frames p));
      [apply keeps_set_pdf_url | apply keeps_ret].
Qed.

(** The [try] block never completes a download: when an address was found,
    the call of [log] with two arguments raises [TypeError] before the
    download is tried. *)
Lemma try_block_keeps (idx : nat) (link title_raw : str) :
  keeps (try_block L w idx link title_raw).
Proof.
  unfold try_block.
  apply keeps_bind; [apply keeps_lift|]. intros p.
  apply keeps_bind; [apply resolve_block_keeps|]. intros _.
  apply keeps_bind; [apply keeps_read|]. intros l.
  destruct (truthy (pdf_url l)) as [u|]; [|apply keeps_lift].
  apply keeps_bind; [apply keeps_set_pdf_url|]. intros _.
  apply keeps_raise.
Qed.

Lemma try_block_init (idx : nat) (link title_raw : str) :
  let l := snd (try_block L w idx link title_raw init_locals) in
  downloaded l = false /\ pdf_file l = [] /\ saved l = [].
Proof. apply (try_block_keeps idx link title_raw init_locals). Qed.


(** The fields of the appended row. *)
Lemma row_of_fields (e : Entry) (title_raw : str) (l : Locals) :
  get (row_of e title_raw l) "title" = title_raw
  /\ get (row_of e title_raw l) "pdf_link" = or_empty (pdf_url l)
  /\ get (row_of e title_raw l) "pdf_filename" = pdf_file l
  /\ get (row_of e title_raw l) "pdf_downloaded"
     = if downloaded l then ("yes" : str) else ("no" : str).
Proof. repeat split. Qed.

Lemma candidate_row_fields (idx : nat) (e : Entry) :
  get (candidate_row L w idx e) "title" = title_raw_of idx e
  /\ get (candidate_row L w idx e) "pdf_downloaded" = ("no" : str)
  /\ get (candidate_row L w idx e) "pdf_filename" = [].
Proof.
  unfold candidate_row, candidate_locals.
  destruct (try_block_init idx (e_link e) (title_raw_of idx e))
    as (Hd & Hf & _).
  destruct (row_of_fields e (title_raw_of idx e)
              (snd (try_block L w idx (e_link e) (title_raw_of idx e)
                      init_locals))) as (Ht & _ & Hn & Hdl).
  rewrite Ht, Hn, Hdl, Hd, Hf. repeat split.
Qed.

(** One iteration, by cases: the candidate is skipped, or its row is built
    and the append is tried. *)
Lemma process_entry_cases (idx : nat) (st : RunState) (e : Entry) :
  let key := title_key_of (title_raw_of idx e) in
  let row := candidate_row L w idx e in
  let st' := process_entry L w idx st e in
  (key ∈ existing_titles st /\ st' = st)
  \/ ((key ∉ existing_titles st)
      /\ (((exists ex, csv_writerow w idx = Raise ex)
           /\ existing_titles st' = existing_titles st
           /\ added st' = added st
           /\ written st' = written st
           /\ appended st' = appended st)
          \/ (csv_writerow w idx = Ok tt
              /\ (exists ex, csv_flush w idx = Raise ex)
              /\ existing_titles st' = existing_titles st
              /\ added st' = added st
              /\ written st' = written st ++ [row]
              /\ appended st' = appended st)
          \/ (csv_writerow w idx = Ok tt
              /\ csv_flush w idx = Ok tt
              /\ existing_titles st' = {[ key ]} ∪ existing_titles st
              /\ added st' = added st + 1
              /\ written st' = written st ++ [row]
              /\ appended st' = appended st ++ [row]))).
Proof.
  cbv zeta. unfold process_entry.
  destruct (bool_decide _) eqn:E.
  - left. apply bool_decide_eq_true in E. auto.
  - right. apply bool_decide_eq_false in E. split; [exact E|].
    destruct (csv_writerow w idx) as [[]|ex].
    + destruct (csv_flush w idx) as [[]|ex].
      * right. right. unfold candidate_row. cbn. auto 10.
      * right. left. unfold candidate_row. cbn. eauto 10.
    + left. cbn. eauto 10.
Qed.

Lemma process_entry_tracks (T0 : gset str) idx st e :
  tracks T0 st -> tracks T0 (process_entry L w idx st e).
Proof.
  intros [HT Ha].
  destruct (process_entry_cases idx st e) as [[_ ->]|[_ H]]; [split; assumption|].
  destruct H as [(_ & H1 & H2 & _ & H4)|[(_ & _ & H1 & H2 & _ & H4)
                                        |(_ & _ & H1 & H2 & _ & H4)]].
  - unfold tracks. rewrite H1, H2, H4. split; assumption.
  - unfold tracks. rewrite H1, H2, H4. split; assumption.
  - unfold tracks. rewrite H1, H2, H4. split.
    + rewrite map_app, list_to_set_app_L, HT. cbn [map list_to_set].
      destruct (candidate_row_fields idx e) as (-> & _).
      set_solver.
    + rewrite length_app. simpl. lia.
Qed.

Lemma process_entries_tracks (T0 : gset str) entries idx st :
  tracks T0 st -> tracks T0 (process_entries L w idx st entries).
Proof.
  revert idx st. induction entries as [|e entries IH]; intros idx st H;
    [exact H|].
  simpl. apply IH, process_entry_tracks, H.
Qed.

Lemma init_state_tracks : tracks (read_existing_titles w) (init_state w).
Proof. split; [cbn; set_solver | reflexivity]. Qed.

Lemma main_tracks : tracks (read_existing_titles w) (main L w).
Proof.
  unfold main.
  destruct (listing_entries L (listing w)); [exact init_state_tracks|].
  destruct (open_append w); [|exact init_state_tracks].
  apply process_entries_tracks, init_state_tracks.
Qed.



End AppendOnlyLoop.

(** * The loop of the snapshot-merge variant (C1, C7, C8) *)

Section SnapshotLoop.
Import SnapshotMerge SnapshotMergeRun.
Variable L : Lib.
Variable w : World.



(** One iteration, by cases: the candidate is skipped, or exactly one row
    is added to the catalog in memory and to the new entries. *)
Lemma snapshot_process_entry_cases (n : nat) (st : LoopState) (e : Entry) :
  let key := title_key_of (e_title e) in
  let st' := process_entry L w n st e in
  (key ∈ existing_titles st /\ st' = st)
  \/ ((key ∉ existing_titles st)
      /\ existing_titles st' = {[ key ]} ∪ existing_titles st
      /\ new_master st' = new_master st ++ [new_row L w n e]
      /\ new_entries st' = new_entries st ++ [new_row L w n e]
      /\ trace st' = trace st ++ [Goto (e_link e)]).
Proof.
  cbv zeta. unfold process_entry.
  destruct (bool_decide _) eqn:E.
  - left. apply bool_decide_eq_true in E. auto.
  - right. apply bool_decide_eq_false in E. cbn. auto.
Qed.

(** The loop only adds: the catalog in memory and the new entries grow by
    the same rows, each built by [new_row]; the trace grows by page loads
    only. *)
Lemma process_entries_grows (entries : list Entry) (n : nat) (st : LoopState) :
  exists (rows : list (gmap str str)) (links : list str),
    new_master (process_entries L w n st entries) = new_master st ++ rows
    /\ new_entries (process_entries L w n st entries) = new_entries st ++ rows
    /\ trace (process_entries L w n st entries) = trace st ++ map Goto links
    /\ Forall (fun r => exists n e, r = new_row L w n e) rows.
Proof.
  revert n st. induction entries as [|e entries IH]; intros n st.
  - exists [], []. cbn. rewrite !app_nil_r. auto.
  - cbn [process_entries].
    destruct (IH (S n) (process_entry L w n st e))
      as (rows & links & Hm & He & Ht & Hr).
    destruct (snapshot_process_entry_cases n st e)
      as [[_ Hs]|(_ & _ & Hm1 & He1 & Ht1)].
    + rewrite Hs in *. exists rows, links. auto.
    + exists (new_row L w n e :: rows), (e_link e :: links).
      rewrite Hm, He, Ht, Hm1, He1, Ht1, <- !app_assoc. cbn.
      repeat split. constructor; [eauto|exact Hr].
Qed.

(** The shape of a run that returns: it found no entry and did nothing but
    load the listing, or it loaded the catalog, grew it in memory by the
    rows of the new candidates, and then wrote the two files. *)
Lemma main_shape (fs : gmap str str) (run : Run) :
  main L w fs = Ok run ->
  exists (rows : list (gmap str str)) (links : list str),
    new_master (final run) = master_rows run ++ rows
    /\ new_entries (final run) = rows
    /\ trace (final run) = Goto BASE_URL :: map Goto links
    /\ Forall (fun r => exists n e, r = new_row L w n e) rows
    /\ ((master_rows run = [] /\ rows = []
         /\ effects run = trace (final run))
        \/ (load_master_csv fs MASTER_CSV = Ok (master_rows run)
            /\ effects run
               = trace (final run)
                 ++ write_csv MASTER_CSV (new_master (final run))
                 ++ write_json L NEW_JSON (new_entries (final run)))).
Proof.
  unfold main.
  destruct (extract_entries_from_listing L (listing w)) as [|e0 es].
  - intros [= <-]. exists [], []. cbn. auto 10.
  - set (entries := firstn NUM_ENTRIES (e0 :: es)). clearbody entries.
    destruct (load_master_csv fs MASTER_CSV) as [rows0|ex] eqn:Eload;
      unfold res_bind; [|discriminate].
    set (st0 := {| existing_titles := titles_of rows0 ∅;
                   new_master := rows0; new_entries := [];
                   trace := [Goto BASE_URL] |}).
    destruct (process_entries_grows entries 0 st0)
      as (rows & links & Hm & He & Ht & Hr).
    intros H.
    assert (Hrun : run = _)
      by (symmetry; exact (f_equal (fun r => match r with
                                             | Ok x => x
                                             | Raise _ => run
                                             end) H)).
    clear H. subst run. unfold final, master_rows, effects.
    exists rows, links. unfold st0 in Hm, He, Ht at 2.
    unfold new_master at 2 in Hm. unfold new_entries at 2 in He.
    unfold trace at 2 in Ht.
    split; [exact Hm|]. split; [exact He|]. split; [exact Ht|].
    split; [exact Hr|]. right. split; reflexivity.
Qed.

(** The effects of a run that returns, by what the listing showed: the
    page loads alone when no entry was found, and otherwise the page loads
    followed by the two rewrites. *)
Lemma main_effects (fs : gmap str str) (run : Run) :
  main L w fs = Ok run ->
  match extract_entries_from_listing L (listing w) with
  | [] => effects run = trace (final run)
  | _ :: _ =>
      effects run
      = trace (final run)
        ++ write_csv MASTER_CSV (new_master (final run))
        ++ write_json L NEW_JSON (new_entries (final run))
  end.
Proof.
  unfold main.
  destruct (extract_entries_from_listing L (listing w)) as [|e0 es].
  - intros [= <-]. reflexivity.
  - destruct (load_master_csv fs MASTER_CSV) as [rows0|ex];
      unfold res_bind; [|discriminate].
    intros H.
    assert (Hrun : run = _)
      by (symmetry; exact (f_equal (fun r => match r with
                                             | Ok x => x
                                             | Raise _ => run
                                             end) H)).
    rewrite Hrun. reflexivity.
Qed.

End SnapshotLoop.

(** * Claims about the two loops *)




(** When [flush] raises after [writerow] returned, the row has been handed
    to the catalog file although its key is not in the dedup set: a listing
    that shows the title twice has it handed over twice. *)
Example flush_failure_repeats_row :
  let w := Sample.ao_world [Sample.circular_a; Sample.circular_a] None
                           (Ok Sample.embed_page)
                           (Ok tt) (Raise OtherException) in
  map (fun r => get r "title")
      (AppendOnlyRun.written (AppendOnlyRun.main Sample.lib w))
  = [ "Circular A" : str; "Circular A" : str ]
  /\ AppendOnlyRun.appended (AppendOnlyRun.main Sample.lib w) = []
  /\ AppendOnlyRun.added (AppendOnlyRun.main Sample.lib w) = 0.
Proof. vm_compute. repeat split. Qed.



(** C10. In the append-only variant, after any number of candidates of a
    run (and so at its end) the dedup set is the set loaded at start plus
    the keys of the rows whose write and flush both returned, and the
    counter counts those rows; an iteration whose append raises leaves set,
    counter and appended rows unchanged; and a key enters the set only
    together with its appended row. *)
Theorem C10_dedup_set_follows_appends (L : Lib) (w : AppendOnlyRun.World) :
  (forall k : nat,
      let st := AppendOnlyRun.process_entries L w 1
                  (AppendOnlyRun.init_state w)
                  (firstn k (AppendOnlyRun.candidates L w)) in
      AppendOnlyRun.existing_titles st
      = AppendOnlyRun.read_existing_titles w
        ∪ list_to_set (map (fun r => title_key_of (get r "title"))
                           (AppendOnlyRun.appended st))
      /\ AppendOnlyRun.added st = length (AppendOnlyRun.appended st))
  /\ (AppendOnlyRun.existing_titles (AppendOnlyRun.main L w)
      = AppendOnlyRun.read_existing_titles w
        ∪ list_to_set (map (fun r => title_key_of (get r "title"))
                           (AppendOnlyRun.appended (AppendOnlyRun.main L w)))
      /\ AppendOnlyRun.added (AppendOnlyRun.main L w)
         = length (AppendOnlyRun.appended (AppendOnlyRun.main L w)))
  /\ (forall idx st e,
         let st' := AppendOnlyRun.process_entry L w idx st e in
         (AppendOnlyRun.csv_writerow w idx = Ok tt
          /\ AppendOnlyRun.csv_flush w idx = Ok tt)
         \/ (AppendOnlyRun.existing_titles st'
             = AppendOnlyRun.existing_titles st
             /\ AppendOnlyRun.added st' = AppendOnlyRun.added st
             /\ AppendOnlyRun.appended st' = AppendOnlyRun.appended st))
  /\ (forall idx st e,
         let st' := AppendOnlyRun.process_entry L w idx st e in
         (AppendOnlyRun.existing_titles st'
          = AppendOnlyRun.existing_titles st
          /\ AppendOnlyRun.added st' = AppendOnlyRun.added st
          /\ AppendOnlyRun.appended st' = AppendOnlyRun.appended st)
         \/ (AppendOnlyRun.existing_titles st'
             = {[ title_key_of (AppendOnlyRun.title_raw_of idx e) ]}
               ∪ AppendOnlyRun.existing_titles st
             /\ AppendOnlyRun.added st' = AppendOnlyRun.added st + 1
             /\ AppendOnlyRun.appended st'
                = AppendOnlyRun.appended st
                  ++ [AppendOnlyRun.candidate_row L w idx e]
             /\ AppendOnlyRun.written st'
                = AppendOnlyRun.written st
                  ++ [AppendOnlyRun.candidate_row L w idx e])).
Proof.
  split; [|split; [apply main_tracks|]].
  - intros k. apply (process_entries_tracks L w), init_state_tracks.
  - split; intros idx st e; cbv zeta.
    + destruct (process_entry_cases L w idx st e) as [[_ ->]|(_ & Hc)];
        [right; auto|].
      destruct Hc as [(_ & H1 & H2 & _ & H4)|[(_ & _ & H1 & H2 & _ & H4)
                                            |(Hw & Hf & _)]];
        [right; auto | right; auto | left; auto].
    + destruct (process_entry_cases L w idx st e) as [[_ ->]|(_ & Hc)];
        [left; auto|].
      destruct Hc as [(_ & H1 & H2 & _ & H4)|[(_ & _ & H1 & H2 & _ & H4)
                                            |(_ & _ & H1 & H2 & H3 & H4)]];
        [left; auto | left; auto | right; auto].
Qed.

(** The dedup example of the specification: the catalog holds Circular A,
    the listing shows Circular A and Circular B; each variant records
    Circular B only. *)
Example known_title_is_skipped :
  map (fun r => get r "title")
      (AppendOnlyRun.appended
         (AppendOnlyRun.main Sample.lib
            (Sample.ao_world [Sample.circular_a; Sample.circular_b]
                             (Some [Sample.titled "Circular A"])
                             (Ok Sample.embed_page) (Ok tt) (Ok tt))))
  = [ "Circular B" : str ]
  /\ match SnapshotMergeRun.main Sample.lib
             (Sample.sm_world [Sample.circular_a; Sample.circular_b]
                              (Ok Sample.embed_page))
             Sample.bare_catalog with
     | Ok run =>
         map (fun r => get r "title") (SnapshotMergeRun.new_json run)
         = [ "Circular B" : str ]
     | Raise _ => False
     end.
Proof. vm_compute. repeat split. Qed.

(** C10 on three runs over the same listing: when the append returns, the
    key of the row is in the set and the counter is one; when writing the
    row or flushing it raises, set and counter are as at start. *)
Example C10_runs :
  let run wr fl :=
    AppendOnlyRun.main Sample.lib
      (Sample.ao_world [Sample.circular_a] None (Ok Sample.embed_page) wr fl) in
  (elements (AppendOnlyRun.existing_titles (run (Ok tt) (Ok tt))),
   AppendOnlyRun.added (run (Ok tt) (Ok tt)))
  = ([ "circular a" : str ], 1)
  /\ (elements (AppendOnlyRun.existing_titles
                  (run (Raise OtherException) (Ok tt))),
      AppendOnlyRun.added (run (Raise OtherException) (Ok tt)))
     = ([], 0)
  /\ (elements (AppendOnlyRun.existing_titles
                  (run (Ok tt) (Raise OtherException))),
      AppendOnlyRun.added (run (Ok tt) (Raise OtherException)))
     = ([], 0).
Proof. vm_compute. repeat split. Qed.

(** * The catalog file of the snapshot-merge variant (C2, C8, C9) *)

Section CatalogFile.
Import SnapshotMerge SnapshotMergeRun.

Lemma apply_effects_app (fs : gmap str str) (a b : list Effect) :
  apply_effects fs (a ++ b) = apply_effects (apply_effects fs a) b.
Proof. apply fold_left_app. Qed.

(** Page loads change no file. *)
Lemma apply_effects_gotos (fs : gmap str str) (evs : list Effect) :
  Forall is_goto evs -> apply_effects fs evs = fs.
Proof.
  intros H. revert fs. induction H as [|ev evs Hev _ IH]; intros fs;
    [reflexivity|].
  destruct ev; try contradiction. cbn. apply IH.
Qed.

Lemma map_Goto_gotos (links : list str) : Forall is_goto (map Goto links).
Proof. induction links; constructor; [exact I | assumption]. Qed.

(** Writing to one path leaves the other paths alone. *)
Lemma apply_effects_other (path other : str) (fs : gmap str str)
      (evs : list Effect) :
  other <> path ->
  Forall (fun ev => ev = OpenW path \/ exists d, ev = Write path d) evs ->
  apply_effects fs evs !! other = fs !! other.
Proof.
  intros Hne H. revert fs.
  induction H as [|ev evs Hev _ IH]; intros fs; [reflexivity|].
  change (apply_effects fs (ev :: evs))
    with (apply_effects (apply_effect fs ev) evs).
  rewrite IH.
  destruct Hev as [->|[d ->]]; cbn; apply lookup_insert_ne; congruence.
Qed.

(** After [write_csv] the file holds the text of the rows, with LF line
    ends. *)
Lemma write_csv_result (path : str) (rows : list (gmap str str))
      (fs : gmap str str) :
  apply_effects fs (write_csv path rows) !! path = Some (catalog_text rows).
Proof.
  unfold write_csv.
  change (OpenW path :: map (Write path) (csv_lines rows)
          ++ [OpenW path; Write path (replace_crlf (concat (csv_lines rows)))])
    with ((OpenW path :: map (Write path) (csv_lines rows))
          ++ [OpenW path; Write path (catalog_text rows)]).
  rewrite apply_effects_app. cbn.
  rewrite lookup_insert_eq, lookup_insert_eq. reflexivity.
Qed.

Lemma write_json_effects (L : Lib) (path : str) (rows : list (gmap str str)) :
  Forall (fun ev => ev = OpenW path \/ exists d, ev = Write path d)
         (write_json L path rows).
Proof.
  unfold write_json.
  constructor; [left; reflexivity|].
  constructor; [right; eauto | constructor].
Qed.

(** The fields [write_csv] writes for a row: the row's own, but for
    [pdf_filename], which is sanitized again. *)
Lemma safe_row_fields (r : gmap str str) :
  dict_to_list (safe_row r)
  = [ get r "id"; get r "date"; get r "title"; get r "link";
      get r "pdf_link";
      safe_filename (get r "pdf_filename") "document.pdf";
      get r "pdf_downloaded"; get r "created_at"; get r "source_commit" ].
Proof. reflexivity. Qed.

Lemma dict_to_list_fields (r : gmap str str) :
  dict_to_list r
  = [ get r "id"; get r "date"; get r "title"; get r "link";
      get r "pdf_link"; get r "pdf_filename";
      get r "pdf_downloaded"; get r "created_at"; get r "source_commit" ].
Proof. reflexivity. Qed.

End CatalogFile.

(** C2 at the failing inputs. A first run on an empty directory records one
    entry; a second run against the same listing records it again, because
    the title read back from the catalog is not the title written: the
    writer escapes a backslash with its escape character and the reader,
    which has none, reads both; and the pass that forces LF line ends turns
    a CR LF inside a quoted title into LF. A title without such characters
    is found again and the catalog keeps its one row. *)
Theorem C2_second_run_adds_known_title :
  (fs1 <- fs_after_run Sample.lib Sample.backslash_world ∅ ;;
   catalog_titles fs1)%res
  = Ok [ "Notice A\\B" : str ]
  /\ (fs1 <- fs_after_run Sample.lib Sample.backslash_world ∅ ;;
      fs2 <- fs_after_run Sample.lib Sample.backslash_world fs1 ;;
      catalog_titles fs2)%res
     = Ok [ "Notice A\\\\B" : str; "Notice A\\B" : str ]
  /\ (fs1 <- fs_after_run Sample.lib Sample.crlf_world ∅ ;;
      fs2 <- fs_after_run Sample.lib Sample.crlf_world fs1 ;;
      catalog_titles fs2)%res
     = Ok [ ("Notice" : str) ++ [Csv.LF] ++ ("A" : str);
            ("Notice" : str) ++ [Csv.LF] ++ ("A" : str) ]
  /\ (fs1 <- fs_after_run Sample.lib Sample.plain_world ∅ ;;
      fs2 <- fs_after_run Sample.lib Sample.plain_world fs1 ;;
      catalog_titles fs2)%res
     = Ok [ "Circular A" : str ].
Proof. vm_compute. repeat split. Qed.

(** C8 (amended). In a run of the snapshot-merge variant that returns, the
    rows handed to the catalog writer are the rows loaded at start, in
    order, followed by the rows of the run's new entries; a run whose
    listing shows no entry does nothing but load pages, and any other run
    leaves as the catalog file the text of these rows. For each row the writer gets the
    row's own fields, but for [pdf_filename], which is passed through
    [safe_filename] again: the stored value stays as it is exactly when it
    is a fixed point of [safe_filename]. *)
Theorem C8_catalog_grows (L : Lib) (w : SnapshotMergeRun.World)
        (fs : gmap str str) :
  match SnapshotMergeRun.main L w fs with
  | Raise _ => True
  | Ok run =>
      let loaded := SnapshotMergeRun.master_rows run in
      let new := SnapshotMergeRun.new_entries (SnapshotMergeRun.final run) in
      SnapshotMergeRun.new_master (SnapshotMergeRun.final run) = loaded ++ new
      /\ match SnapshotMerge.extract_entries_from_listing
                 L (SnapshotMergeRun.listing w) with
         | [] =>
             SnapshotMergeRun.effects run
             = SnapshotMergeRun.trace (SnapshotMergeRun.final run)
         | _ :: _ =>
             apply_effects fs (SnapshotMergeRun.effects run)
               !! SnapshotMerge.MASTER_CSV
             = Some (catalog_text (loaded ++ new))
         end
      /\ SnapshotMergeRun.csv_lines (loaded ++ new)
         = Csv.writerow SnapshotMergeRun.headers
           :: map (fun r => Csv.writerow
                              (SnapshotMergeRun.dict_to_list
                                 (SnapshotMergeRun.safe_row r))) loaded
           ++ map (fun r => Csv.writerow
                              (SnapshotMergeRun.dict_to_list
                                 (SnapshotMergeRun.safe_row r))) new
  end
  /\ (forall r : gmap str str,
         SnapshotMergeRun.dict_to_list (SnapshotMergeRun.safe_row r)
         = [ get r "id"; get r "date"; get r "title"; get r "link";
             get r "pdf_link";
             SnapshotMerge.safe_filename (get r "pdf_filename") "document.pdf";
             get r "pdf_downloaded"; get r "created_at";
             get r "source_commit" ])
  /\ (forall r : gmap str str,
         SnapshotMerge.safe_filename (get r "pdf_filename") "document.pdf"
         = get r "pdf_filename"
         <-> SnapshotMergeRun.dict_to_list (SnapshotMergeRun.safe_row r)
             = SnapshotMergeRun.dict_to_list r).
Proof.
  split; [|split].
  - destruct (SnapshotMergeRun.main L w fs) as [run|ex] eqn:E; [|exact I].
    destruct (main_shape L w fs run E)
      as (rows & links & Hm & He & Ht & _ & Hcases).
    pose proof (main_effects L w fs run E) as Heff.
    cbv zeta. rewrite He. split; [exact Hm|]. split.
    + destruct (SnapshotMerge.extract_entries_from_listing
                  L (SnapshotMergeRun.listing w)) as [|e0 es];
        [exact Heff|].
      rewrite Heff, Ht, Hm, He.
      rewrite apply_effects_app, apply_effects_app.
      rewrite (apply_effects_other SnapshotMerge.NEW_JSON);
        [|discriminate|apply write_json_effects].
      apply write_csv_result.
    + unfold SnapshotMergeRun.csv_lines. rewrite map_app. reflexivity.
  - exact safe_row_fields.
  - intros r. rewrite safe_row_fields, dict_to_list_fields. split.
    + intros ->. reflexivity.
    + intros H. injection H. auto.
Qed.

(** C8 as stated fails: a catalog row whose [pdf_filename] is empty is
    rewritten with the name [document.pdf], although the run adds no
    entry. *)
Lemma C8_counterexample :
  catalog_filenames Sample.bare_catalog = Ok [ [] ]
  /\ catalog_titles Sample.bare_catalog = Ok [ "Circular A" : str ]
  /\ (fs1 <- fs_after_run Sample.lib Sample.plain_world Sample.bare_catalog ;;
      catalog_filenames fs1)%res
     = Ok [ "document.pdf" : str ]
  /\ (fs1 <- fs_after_run Sample.lib Sample.plain_world Sample.bare_catalog ;;
      catalog_titles fs1)%res
     = Ok [ "Circular A" : str ].
Proof. vm_compute. repeat split. Qed.

(** C9 (amended). In a run of the snapshot-merge variant that returns, the
    effects start with the page loads of the candidate loop and no file is
    touched before the loop is over: after any number of effects up to the
    end of the loop the file system is as it was at start. A run whose
    listing shows no entry stops there. In any other run the catalog is
    then rewritten in place (opened for writing, which empties it, and
    written line by line, twice), and once all effects are done it holds
    the complete new text. *)
Theorem C9_catalog_written_after_loop (L : Lib) (w : SnapshotMergeRun.World)
        (fs : gmap str str) :
  match SnapshotMergeRun.main L w fs with
  | Raise _ => True
  | Ok run =>
      let loop := SnapshotMergeRun.trace (SnapshotMergeRun.final run) in
      Forall is_goto loop
      /\ (forall k, k <= length loop ->
                    apply_effects fs (firstn k (SnapshotMergeRun.effects run))
                    = fs)
      /\ match SnapshotMerge.extract_entries_from_listing
                 L (SnapshotMergeRun.listing w) with
         | [] => SnapshotMergeRun.effects run = loop
         | _ :: _ =>
             SnapshotMergeRun.effects run
             = loop
               ++ SnapshotMergeRun.write_csv SnapshotMerge.MASTER_CSV
                    (SnapshotMergeRun.new_master (SnapshotMergeRun.final run))
               ++ SnapshotMergeRun.write_json L SnapshotMerge.NEW_JSON
                    (SnapshotMergeRun.new_entries (SnapshotMergeRun.final run))
             /\ apply_effects fs (SnapshotMergeRun.effects run)
                  !! SnapshotMerge.MASTER_CSV
                = Some (catalog_text
                          (SnapshotMergeRun.new_master
                             (SnapshotMergeRun.final run)))
         end
  end.
Proof.
  destruct (SnapshotMergeRun.main L w fs) as [run|ex] eqn:E; [|exact I].
  destruct (main_shape L w fs run E)
    as (rows & links & Hm & He & Ht & _ & Hcases).
  cbv zeta.
  assert (Hloop : Forall is_goto
                    (SnapshotMergeRun.trace (SnapshotMergeRun.final run))).
  { rewrite Ht. constructor; [exact I | apply map_Goto_gotos]. }
  assert (Hpre : exists rest,
             SnapshotMergeRun.effects run
             = SnapshotMergeRun.trace (SnapshotMergeRun.final run) ++ rest).
  { destruct Hcases as [(_ & _ & Heff)|(_ & Heff)].
    - exists []. rewrite app_nil_r. exact Heff.
    - eauto. }
  split; [exact Hloop|]. split.
  - intros k Hk. destruct Hpre as [rest ->].
    rewrite firstn_app.
    replace (k - length _) with 0 by lia.
    rewrite firstn_O, app_nil_r.
    apply apply_effects_gotos, Forall_take, Hloop.
  - pose proof (main_effects L w fs run E) as Heff.
    destruct (SnapshotMerge.extract_entries_from_listing
                L (SnapshotMergeRun.listing w)) as [|e0 es];
      [exact Heff|].
    split; [exact Heff|].
    rewrite Heff, apply_effects_app, apply_effects_app.
      rewrite (apply_effects_other SnapshotMerge.NEW_JSON);
        [|discriminate|apply write_json_effects].
      apply write_csv_result.
Qed.

(** C9 as stated fails: the rewrite is not atomic. In a run on a catalog
    that already holds the listing's entry, the second effect opens the
    catalog for writing; a crash at that point leaves an empty file, which
    is neither the catalog as it was nor the complete new one. *)
Lemma C9_counterexample :
  match SnapshotMergeRun.main Sample.lib Sample.plain_world
                              Sample.bare_catalog with
  | Raise _ => False
  | Ok run =>
      let crashed :=
        apply_effects Sample.bare_catalog
                      (firstn 2 (SnapshotMergeRun.effects run))
        !! SnapshotMerge.MASTER_CSV in
      crashed = Some []
      /\ Sample.bare_catalog !! SnapshotMerge.MASTER_CSV <> crashed
      /\ apply_effects Sample.bare_catalog (SnapshotMergeRun.effects run)
         !! SnapshotMerge.MASTER_CSV <> crashed
  end.
Proof. vm_compute. repeat split; discriminate. Qed.

(** * Further properties of the two programs *)

(** * The catalog dialect: what is written, and what is read back *)

Section CsvRoundTrip.
Import Csv.

Lemma process_chars_app (r : Reader) (s t : str) :
  process_chars r (s ++ t)
  = (r' <- process_chars r s ;; process_chars r' t)%res.
Proof.
  revert r. induction s as [|c s IH]; intros r; [reflexivity|].
  cbn [app process_chars]. destruct (process_char r c) as [r'|ex];
    cbn [res_bind]; [apply IH | reflexivity].
Qed.

Lemma process_line_chars (r : Reader) (s : str) :
  process_line r s = (r' <- process_chars r s ;; Ok (process_eol r'))%res.
Proof.
  revert r. induction s as [|c s IH]; intros r; [reflexivity|].
  cbn [process_line process_chars]. destruct (process_char r c) as [r'|ex];
    cbn [res_bind]; [apply IH | reflexivity].
Qed.

(** Below the size limit the reader takes one more character. *)
Lemma room_S (n : nat) : room (S n) -> N.leb field_limit (N.of_nat n) = false.
Proof.
  unfold room, field_limit. intros H. apply N.leb_le in H. apply N.leb_gt.
  lia.
Qed.

Lemma room_le (n m : nat) : room n -> m <= n -> room m.
Proof.
  unfold room. intros H Hm. apply N.leb_le in H. apply N.leb_le. lia.
Qed.

Lemma room_small (n : nat) : n <= 154 -> room n.
Proof.
  unfold room, field_limit. intros H. apply N.leb_le. lia.
Qed.

Lemma add_char (s : ParserState) (F : list str) (acc : str) (c : ascii)
      (next : ParserState) :
  room (S (length acc)) ->
  parse_add_char {| state := s; fields := F; field := acc |} c next
  = Ok {| state := next; fields := F; field := c :: acc |}.
Proof.
  intros H. unfold parse_add_char. cbn [field fields].
  rewrite (room_S _ H). reflexivity.
Qed.

Lemma quoted_char (F : list str) (acc : str) (c : ascii) :
  Ascii.eqb c quotechar = false -> room (S (length acc)) ->
  process_char {| state := IN_QUOTED_FIELD; fields := F; field := acc |} c
  = Ok {| state := IN_QUOTED_FIELD; fields := F; field := c :: acc |}.
Proof.
  intros Hq H. unfold process_char. cbn [state]. rewrite Hq.
  apply add_char, H.
Qed.

Lemma doubled_quote (F : list str) (acc s : str) :
  room (S (length acc)) ->
  process_chars {| state := IN_QUOTED_FIELD; fields := F; field := acc |}
                (quotechar :: quotechar :: s)
  = process_chars {| state := IN_QUOTED_FIELD; fields := F;
                     field := quotechar :: acc |} s.
Proof.
  intros H. cbn [process_chars].
  unfold process_char at 1. cbn [state]. rewrite Ascii.eqb_refl.
  cbn [res_bind]. unfold set_state. cbn [fields field].
  unfold process_char at 1. cbn [state]. rewrite Ascii.eqb_refl.
  rewrite (add_char _ _ _ _ _ H). reflexivity.
Qed.

Lemma in_field_char (F : list str) (acc : str) (c : ascii) :
  is_crlf c = false -> Ascii.eqb c delimiter = false ->
  room (S (length acc)) ->
  process_char {| state := IN_FIELD; fields := F; field := acc |} c
  = Ok {| state := IN_FIELD; fields := F; field := c :: acc |}.
Proof.
  intros Hnl Hd H. unfold process_char. cbn [state]. rewrite Hnl, Hd.
  apply add_char, H.
Qed.

(** The writer, in closed form: it copies the field with quotes and escape
    characters doubled, and quotes it when it holds a quote, a delimiter or
    a line break. *)
Lemma join_append_data_spec (f : str) :
  join_append_data f = (escaped f, existsb needs_quotes f).
Proof.
  induction f as [|c f IH]; [reflexivity|].
  cbn [join_append_data escaped existsb]. rewrite IH.
  unfold needs_quotes, is_crlf.
  destruct (Ascii.eqb c quotechar) eqn:Eq; [reflexivity|].
  destruct (Ascii.eqb c escapechar) eqn:Ee.
  - apply Ascii.eqb_eq in Ee. subst c. reflexivity.
  - destruct (Ascii.eqb c delimiter), (Ascii.eqb c CR), (Ascii.eqb c LF);
      reflexivity.
Qed.

(** Inside quotes the reader takes every character as it comes and a
    doubled quote as one quote: an escape character written twice is read
    twice. *)
Lemma read_quoted (F : list str) (f acc : str) :
  room (length (double_backslashes f) + length acc) ->
  process_chars {| state := IN_QUOTED_FIELD; fields := F; field := acc |}
                (escaped f)
  = Ok {| state := IN_QUOTED_FIELD; fields := F;
          field := rev (double_backslashes f) ++ acc |}.
Proof.
  revert acc. induction f as [|c f IH]; intros acc H; [reflexivity|].
  cbn [escaped double_backslashes] in H |- *.
  destruct (Ascii.eqb c quotechar) eqn:Eq.
  - apply Ascii.eqb_eq in Eq. subst c.
    change (Ascii.eqb quotechar escapechar) with false in H |- *.
    cbv iota in H |- *. cbn [length] in H.
    rewrite doubled_quote by (apply (room_le _ _ H); lia).
    cbn [rev]. rewrite <- app_assoc. cbn [app].
    apply IH. apply (room_le _ _ H). cbn [length]. lia.
  - destruct (Ascii.eqb c escapechar) eqn:Ee.
    + apply Ascii.eqb_eq in Ee. subst c.
      cbn [length] in H. cbn [rev process_chars].
      rewrite <- !app_assoc. cbn [app].
      rewrite (quoted_char F acc escapechar Eq)
        by (apply (room_le _ _ H); lia).
      cbn [res_bind]. rewrite (quoted_char F _ escapechar Eq)
        by (apply (room_le _ _ H); cbn [length]; lia).
      cbn [res_bind]. apply IH. apply (room_le _ _ H). cbn [length]. lia.
    + cbn [length] in H. cbn [rev process_chars].
      rewrite <- app_assoc. cbn [app].
      rewrite (quoted_char F acc c Eq) by (apply (room_le _ _ H); lia).
      cbn [res_bind]. apply IH. apply (room_le _ _ H). cbn [length]. lia.
Qed.

(** Outside quotes the reader takes a character that needs none. *)
Lemma read_unquoted (F : list str) (f acc : str) :
  existsb needs_quotes f = false ->
  room (length (double_backslashes f) + length acc) ->
  process_chars {| state := IN_FIELD; fields := F; field := acc |}
                (escaped f)
  = Ok {| state := IN_FIELD; fields := F;
          field := rev (double_backslashes f) ++ acc |}.
Proof.
  revert acc. induction f as [|c f IH]; intros acc Hn H; [reflexivity|].
  cbn [existsb] in Hn. apply orb_false_iff in Hn as [Hc Hf].
  unfold needs_quotes in Hc.
  apply orb_false_iff in Hc as [Hc Hnl]. apply orb_false_iff in Hc as [Hq Hd].
  cbn [escaped double_backslashes] in H |- *. rewrite Hq.
  destruct (Ascii.eqb c escapechar) eqn:Ee.
  - cbn [length] in H. cbn [rev process_chars].
    rewrite <- !app_assoc. cbn [app].
    apply Ascii.eqb_eq in Ee. subst c.
    rewrite (in_field_char F acc _ Hnl Hd) by (apply (room_le _ _ H); lia).
    cbn [res_bind].
    rewrite (in_field_char F _ _ Hnl Hd)
      by (apply (room_le _ _ H); cbn [length]; lia).
    cbn [res_bind]. apply IH; [exact Hf|].
    apply (room_le _ _ H). cbn [length]. lia.
  - cbn [length] in H. cbn [rev process_chars].
    rewrite <- app_assoc. cbn [app].
    rewrite (in_field_char F acc c Hnl Hd) by (apply (room_le _ _ H); lia).
    cbn [res_bind]. apply IH; [exact Hf|].
    apply (room_le _ _ H). cbn [length]. lia.
Qed.

(** At the start of a field a character that needs no quotes is read as
    inside a field. *)
Lemma start_field_as_in_field (F : list str) (c : ascii) (s : str) :
  needs_quotes c = false ->
  process_chars {| state := START_FIELD; fields := F; field := [] |} (c :: s)
  = process_chars {| state := IN_FIELD; fields := F; field := [] |} (c :: s).
Proof.
  intros Hc. unfold needs_quotes in Hc.
  apply orb_false_iff in Hc as [Hc Hnl]. apply orb_false_iff in Hc as [Hq Hd].
  cbn [process_chars]. unfold process_char. cbn [state].
  unfold start_field. rewrite Hnl, Hq, Hd. reflexivity.
Qed.

Lemma escaped_head (c : ascii) (f : str) :
  Ascii.eqb c quotechar = false -> exists t, escaped (c :: f) = c :: t.
Proof.
  intros Hq. cbn [escaped]. rewrite Hq.
  destruct (Ascii.eqb c escapechar) eqn:Ee; [|eauto].
  apply Ascii.eqb_eq in Ee. subst c. eauto.
Qed.

Lemma read_field (F : list str) (f : str) :
  fits (double_backslashes f) ->
  exists r, process_chars {| state := START_FIELD; fields := F; field := [] |}
                          (join_append f) = Ok r
            /\ field_read F (double_backslashes f) r.
Proof.
  intros Hfit.
  assert (Hroom : room (length (double_backslashes f) + length ([] : str)))
    by (apply (room_le _ _ Hfit); cbn [length]; lia).
  unfold join_append. rewrite (join_append_data_spec f).
  destruct (existsb needs_quotes f) eqn:E.
  - cbn [process_chars]. unfold process_char at 1. cbn [state].
    unfold start_field. change (is_crlf quotechar) with false.
    rewrite Ascii.eqb_refl. cbn [res_bind]. unfold set_state.
    cbn [state fields field].
    rewrite process_chars_app, (read_quoted F f [] Hroom). cbn.
    eexists. split; [reflexivity|]. rewrite app_nil_r.
    repeat split; auto.
  - destruct f as [|c f].
    + eexists. split; [reflexivity|]. repeat split; auto.
    + assert (Hc : needs_quotes c = false)
        by (cbn [existsb] in E; apply orb_false_iff in E as [Hc _];
            exact Hc).
      assert (Hq : Ascii.eqb c quotechar = false)
        by (unfold needs_quotes in Hc;
            apply orb_false_iff in Hc as [Hc _];
            apply orb_false_iff in Hc as [Hq _]; exact Hq).
      destruct (escaped_head c f Hq) as (t & Ht).
      rewrite Ht, (start_field_as_in_field F c t Hc), <- Ht.
      rewrite (read_unquoted F (c :: f) [] E Hroom).
      eexists. split; [reflexivity|]. rewrite app_nil_r.
      repeat split; auto.
Qed.

(** A delimiter after a written field saves the field and starts the
    next. *)
Lemma read_delimiter (F : list str) (f : str) (r : Reader) :
  field_read F f r ->
  process_char r delimiter
  = Ok {| state := START_FIELD; fields := f :: F; field := [] |}.
Proof.
  intros (HF & Hf & Hs). destruct r as [s F' acc]. cbn in HF, Hf, Hs.
  subst F' acc.
  destruct Hs as [[-> ->]|[->| ->]]; cbn; unfold parse_save_field; cbn;
    rewrite ?rev_involutive; reflexivity.
Qed.

(** A line break after a written field saves the field. *)
Lemma read_line_break (F : list str) (f : str) (r : Reader) (c : ascii) :
  field_read F f r -> is_crlf c = true ->
  process_char r c
  = Ok {| state := EAT_CRNL; fields := f :: F; field := [] |}.
Proof.
  intros (HF & Hf & Hs) Hc. destruct r as [s F' acc]. cbn in HF, Hf, Hs.
  subst F' acc.
  assert (Hq : Ascii.eqb c quotechar = false).
  { unfold is_crlf in Hc. apply orb_true_iff in Hc as [Hc|Hc];
      apply Ascii.eqb_eq in Hc; subst c; reflexivity. }
  assert (Hd : Ascii.eqb c delimiter = false).
  { unfold is_crlf in Hc. apply orb_true_iff in Hc as [Hc|Hc];
      apply Ascii.eqb_eq in Hc; subst c; reflexivity. }
  destruct Hs as [[-> ->]|[->| ->]]; unfold process_char; cbn [state];
    unfold start_field; rewrite ?Hc, ?Hq, ?Hd; cbn;
    unfold parse_save_field; cbn; rewrite ?rev_involutive; reflexivity.
Qed.

(** The fields of a record, written one after the other and followed by a
    line break, read from the start of a field. *)
Lemma read_fields (fs : list str) (F : list str) (c : ascii) :
  fs <> [] -> Forall fits (map double_backslashes fs) -> is_crlf c = true ->
  process_chars {| state := START_FIELD; fields := F; field := [] |}
                (join_fields fs ++ [c])
  = Ok {| state := EAT_CRNL;
          fields := rev (map double_backslashes fs) ++ F; field := [] |}.
Proof.
  intros Hne Hfit Hc. revert F Hfit.
  induction fs as [|f rest IH]; intros F Hfit; [contradiction|].
  cbn [map] in Hfit. inversion Hfit as [|x xs Hf Hrest]; subst.
  destruct (read_field F f Hf) as (r & Hr & Hread).
  destruct rest as [|f' rest].
  - cbn [join_fields]. rewrite process_chars_app, Hr. cbn [res_bind].
    cbn [process_chars].
    rewrite (read_line_break F _ r c Hread Hc). reflexivity.
  - change (join_fields (f :: f' :: rest))
      with (join_append f ++ delimiter :: join_fields (f' :: rest)).
    rewrite <- app_assoc, process_chars_app, Hr. cbn [res_bind app].
    cbn [process_chars]. rewrite (read_delimiter F _ r Hread).
    cbn [res_bind]. rewrite IH by (first [discriminate | exact Hrest]).
    cbn [map rev]. rewrite <- !app_assoc. reflexivity.
Qed.

Lemma writerow_row_text (fs : list str) :
  writerow fs = row_text fs ++ lineterminator.
Proof. destruct fs as [|[|c f] [|f' rest]]; reflexivity. Qed.

(** A record whose fields hold no line break is written on one line. *)
Lemma escaped_no_break (f : str) :
  Forall no_break f -> Forall no_break (escaped f).
Proof.
  induction 1 as [|c f Hc _ IH]; [constructor|].
  cbn [escaped]. destruct (Ascii.eqb c quotechar).
  - constructor; [reflexivity|]. constructor; assumption.
  - destruct (Ascii.eqb c escapechar).
    + constructor; [reflexivity|]. constructor; assumption.
    + constructor; assumption.
Qed.

Lemma join_append_no_break (f : str) :
  Forall no_break f -> Forall no_break (join_append f).
Proof.
  intros Hf. unfold join_append. rewrite (join_append_data_spec f).
  pose proof (escaped_no_break f Hf) as H.
  destruct (existsb needs_quotes f); [|exact H].
  constructor; [reflexivity|]. apply Forall_app. split; [exact H|].
  repeat constructor.
Qed.

Lemma join_fields_no_break (fs : list str) :
  Forall (Forall no_break) fs -> Forall no_break (join_fields fs).
Proof.
  induction 1 as [|f rest Hf _ IH]; [constructor|].
  destruct rest as [|f' rest]; [apply join_append_no_break, Hf|].
  change (join_fields (f :: f' :: rest))
    with (join_append f ++ delimiter :: join_fields (f' :: rest)).
  apply Forall_app. split; [apply join_append_no_break, Hf|].
  constructor; [reflexivity | exact IH].
Qed.

Lemma row_text_no_break (fs : list str) :
  Forall (Forall no_break) fs -> Forall no_break (row_text fs).
Proof.
  intros H. destruct fs as [|[|c f] [|f' rest]];
    try (apply join_fields_no_break, H).
  repeat constructor.
Qed.

(** At the start of a record a character that is no line break is read as
    at the start of a field. *)
Lemma start_record_as_field (c : ascii) (s : str) :
  is_crlf c = false ->
  process_chars parse_reset (c :: s)
  = process_chars {| state := START_FIELD; fields := []; field := [] |}
                  (c :: s).
Proof.
  intros Hc. cbn [process_chars]. unfold process_char. cbn [state].
  rewrite Hc. reflexivity.
Qed.

(** The text of a record followed by a line break, read from the start of
    a record. *)
Lemma read_row_text (fs : list str) (c : ascii) :
  fs <> [] -> Forall (Forall no_break) fs ->
  Forall fits (map double_backslashes fs) -> is_crlf c = true ->
  process_chars parse_reset (row_text fs ++ [c])
  = Ok {| state := EAT_CRNL; fields := rev (map double_backslashes fs);
          field := [] |}.
Proof.
  intros Hne Hfs Hfit Hc.
  assert (Hq : Ascii.eqb c quotechar = false).
  { unfold is_crlf in Hc. apply orb_true_iff in Hc as [H|H];
      apply Ascii.eqb_eq in H; subst c; reflexivity. }
  assert (Hd : Ascii.eqb c delimiter = false).
  { unfold is_crlf in Hc. apply orb_true_iff in Hc as [H|H];
      apply Ascii.eqb_eq in H; subst c; reflexivity. }
  destruct (decide (fs = [ [] : str ])) as [->|Hn1].
  { cbn. rewrite Hq, Hd, Hc. reflexivity. }
  pose proof (read_fields fs [] c Hne Hfit Hc) as Hread.
  rewrite app_nil_r in Hread.
  pose proof (row_text_no_break fs Hfs) as Hnb.
  assert (Hrow : row_text fs = join_fields fs).
  { destruct fs as [|[|c0 f] [|f' rest]]; try reflexivity. congruence. }
  rewrite Hrow in *.
  destruct (join_fields fs) as [|c0 s] eqn:Ej.
  - (* only a single empty field is written as nothing *)
    exfalso. destruct fs as [|f rest]; [congruence|].
    destruct rest as [|f' rest].
    + cbn in Ej. unfold join_append in Ej.
      destruct (join_append_data f) as [body q] eqn:Ed.
      destruct q; [discriminate|]. subst body.
      destruct f as [|c0 f]; [congruence|].
      cbn in Ed. destruct (join_append_data f) as [b q'].
      destruct (Ascii.eqb c0 quotechar); [discriminate|].
      destruct (Ascii.eqb c0 escapechar); [discriminate|].
      destruct (_ || _); discriminate.
    + change (join_fields (f :: f' :: rest))
        with (join_append f ++ delimiter :: join_fields (f' :: rest)) in Ej.
      destruct (join_append f); discriminate.
  - cbn [app]. rewrite start_record_as_field; [exact Hread|].
    inversion Hnb; assumption.
Qed.

(** One written line, read as a line: the record is complete and holds the
    fields. *)
Lemma read_written_line (fs : list str) (nl : str) :
  fs <> [] -> Forall (Forall no_break) fs ->
  Forall fits (map double_backslashes fs) ->
  nl = [LF] \/ nl = [CR; LF] ->
  process_line parse_reset (row_text fs ++ nl)
  = Ok {| state := START_RECORD; fields := rev (map double_backslashes fs);
          field := [] |}.
Proof.
  intros Hne Hfs Hfit Hnl. rewrite process_line_chars.
  destruct Hnl as [->| ->].
  - rewrite (read_row_text fs LF Hne Hfs Hfit eq_refl). reflexivity.
  - change [CR; LF] with ([CR] ++ [LF]).
    rewrite app_assoc, process_chars_app.
    rewrite (read_row_text fs CR Hne Hfs Hfit eq_refl). reflexivity.
Qed.

(** Lines without inner line break are split where they end. *)
Lemma readlines_from_lf (s cur t : str) :
  Forall no_break s ->
  readlines_from cur (s ++ LF :: t)
  = (rev cur ++ s ++ [LF]) :: readlines_from [] t.
Proof.
  intros H. revert cur. induction H as [|c s Hc _ IH]; intros cur.
  - cbn. rewrite <- ?app_assoc. reflexivity.
  - cbn [app readlines_from]. unfold no_break, is_crlf in Hc.
    apply orb_false_iff in Hc as [Hcr Hlf]. rewrite Hlf, Hcr, IH.
    cbn [rev]. rewrite <- !app_assoc. reflexivity.
Qed.

Lemma readlines_from_crlf (s cur t : str) :
  Forall no_break s ->
  readlines_from cur (s ++ CR :: LF :: t)
  = (rev cur ++ s ++ [CR; LF]) :: readlines_from [] t.
Proof.
  intros H. revert cur. induction H as [|c s Hc _ IH]; intros cur.
  - cbn. rewrite <- ?app_assoc. reflexivity.
  - cbn [app readlines_from]. unfold no_break, is_crlf in Hc.
    apply orb_false_iff in Hc as [Hcr Hlf]. rewrite Hlf, Hcr, IH.
    cbn [rev]. rewrite <- !app_assoc. reflexivity.
Qed.

(** Written records, one per line, are read back with every escape
    character twice, with either line end. *)
Lemma read_written_lines (ls : list (list str)) (nl : str) :
  Forall (fun fs => fs <> [] /\ Forall (Forall no_break) fs
                    /\ Forall fits (map double_backslashes fs)) ls ->
  nl = [LF] \/ nl = [CR; LF] ->
  read_records parse_reset (map (fun fs => row_text fs ++ nl) ls)
  = Ok (map (map double_backslashes) ls).
Proof.
  intros H Hnl.
  induction H as [|fs ls (Hne & Hfs & Hfit) _ IH]; [reflexivity|].
  cbn [map read_records].
  rewrite (read_written_line fs nl Hne Hfs Hfit Hnl). cbn [res_bind state].
  rewrite IH. cbn [res_bind fields]. rewrite rev_involutive. reflexivity.
Qed.

Lemma readlines_written (ls : list (list str)) (nl : str) :
  Forall (fun fs => Forall (Forall no_break) fs) ls ->
  nl = [LF] \/ nl = [CR; LF] ->
  readlines (concat (map (fun fs => row_text fs ++ nl) ls))
  = map (fun fs => row_text fs ++ nl) ls.
Proof.
  intros H Hnl. unfold readlines.
  induction H as [|fs ls Hfs _ IH]; [reflexivity|].
  cbn [map concat]. rewrite <- app_assoc.
  destruct Hnl as [->| ->]; cbn [app].
  - rewrite readlines_from_lf by (apply row_text_no_break, Hfs).
    rewrite IH. reflexivity.
  - rewrite readlines_from_crlf by (apply row_text_no_break, Hfs).
    rewrite IH. reflexivity.
Qed.

(** One written record, read back. *)
Lemma reader_written (fs : list str) :
  fs <> [] -> Forall (Forall no_break) fs ->
  Forall fits (map double_backslashes fs) ->
  reader (writerow fs) = Ok [map double_backslashes fs].
Proof.
  intros Hne Hfs Hfit. unfold reader.
  rewrite writerow_row_text.
  pose proof (readlines_written [fs] lineterminator) as Hl.
  cbn [map concat] in Hl. rewrite app_nil_r in Hl.
  rewrite Hl; [|repeat constructor; assumption | right; reflexivity].
  apply (read_written_lines [fs] lineterminator);
    [repeat constructor; assumption | right; reflexivity].
Qed.

(** A field without escape character is read back as it is. *)
Lemma plain_no_break (f : str) : Forall plain f -> Forall no_break f.
Proof.
  intros H. eapply Forall_impl; [exact H|]. intros c [_ Hc]. exact Hc.
Qed.

Lemma plain_fields_no_break (fs : list str) :
  Forall (Forall plain) fs -> Forall (Forall no_break) fs.
Proof.
  intros H. eapply Forall_impl; [exact H|]. apply plain_no_break.
Qed.

Lemma plain_backslashes (f : str) :
  Forall plain f -> double_backslashes f = f.
Proof.
  induction 1 as [|c f [Hc _] _ IH]; [reflexivity|].
  cbn [double_backslashes]. rewrite IH.
  destruct (Ascii.eqb c escapechar) eqn:E; [|reflexivity].
  apply Ascii.eqb_eq in E. contradiction.
Qed.

Lemma plain_fields_backslashes (fs : list str) :
  Forall (Forall plain) fs -> map double_backslashes fs = fs.
Proof.
  induction 1 as [|f fs Hf _ IH]; [reflexivity|].
  cbn [map]. rewrite (plain_backslashes f Hf), IH. reflexivity.
Qed.

End CsvRoundTrip.

(** X1. A record of at least one field, none of which holds a backslash or
    a line break or is longer than the reader's field size limit, is read
    back by the catalog reader exactly as the catalog writer wrote it:
    delimiters and quotes inside a field survive. *)
Theorem csv_record_round_trip (fs : list str) :
  fs <> [] -> Forall (Forall plain) fs -> Forall fits fs ->
  Csv.reader (Csv.writerow fs) = Ok [fs].
Proof.
  intros Hne Hfs Hfit.
  rewrite (reader_written fs Hne (plain_fields_no_break fs Hfs))
    by (rewrite (plain_fields_backslashes fs Hfs); exact Hfit).
  rewrite (plain_fields_backslashes fs Hfs). reflexivity.
Qed.

(** X1 on a record whose fields hold the delimiter and quotes. *)
Lemma csv_record_round_trip_witness :
  Csv.reader (Csv.writerow [ "Circular | A" : str; [] ; ["034"%char; "x"%char] ])
  = Ok [ [ "Circular | A" : str; [] ; ["034"%char; "x"%char] ] ].
Proof.
  apply csv_record_round_trip; [discriminate | |].
  - repeat constructor; discriminate.
  - repeat constructor.
Defined.

(** X19. What the catalog reader gives for a written record whose fields
    hold no line break and stay within the reader's field size limit when
    every backslash is counted twice: the fields in order, each with every
    backslash twice. The writer escapes a backslash with its escape
    character, and the reader, which has none, reads both. *)
Theorem csv_backslash_doubled (fs : list str) :
  fs <> [] -> Forall (Forall no_break) fs ->
  Forall fits (map double_backslashes fs) ->
  Csv.reader (Csv.writerow fs) = Ok [map double_backslashes fs].
Proof. apply reader_written. Qed.

(** X19 on a record with a backslash in a quoted and in a bare field. *)
Lemma csv_backslash_doubled_witness :
  Csv.reader (Csv.writerow [ "A\B | C" : str; "\" : str ])
  = Ok [ [ "A\\B | C" : str; "\\" : str ] ].
Proof.
  apply (csv_backslash_doubled [ "A\B | C" : str; "\" : str ]);
    [discriminate | |]; repeat constructor.
Defined.

(** The limit is met: the reader takes the character that brings a field
    to [field_limit] characters, and refuses the next one. *)
Example field_over_limit_refused :
  let r := {| Csv.state := Csv.IN_FIELD; Csv.fields := [];
              Csv.field := repeat "a"%char 131071 |} in
  process_chars r ("a" : str)
  = Ok {| Csv.state := Csv.IN_FIELD; Csv.fields := [];
          Csv.field := "a"%char :: repeat "a"%char 131071 |}
  /\ process_chars r ("ab" : str) = Raise OtherException.
Proof.
  cbv zeta.
  assert (H1 : N.leb Csv.field_limit
                 (N.of_nat (length (repeat "a"%char 131071))) = false)
    by (rewrite repeat_length; vm_compute; reflexivity).
  assert (H2 : N.leb Csv.field_limit
                 (N.of_nat (length ("a"%char :: repeat "a"%char 131071)))
               = true)
    by (cbn [length]; rewrite repeat_length; vm_compute; reflexivity).
  split.
  - cbn [process_chars list_ascii_of_string]. unfold Csv.process_char.
    cbn [Csv.state]. change (Csv.is_crlf "a"%char) with false.
    change (Ascii.eqb "a"%char Csv.delimiter) with false. cbv iota.
    unfold Csv.parse_add_char. cbn [Csv.field Csv.fields]. rewrite H1.
    reflexivity.
  - cbn [process_chars list_ascii_of_string]. unfold Csv.process_char at 1.
    cbn [Csv.state]. change (Csv.is_crlf "a"%char) with false.
    change (Ascii.eqb "a"%char Csv.delimiter) with false. cbv iota.
    unfold Csv.parse_add_char at 1. cbn [Csv.field Csv.fields]. rewrite H1.
    cbn [res_bind]. unfold Csv.process_char. cbn [Csv.state].
    change (Csv.is_crlf "b"%char) with false.
    change (Ascii.eqb "b"%char Csv.delimiter) with false. cbv iota.
    unfold Csv.parse_add_char. cbn [Csv.field Csv.fields]. rewrite H2.
    reflexivity.
Qed.

Section CatalogRoundTrip.
Import SnapshotMerge SnapshotMergeRun.

Lemma plainb_plain (c : ascii) : plainb c = true -> plain c.
Proof.
  unfold plainb, plain. intros H. apply andb_true_iff in H as [He Hn].
  apply negb_true_iff in He, Hn. split; [|exact Hn].
  intros ->. rewrite Ascii.eqb_refl in He. discriminate He.
Qed.

Lemma forallb_plain (s : str) : forallb plainb s = true -> Forall plain s.
Proof.
  induction s as [|c s IH]; [constructor|].
  cbn. intros H. apply andb_true_iff in H as [Hc Hs].
  constructor; [apply plainb_plain, Hc | apply IH, Hs].
Qed.

Lemma plain_rows_check (rows : list (gmap str str)) :
  forallb plain_rowb rows = true -> Forall plain_row rows.
Proof.
  intros H. apply List.Forall_forall. intros r Hr.
  rewrite forallb_forall in H. specialize (H r Hr).
  unfold plain_rowb in H. rewrite forallb_forall in H.
  apply List.Forall_forall. intros k Hk. apply forallb_plain, H, Hk.
Qed.

Lemma headers_plain : Forall (Forall plain) headers.
Proof. repeat (constructor; [apply forallb_plain; reflexivity|]). constructor. Qed.

Lemma sanitized_plain (s : str) : Forall sanitized s -> Forall plain s.
Proof.
  intros H. eapply Forall_impl; [exact H|]. intros c [Hf Hs]. split.
  - intros ->. discriminate Hf.
  - destruct (Csv.is_crlf c) eqn:E; [|reflexivity].
    unfold Csv.is_crlf in E. apply orb_true_iff in E as [E|E];
      apply Ascii.eqb_eq in E; subst c; specialize (Hs eq_refl);
      discriminate Hs.
Qed.

(** The name the writer hands on is read back as it is. *)
Lemma safe_name_plain (r : gmap str str) :
  Forall plain (safe_filename (get r "pdf_filename") "document.pdf").
Proof. apply sanitized_plain, snapshot_safe_filename_sanitized. Qed.

Lemma safe_row_no_break (r : gmap str str) :
  no_break_row r -> Forall (Forall no_break) (dict_to_list (safe_row r)).
Proof.
  intros H. rewrite safe_row_fields.
  unfold no_break_row in H. rewrite List.Forall_forall in H.
  repeat (constructor; [first [ apply H; cbn; tauto
                              | apply plain_no_break, safe_name_plain ]|]).
  constructor.
Qed.

Lemma safe_row_plain (r : gmap str str) :
  plain_row r -> Forall (Forall plain) (dict_to_list (safe_row r)).
Proof.
  intros H. rewrite safe_row_fields.
  unfold plain_row in H. rewrite List.Forall_forall in H.
  repeat (constructor; [first [ apply H; cbn; tauto
                              | apply safe_name_plain ]|]).
  constructor.
Qed.

Lemma plain_row_no_break (r : gmap str str) : plain_row r -> no_break_row r.
Proof.
  unfold plain_row, no_break_row. intros H.
  eapply Forall_impl; [exact H|]. intros k. apply plain_no_break.
Qed.

(** Reading back the fields of a written row under the header gives the
    written row. *)
Lemma dict_of_written_row (r : gmap str str) :
  Csv.dict_of_row headers (dict_to_list (safe_row r)) = safe_row r.
Proof. reflexivity. Qed.

Lemma read_back_plain (r : gmap str str) :
  plain_row r -> read_back r = safe_row r.
Proof.
  intros H. unfold read_back.
  rewrite (plain_fields_backslashes _ (safe_row_plain r H)).
  apply dict_of_written_row.
Qed.

Lemma replace_crlf_line (s t : str) :
  Forall no_break s ->
  replace_crlf (s ++ Csv.CR :: Csv.LF :: t) = s ++ Csv.LF :: replace_crlf t.
Proof.
  induction 1 as [|c s Hc Hs IH]; [reflexivity|].
  cbn [app]. unfold no_break, Csv.is_crlf in Hc.
  apply orb_false_iff in Hc as [Hcr _].
  assert (Hstep : forall u, u <> [] ->
             replace_crlf (c :: u) = c :: replace_crlf u).
  { intros [|c' u] Hu; [congruence|]. cbn [replace_crlf]. rewrite Hcr.
    reflexivity. }
  rewrite Hstep, IH; [reflexivity|]. destruct s; discriminate.
Qed.

Lemma replace_crlf_written (ls : list (list str)) :
  Forall (fun fs => Forall (Forall no_break) fs) ls ->
  replace_crlf (concat (map Csv.writerow ls))
  = concat (map (fun fs => row_text fs ++ [Csv.LF]) ls).
Proof.
  induction 1 as [|fs ls Hfs _ IH]; [reflexivity|].
  cbn [map concat]. rewrite writerow_row_text, <- !app_assoc.
  cbn [Csv.lineterminator app].
  rewrite (replace_crlf_line _ _ (row_text_no_break fs Hfs)), IH.
  reflexivity.
Qed.

(** The lines of the catalog file for rows without line break. *)
Lemma catalog_text_lines (rows : list (gmap str str)) :
  Forall no_break_row rows ->
  catalog_text rows
  = concat (map (fun fs => row_text fs ++ [Csv.LF])
                (headers :: map (fun r => dict_to_list (safe_row r)) rows))
  /\ Forall (fun fs => fs <> [] /\ Forall (Forall no_break) fs)
            (headers :: map (fun r => dict_to_list (safe_row r)) rows).
Proof.
  intros H.
  assert (Hls : Forall (fun fs => fs <> [] /\ Forall (Forall no_break) fs)
                  (headers :: map (fun r => dict_to_list (safe_row r)) rows)).
  { constructor;
      [split; [discriminate
              | apply plain_fields_no_break, headers_plain]|].
    apply Forall_map. eapply Forall_impl; [exact H|].
    intros r Hr. split; [rewrite safe_row_fields; discriminate|].
    apply safe_row_no_break, Hr. }
  split; [|exact Hls].
  unfold catalog_text, csv_lines.
  rewrite <- replace_crlf_written
    by (eapply Forall_impl; [exact Hls|]; intros fs [_ Hfs]; exact Hfs).
  cbn [map]. rewrite map_map. reflexivity.
Qed.

(** The fields of the catalog file stay within the reader's limit when
    the fields of the rows do: the header is short, and the file name is
    cut on the way out. *)
Lemma fits_rows_check (rows : list (gmap str str)) :
  forallb fits_rowb rows = true -> Forall fits_row rows.
Proof.
  intros H. apply List.Forall_forall. intros r Hr.
  rewrite forallb_forall in H. specialize (H r Hr).
  unfold fits_rowb in H. rewrite forallb_forall in H.
  apply List.Forall_forall. intros k Hk. apply H, Hk.
Qed.

Lemma fits_doubled_rows_check (rows : list (gmap str str)) :
  forallb fits_doubled_rowb rows = true -> Forall fits_doubled_row rows.
Proof.
  intros H. apply List.Forall_forall. intros r Hr.
  rewrite forallb_forall in H. specialize (H r Hr).
  unfold fits_doubled_rowb in H. rewrite forallb_forall in H.
  apply List.Forall_forall. intros k Hk. apply H, Hk.
Qed.

Lemma headers_fit : Forall fits (map double_backslashes headers).
Proof. repeat (constructor; [reflexivity|]). constructor. Qed.

Lemma safe_name_fits (r : gmap str str) :
  fits (double_backslashes
          (safe_filename (get r "pdf_filename") "document.pdf")).
Proof.
  rewrite (plain_backslashes _ (safe_name_plain r)).
  apply room_small, snapshot_safe_filename_length.
Qed.

Lemma safe_row_fits (r : gmap str str) :
  fits_doubled_row r ->
  Forall fits (map double_backslashes (dict_to_list (safe_row r))).
Proof.
  intros H. rewrite safe_row_fields. cbn [map].
  unfold fits_doubled_row in H. rewrite List.Forall_forall in H.
  repeat (constructor; [first [ apply H; cbn; tauto
                              | apply safe_name_fits ]|]).
  constructor.
Qed.

Lemma plain_row_fits (r : gmap str str) :
  plain_row r -> fits_row r -> fits_doubled_row r.
Proof.
  unfold plain_row, fits_row, fits_doubled_row. intros Hp Hf.
  rewrite List.Forall_forall in Hp, Hf. apply List.Forall_forall.
  intros k Hk. rewrite (plain_backslashes _ (Hp k Hk)). apply Hf, Hk.
Qed.

Lemma plain_rows_fit (rows : list (gmap str str)) :
  Forall plain_row rows -> Forall fits_row rows ->
  Forall fits_doubled_row rows.
Proof.
  intros Hp Hf. rewrite List.Forall_forall in Hp, Hf.
  apply List.Forall_forall. intros r Hr.
  apply plain_row_fits; [apply Hp, Hr | apply Hf, Hr].
Qed.

Lemma catalog_lines_fit (rows : list (gmap str str)) :
  Forall fits_doubled_row rows ->
  Forall (fun fs => Forall fits (map double_backslashes fs))
         (headers :: map (fun r => dict_to_list (safe_row r)) rows).
Proof.
  intros H. constructor; [exact headers_fit|].
  apply Forall_map. eapply Forall_impl; [exact H|].
  intros r Hr. apply safe_row_fits, Hr.
Qed.

(** The text of a catalog of rows without line break, with fields the
    reader accepts, reads back as the rows written, every backslash
    twice. *)
Lemma dict_reader_catalog_lines (rows : list (gmap str str)) :
  Forall no_break_row rows -> Forall fits_doubled_row rows ->
  Csv.dict_reader (catalog_text rows) = Ok (map read_back rows).
Proof.
  intros H Hfit. destruct (catalog_text_lines rows H) as [Ht Hls].
  pose proof (catalog_lines_fit rows Hfit) as Hlf.
  assert (Hall : Forall (fun fs => fs <> []
                                   /\ Forall (Forall no_break) fs
                                   /\ Forall fits (map double_backslashes fs))
                   (headers :: map (fun r => dict_to_list (safe_row r))
                                   rows)).
  { apply List.Forall_forall. intros fs Hin.
    pose proof (proj1 (List.Forall_forall _ _) Hls fs Hin) as [H1 H2].
    pose proof (proj1 (List.Forall_forall _ _) Hlf fs Hin) as H3.
    auto. }
  unfold Csv.dict_reader, Csv.reader. rewrite Ht.
  rewrite (readlines_written _ [Csv.LF])
    by (first [ left; reflexivity
              | eapply Forall_impl; [exact Hls|]; intros fs [_ Hfs];
                exact Hfs ]).
  rewrite (read_written_lines _ [Csv.LF] Hall) by (left; reflexivity).
  cbn [res_bind map]. f_equal.
  clear. induction rows as [|r rows IH]; [reflexivity|].
  cbn [map]. rewrite filter_cons_True by (rewrite safe_row_fields; discriminate).
  cbn [map]. fold (read_back r). f_equal. exact IH.
Qed.

(** The text of a catalog of plain rows, with fields the reader accepts,
    reads back as the rows written. *)
Lemma dict_reader_catalog_text (rows : list (gmap str str)) :
  Forall plain_row rows -> Forall fits_row rows ->
  Csv.dict_reader (catalog_text rows) = Ok (map safe_row rows).
Proof.
  intros H Hfit.
  rewrite dict_reader_catalog_lines
    by (first [ apply plain_rows_fit; assumption
              | eapply Forall_impl; [exact H|]; apply plain_row_no_break ]).
  f_equal. apply map_ext_Forall.
  eapply Forall_impl; [exact H|]. apply read_back_plain.
Qed.

Lemma read_back_title (r : gmap str str) :
  get (read_back r) "title" = double_backslashes (get r "title").
Proof. reflexivity. Qed.

End CatalogRoundTrip.

(** X2. After [write_csv] has written rows none of whose fields holds a
    backslash or a line break or is longer than the reader's field size
    limit, [load_master_csv] reads the catalog file back as exactly the
    rows the writer was handed: every header with the written value, in
    the written order. *)
Theorem catalog_round_trip (fs : gmap str str) (rows : list (gmap str str)) :
  Forall plain_row rows -> Forall fits_row rows ->
  SnapshotMergeRun.load_master_csv
    (apply_effects fs
       (SnapshotMergeRun.write_csv SnapshotMerge.MASTER_CSV rows))
    SnapshotMerge.MASTER_CSV
  = Ok (map SnapshotMergeRun.safe_row rows).
Proof.
  intros H Hfit. unfold SnapshotMergeRun.load_master_csv.
  rewrite write_csv_result. apply dict_reader_catalog_text; assumption.
Qed.

(** X2 on a catalog of one row whose title holds the delimiter. *)
Lemma catalog_round_trip_witness :
  SnapshotMergeRun.load_master_csv
    (apply_effects ∅
       (SnapshotMergeRun.write_csv SnapshotMerge.MASTER_CSV
          [ Sample.titled "Circular | A" ]))
    SnapshotMerge.MASTER_CSV
  = Ok [ SnapshotMergeRun.safe_row (Sample.titled "Circular | A") ].
Proof.
  apply (catalog_round_trip ∅ [ Sample.titled "Circular | A" ]).
  - apply plain_rows_check. reflexivity.
  - apply fits_rows_check. reflexivity.
Defined.

(** X20. After [write_csv] has written rows none of whose fields holds a
    line break, and whose fields stay within the reader's field size limit
    when every backslash is counted twice, [load_master_csv] reads back
    the rows the writer was handed with every backslash twice; in
    particular a title is read back with its backslashes doubled. *)
Theorem catalog_backslashes_doubled (fs : gmap str str)
        (rows : list (gmap str str)) :
  Forall no_break_row rows -> Forall fits_doubled_row rows ->
  SnapshotMergeRun.load_master_csv
    (apply_effects fs
       (SnapshotMergeRun.write_csv SnapshotMerge.MASTER_CSV rows))
    SnapshotMerge.MASTER_CSV
  = Ok (map read_back rows)
  /\ catalog_titles
       (apply_effects fs
          (SnapshotMergeRun.write_csv SnapshotMerge.MASTER_CSV rows))
     = Ok (map (fun r => double_backslashes (get r "title")) rows).
Proof.
  intros H Hfit.
  assert (Hload : SnapshotMergeRun.load_master_csv
                    (apply_effects fs
                       (SnapshotMergeRun.write_csv SnapshotMerge.MASTER_CSV
                                                   rows))
                    SnapshotMerge.MASTER_CSV
                  = Ok (map read_back rows)).
  { unfold SnapshotMergeRun.load_master_csv.
    rewrite write_csv_result. apply dict_reader_catalog_lines; assumption. }
  split; [exact Hload|].
  unfold catalog_titles. rewrite Hload. cbn [res_bind].
  rewrite map_map. reflexivity.
Qed.

(** X20 on a catalog of one row whose title holds a backslash. *)
Lemma catalog_backslashes_doubled_witness :
  catalog_titles
    (apply_effects ∅
       (SnapshotMergeRun.write_csv SnapshotMerge.MASTER_CSV
          [ Sample.titled "Notice A\B" ]))
  = Ok [ "Notice A\\B" : str ].
Proof.
  apply (catalog_backslashes_doubled ∅ [ Sample.titled "Notice A\B" ]).
  - repeat constructor.
  - apply fits_doubled_rows_check. reflexivity.
Defined.

(** * White space at the ends *)

Section Strip.

Lemma lstrip_nonspace (c : ascii) (s : str) :
  isspace c = false -> lstrip (c :: s) = c :: s.
Proof. intros H. cbn. rewrite H. reflexivity. Qed.

(** [lstrip] drops a prefix of white space and stops at a character that
    is none. *)
Lemma lstrip_split (s : str) :
  exists w, s = w ++ lstrip s
            /\ Forall (fun c => isspace c = true) w
            /\ match lstrip s with
               | [] => True
               | c :: _ => isspace c = false
               end.
Proof.
  induction s as [|c s (w & Hs & Hw & Hh)].
  - exists []. repeat split. constructor.
  - cbn [lstrip]. destruct (isspace c) eqn:E.
    + exists (c :: w). cbn. rewrite <- Hs. repeat split; auto.
    + exists []. repeat split; auto.
Qed.

Lemma lstrip_idem (s : str) : lstrip (lstrip s) = lstrip s.
Proof.
  destruct (lstrip_split s) as (_ & _ & _ & Hh).
  destruct (lstrip s) as [|c t]; [reflexivity|].
  apply lstrip_nonspace, Hh.
Qed.

(** A stripped text neither starts nor ends with white space. *)
Lemma strip_ends (s : str) :
  match strip s with
  | [] => True
  | c :: _ => isspace c = false
  end
  /\ match rev (strip s) with
     | [] => True
     | c :: _ => isspace c = false
     end.
Proof.
  unfold strip, rstrip. rewrite rev_involutive.
  destruct (lstrip_split s) as (_ & _ & _ & Ha).
  set (a := lstrip s) in *.
  destruct (lstrip_split (rev a)) as (w & Hw & _ & Hb).
  split; [|exact Hb].
  apply (f_equal (@rev ascii)) in Hw.
  rewrite rev_involutive, rev_app_distr in Hw.
  destruct (rev (lstrip (rev a))) as [|c t]; [exact I|].
  rewrite Hw in Ha. exact Ha.
Qed.

Lemma strip_fixed (s : str) :
  match s with [] => True | c :: _ => isspace c = false end ->
  match rev s with [] => True | c :: _ => isspace c = false end ->
  strip s = s.
Proof.
  intros Hh Hl. unfold strip, rstrip.
  assert (lstrip s = s) as ->
      by (destruct s; [reflexivity | apply lstrip_nonspace, Hh]).
  assert (lstrip (rev s) = rev s) as ->
      by (destruct (rev s); [reflexivity | apply lstrip_nonspace, Hl]).
  apply rev_involutive.
Qed.

Lemma strip_idem (s : str) : strip (strip s) = strip s.
Proof. destruct (strip_ends s). apply strip_fixed; assumption. Qed.

Lemma lower_char_space (c : ascii) : isspace (lower_char c) = isspace c.
Proof.
  destruct c as [[] [] [] [] [] [] [] []]; reflexivity.
Qed.

Lemma lower_char_idem (c : ascii) : lower_char (lower_char c) = lower_char c.
Proof.
  destruct c as [[] [] [] [] [] [] [] []]; reflexivity.
Qed.

Lemma lstrip_lower (s : str) : lstrip (lower s) = lower (lstrip s).
Proof.
  induction s as [|c s IH]; [reflexivity|].
  cbn. rewrite lower_char_space. destruct (isspace c); [exact IH|reflexivity].
Qed.

Lemma rev_lower (s : str) : rev (lower s) = lower (rev s).
Proof. unfold lower. symmetry. apply map_rev. Qed.

Lemma strip_lower (s : str) : strip (lower s) = lower (strip s).
Proof.
  unfold strip, rstrip.
  rewrite lstrip_lower, rev_lower, lstrip_lower, rev_lower. reflexivity.
Qed.

Lemma lower_idem (s : str) : lower (lower s) = lower s.
Proof.
  unfold lower. rewrite map_map. apply map_ext, lower_char_idem.
Qed.

End Strip.

(** * Dedup keys *)

Section Keys.

Lemma title_key_strip (s : str) : title_key_of (strip s) = title_key_of s.
Proof. unfold title_key_of. rewrite strip_idem. reflexivity. Qed.

Lemma title_key_lower (s : str) : title_key_of (lower s) = title_key_of s.
Proof. unfold title_key_of. rewrite strip_lower, lower_idem. reflexivity. Qed.

Lemma title_key_idem (s : str) :
  title_key_of (title_key_of s) = title_key_of s.
Proof.
  unfold title_key_of at 2. rewrite title_key_lower. apply title_key_strip.
Qed.

Lemma lower_nonempty (s : str) : s <> [] -> lower s <> [].
Proof. destruct s; [congruence | discriminate]. Qed.

(** The key of a title that is stripped and not empty is not empty. *)
Lemma title_key_nonempty (x : str) :
  strip x <> [] -> title_key_of (strip x) <> [].
Proof.
  intros H. unfold title_key_of. rewrite strip_idem.
  apply lower_nonempty, H.
Qed.

(** The keys [titles_of] collects: the keys of the rows that are not
    empty. *)
Lemma titles_of_spec (rows : list (gmap str str)) (acc : gset str) :
  titles_of rows acc
  = acc ∪ list_to_set (List.filter nonempty (map key_of_row rows)).
Proof.
  revert acc. induction rows as [|r rows IH]; intros acc.
  - cbn. set_solver.
  - cbn [titles_of map List.filter]. rewrite IH. fold (key_of_row r).
    destruct (nonempty (key_of_row r)); cbn [list_to_set]; set_solver.
Qed.

Lemma titles_of_app (a b : list (gmap str str)) :
  titles_of (a ++ b) ∅ = titles_of a ∅ ∪ titles_of b ∅.
Proof.
  rewrite !titles_of_spec, map_app, List.filter_app, list_to_set_app_L.
  set_solver.
Qed.

Lemma titles_of_safe_rows (rows : list (gmap str str)) :
  titles_of (map SnapshotMergeRun.safe_row rows) ∅ = titles_of rows ∅.
Proof.
  rewrite !titles_of_spec, map_map. reflexivity.
Qed.

End Keys.

(** * Runs of the snapshot-merge variant *)

Section SnapshotRuns.
Import SnapshotMerge SnapshotMergeRun.
Variable L : Lib.

(** Every candidate the extractor emits has a stripped title that is not
    empty. *)
Lemma read_table_row_title (r : Tr) (e : Entry) :
  read_table_row L r = Some e -> strip (e_title e) = e_title e.
Proof.
  unfold read_table_row. destruct (tr_tds r) as [|td0 rest]; [discriminate|].
  destruct (tr_anchor r) as [a|]; intros [= <-]; cbn.
  - apply strip_idem.
  - destruct rest; [reflexivity | apply strip_idem].
Qed.

Lemma table_rows_titles (trs : list Tr) :
  Forall (fun e => e_title e <> [] /\ strip (e_title e) = e_title e)
         (table_rows L trs).
Proof.
  induction trs as [|r trs IH]; [constructor|]. cbn [table_rows].
  destruct (read_table_row L r) as [e|] eqn:E; [|exact IH].
  destruct (nonempty (e_title e)) eqn:En; [|exact IH].
  constructor; [|exact IH]. split.
  - destruct (e_title e); [discriminate | discriminate].
  - eapply read_table_row_title, E.
Qed.

Lemma fallback_loop_stripped (seen : gset (str * str)) (anchors : list Anchor) :
  Forall (fun e => e_title e <> [] /\ strip (e_title e) = e_title e)
         (fallback_loop L seen anchors).
Proof.
  revert seen. induction anchors as [|a anchors IH]; intros seen;
    [constructor|].
  cbn [fallback_loop].
  destruct (nonempty (normalize_text (a_inner_text a))) eqn:E;
    cbn [andb]; [|apply IH].
  destruct (bool_decide _); cbn [negb]; [apply IH|].
  constructor; [|apply IH]. cbn. split; [|apply strip_idem].
  destruct (normalize_text (a_inner_text a)); discriminate.
Qed.

Lemma extract_titles (page : ListingPage) :
  Forall (fun e => e_title e <> [] /\ strip (e_title e) = e_title e)
         (extract_entries_from_listing L page).
Proof.
  unfold extract_entries_from_listing.
  destruct (lp_table page); [apply table_rows_titles
                            | apply fallback_loop_stripped].
Qed.

Lemma stripped_key_nonempty (e : Entry) :
  e_title e <> [] /\ strip (e_title e) = e_title e ->
  nonempty (title_key_of (e_title e)) = true.
Proof.
  intros [Hne Hs]. unfold title_key_of. rewrite Hs.
  destruct (e_title e); [congruence | reflexivity].
Qed.

Variable w : World.

Lemma key_of_new_row (n : nat) (e : Entry) :
  key_of_row (new_row L w n e) = title_key_of (e_title e).
Proof. reflexivity. Qed.

(** The dedup set after the loop: the set at start plus the keys of the
    new entries, which are pairwise distinct and were not in the set. *)
Lemma process_entries_keys (entries : list Entry) (n : nat) (st : LoopState) :
  let st' := process_entries L w n st entries in
  exists rows,
    new_entries st' = new_entries st ++ rows
    /\ new_master st' = new_master st ++ rows
    /\ existing_titles st'
       = existing_titles st ∪ list_to_set (map key_of_row rows)
    /\ NoDup (map key_of_row rows)
    /\ Forall (fun k => k ∉ existing_titles st) (map key_of_row rows)
    /\ Forall (fun k => exists e, In e entries /\ k = title_key_of (e_title e))
              (map key_of_row rows)
    /\ Forall (fun e => title_key_of (e_title e) ∈ existing_titles st')
              entries.
Proof.
  cbv zeta. revert n st.
  induction entries as [|e entries IH]; intros n st.
  - exists []. cbn. rewrite !app_nil_r.
    repeat split; try constructor. set_solver.
  - cbn [process_entries].
    destruct (IH (S n) (process_entry L w n st e))
      as (rows & He & Hm & Ht & Hnd & Hnew & Hfrom & Hall).
    destruct (snapshot_process_entry_cases L w n st e)
      as [[Hin Hs]|(Hnin & Ht1 & Hm1 & He1 & _)].
    + rewrite Hs in *. exists rows.
      repeat split; try assumption.
      * eapply Forall_impl; [exact Hfrom|]. intros k (e' & Hin' & ->).
        exists e'. split; [right; exact Hin' | reflexivity].
      * constructor; [|exact Hall]. rewrite Ht. set_solver.
    + exists (new_row L w n e :: rows).
      rewrite He, Hm, Ht, He1, Hm1, Ht1, <- !app_assoc.
      cbn [app map list_to_set]. rewrite key_of_new_row.
      repeat split.
      * set_solver.
      * constructor; [|exact Hnd]. intros Hin.
        rewrite Forall_forall in Hnew. specialize (Hnew _ Hin).
        rewrite Ht1 in Hnew. set_solver.
      * constructor; [exact Hnin|].
        eapply Forall_impl; [exact Hnew|]. intros k Hk.
        rewrite Ht1 in Hk. set_solver.
      * constructor; [exists e; split; [left|]; reflexivity|].
        eapply Forall_impl; [exact Hfrom|]. intros k (e' & Hin' & ->).
        exists e'. split; [right; exact Hin' | reflexivity].
      * constructor; [|rewrite Ht, Ht1 in Hall; exact Hall].
        set_solver.
Qed.

(** When the keys of the candidates are not empty, every key of the dedup
    set stays a key [titles_of] finds in the catalog in memory, and after
    the loop the key of every candidate is in the set. *)
Lemma process_entries_covered (entries : list Entry) (n : nat) (st : LoopState) :
  Forall (fun e => nonempty (title_key_of (e_title e)) = true) entries ->
  existing_titles st ⊆ titles_of (new_master st) ∅ ->
  let st' := process_entries L w n st entries in
  existing_titles st ⊆ existing_titles st'
  /\ existing_titles st' ⊆ titles_of (new_master st') ∅
  /\ Forall (fun e => title_key_of (e_title e) ∈ existing_titles st') entries.
Proof.
  cbv zeta. intros H. revert n st.
  induction H as [|e entries He _ IH]; intros n st Hsub.
  - cbn. repeat split; [set_solver | exact Hsub | constructor].
  - cbn [process_entries].
    assert (Hstep : existing_titles st ⊆ existing_titles (process_entry L w n st e)
                    /\ existing_titles (process_entry L w n st e)
                       ⊆ titles_of (new_master (process_entry L w n st e)) ∅
                    /\ title_key_of (e_title e)
                       ∈ existing_titles (process_entry L w n st e)).
    { destruct (snapshot_process_entry_cases L w n st e)
        as [[Hin ->]|(_ & Ht1 & Hm1 & _)].
      - repeat split; [set_solver | exact Hsub | exact Hin].
      - rewrite Ht1, Hm1, titles_of_app.
        assert (Hrow : titles_of [new_row L w n e] ∅
                       = {[ title_key_of (e_title e) ]}).
        { rewrite titles_of_spec. cbn [map List.filter].
          rewrite key_of_new_row, He. cbn [list_to_set foldr].
          clear. set_solver. }
        rewrite Hrow. clear -Hsub. repeat split; set_solver. }
    destruct Hstep as (H1 & H2 & H3).
    destruct (IH (S n) (process_entry L w n st e) H2) as (K1 & K2 & K3).
    repeat split; [set_solver | exact K2 |].
    constructor; [set_solver | exact K3].
Qed.

(** A candidate whose key is known leaves the state as it is. *)
Lemma process_entries_known (entries : list Entry) (n : nat) (st : LoopState) :
  Forall (fun e => title_key_of (e_title e) ∈ existing_titles st) entries ->
  process_entries L w n st entries = st.
Proof.
  intros H. revert n. induction H as [|e entries He _ IH]; intros n;
    [reflexivity|].
  cbn [process_entries]. unfold process_entry.
  rewrite bool_decide_eq_true_2 by exact He. apply IH.
Qed.

(** A run that returns, by cases: it found no entry and exited, or it
    loaded the catalog and ran the loop over the first candidates. *)
Lemma main_cases (fs : gmap str str) (run : Run) :
  main L w fs = Ok run ->
  (extract_entries_from_listing L (listing w) = []
   /\ master_rows run = [] /\ run_entries run = []
   /\ final run = {| existing_titles := ∅; new_master := [];
                     new_entries := []; trace := [Goto BASE_URL] |}
   /\ effects run = [Goto BASE_URL])
  \/ (extract_entries_from_listing L (listing w) <> []
      /\ load_master_csv fs MASTER_CSV = Ok (master_rows run)
      /\ run_entries run
         = firstn NUM_ENTRIES (extract_entries_from_listing L (listing w))
      /\ final run
         = process_entries L w 0 (start_state (master_rows run))
                           (run_entries run)
      /\ effects run
         = trace (final run)
           ++ write_csv MASTER_CSV (new_master (final run))
           ++ write_json L NEW_JSON (new_entries (final run))).
Proof.
  unfold main.
  destruct (extract_entries_from_listing L (listing w)) as [|e0 es] eqn:Ex.
  - intros H. left.
    assert (Hrun : run = _)
      by (symmetry; exact (f_equal (fun r => match r with
                                             | Ok x => x
                                             | Raise _ => run
                                             end) H)).
    clear H. subst run. repeat split.
  - set (entries := firstn NUM_ENTRIES (e0 :: es)).
    destruct (load_master_csv fs MASTER_CSV) as [rows0|ex];
      unfold res_bind; [|discriminate].
    intros H. right.
    assert (Hrun : run = _)
      by (symmetry; exact (f_equal (fun r => match r with
                                             | Ok x => x
                                             | Raise _ => run
                                             end) H)).
    clear H. subst run. repeat split. discriminate.
Qed.

(** The catalog file a run leaves, when it found entries. *)
Lemma catalog_after_run (fs : gmap str str) (run : Run) :
  main L w fs = Ok run ->
  extract_entries_from_listing L (listing w) <> [] ->
  apply_effects fs (effects run) !! MASTER_CSV
  = Some (catalog_text (new_master (final run))).
Proof.
  intros Hm Hne.
  destruct (main_cases fs run Hm) as [(Hx & _)|(_ & _ & _ & Hf & He)];
    [contradiction|].
  rewrite He, apply_effects_app, apply_effects_app.
  rewrite (apply_effects_other NEW_JSON);
    [|discriminate|apply write_json_effects].
  apply write_csv_result.
Qed.

End SnapshotRuns.

(** The first candidates are candidates. *)
Lemma firstn_In {A : Type} (n : nat) (l : list A) (x : A) :
  In x (firstn n l) -> In x l.
Proof.
  intros H. rewrite <- (firstn_skipn n l). apply in_or_app. left. exact H.
Qed.

(** X3. The dedup key is a normal form of a title: stripping the title or
    changing its case first gives the same key, and the key of a key is the
    key itself. *)
Theorem title_key_normal_form (s : str) :
  title_key_of (strip s) = title_key_of s
  /\ title_key_of (lower s) = title_key_of s
  /\ title_key_of (title_key_of s) = title_key_of s.
Proof.
  split; [apply title_key_strip|].
  split; [apply title_key_lower | apply title_key_idem].
Qed.

(** X4. In a run of the snapshot-merge variant that returns, the dedup set
    after the loop is the set of the keys loaded from the catalog plus the
    keys of the new entries; the keys of the new entries are pairwise
    distinct, none of them was loaded from the catalog, and each is the key
    of a title that is not empty. *)
Theorem snapshot_new_entries_unique (L : Lib) (w : SnapshotMergeRun.World)
        (fs : gmap str str) :
  match SnapshotMergeRun.main L w fs with
  | Raise _ => True
  | Ok run =>
      let loaded := titles_of (SnapshotMergeRun.master_rows run) ∅ in
      let keys := map key_of_row
                      (SnapshotMergeRun.new_entries
                         (SnapshotMergeRun.final run)) in
      SnapshotMergeRun.existing_titles (SnapshotMergeRun.final run)
      = loaded ∪ list_to_set keys
      /\ NoDup keys
      /\ Forall (fun k => (k ∉ loaded) /\ k <> []) keys
  end.
Proof.
  destruct (SnapshotMergeRun.main L w fs) as [run|ex] eqn:E; [|exact I].
  cbv zeta.
  destruct (main_cases L w fs run E)
    as [(_ & Hmr & _ & Hf & _)|(_ & _ & Hent & Hf & _)].
  - rewrite Hmr, Hf. cbn.
    repeat split; constructor.
  - destruct (process_entries_keys L w (SnapshotMergeRun.run_entries run) 0
                (start_state (SnapshotMergeRun.master_rows run)))
      as (rows & He & _ & Ht & Hnd & Hnew & Hfrom & _).
    rewrite <- Hf in He, Ht. cbn in He, Ht. rewrite He.
    repeat split; [exact Ht | exact Hnd |].
    apply Forall_forall. intros k Hk.
    rewrite Forall_forall in Hnew, Hfrom.
    split; [exact (Hnew k Hk)|].
    destruct (Hfrom k Hk) as (e & Hin & ->).
    assert (He' : In e (SnapshotMerge.extract_entries_from_listing
                          L (SnapshotMergeRun.listing w)))
      by (rewrite Hent in Hin; exact (firstn_In _ _ _ Hin)).
    pose proof (extract_titles L (SnapshotMergeRun.listing w)) as Hx.
    rewrite List.Forall_forall in Hx.
    pose proof (stripped_key_nonempty e (Hx e He')) as Hn.
    destruct (title_key_of (e_title e)); [discriminate | discriminate].
Qed.

(** A second run on the files of a first one, against the same listing:
    when the catalog of the first run is plain and its fields are within
    the reader's limit, it is read back as written and every candidate is
    known. *)
Lemma second_run_state (L : Lib) (w w' : SnapshotMergeRun.World)
      (fs : gmap str str) (run : SnapshotMergeRun.Run) :
  SnapshotMergeRun.main L w fs = Ok run ->
  SnapshotMergeRun.listing w' = SnapshotMergeRun.listing w ->
  Forall plain_row
         (SnapshotMergeRun.new_master (SnapshotMergeRun.final run)) ->
  Forall fits_row
         (SnapshotMergeRun.new_master (SnapshotMergeRun.final run)) ->
  exists run',
    SnapshotMergeRun.main L w'
      (apply_effects fs (SnapshotMergeRun.effects run)) = Ok run'
    /\ SnapshotMergeRun.new_entries (SnapshotMergeRun.final run') = []
    /\ SnapshotMergeRun.new_master (SnapshotMergeRun.final run')
       = map SnapshotMergeRun.safe_row
             (SnapshotMergeRun.new_master (SnapshotMergeRun.final run)).
Proof.
  intros Hm Hl Hplain Hfit.
  destruct (main_cases L w fs run Hm)
    as [(Hx & _ & _ & Hf & _)|(Hx & _ & Hent & Hf & _)].
  - unfold SnapshotMergeRun.main. rewrite Hl, Hx.
    eexists. split; [reflexivity|]. rewrite Hf. split; reflexivity.
  - pose proof (catalog_after_run L w fs run Hm Hx) as Hfile.
    set (nm := SnapshotMergeRun.new_master (SnapshotMergeRun.final run)) in *.
    set (entries := SnapshotMergeRun.run_entries run) in *.
    assert (Hkeys : Forall (fun e => nonempty (title_key_of (e_title e)) = true)
                           entries).
    { apply List.Forall_forall. intros e Hin.
      apply stripped_key_nonempty.
      pose proof (extract_titles L (SnapshotMergeRun.listing w)) as Hx'.
      rewrite List.Forall_forall in Hx'. apply Hx'.
      rewrite Hent in Hin.
      exact (firstn_In _ _ _ Hin). }
    destruct (process_entries_covered L w entries 0
                (start_state (SnapshotMergeRun.master_rows run)) Hkeys)
      as (_ & Hsub & Hall); [cbn; set_solver|].
    rewrite <- Hf in Hsub, Hall. fold nm in Hsub.
    unfold SnapshotMergeRun.main. rewrite Hl.
    destruct (SnapshotMerge.extract_entries_from_listing
                L (SnapshotMergeRun.listing w)) as [|e0 es] eqn:Ex;
      [congruence|].
    unfold SnapshotMergeRun.load_master_csv. rewrite Hfile.
    rewrite (dict_reader_catalog_text nm Hplain Hfit). unfold res_bind.
    eexists. split; [reflexivity|]. cbn [SnapshotMergeRun.final].
    fold (start_state (map SnapshotMergeRun.safe_row nm)).
    rewrite <- Hent. fold entries.
    rewrite process_entries_known; [split; reflexivity|].
    cbn [start_state SnapshotMergeRun.existing_titles].
    rewrite titles_of_safe_rows.
    eapply Forall_impl; [exact Hall|]. intros e He. cbn beta in He.
    set_solver.
Qed.

(** X5. Idempotence for plain catalogs: when a run of the snapshot-merge
    variant returns and no field of its catalog holds a backslash or a line
    break or is longer than the reader's field size limit, a second run
    against the same listing, on the files the first run left, reads the
    catalog back as the rows written, skips every candidate and adds no
    entry. *)
Theorem second_run_adds_nothing (L : Lib) (w w' : SnapshotMergeRun.World)
        (fs : gmap str str) (run : SnapshotMergeRun.Run) :
  SnapshotMergeRun.main L w fs = Ok run ->
  SnapshotMergeRun.listing w' = SnapshotMergeRun.listing w ->
  Forall plain_row
         (SnapshotMergeRun.new_master (SnapshotMergeRun.final run)) ->
  Forall fits_row
         (SnapshotMergeRun.new_master (SnapshotMergeRun.final run)) ->
  exists run',
    SnapshotMergeRun.main L w'
      (apply_effects fs (SnapshotMergeRun.effects run)) = Ok run'
    /\ SnapshotMergeRun.new_entries (SnapshotMergeRun.final run') = []
    /\ SnapshotMergeRun.new_master (SnapshotMergeRun.final run')
       = map SnapshotMergeRun.safe_row
             (SnapshotMergeRun.new_master (SnapshotMergeRun.final run)).
Proof. apply second_run_state. Qed.

(** X5 on two runs over a listing with one plain entry, from an empty
    directory. *)
Lemma second_run_adds_nothing_witness :
  exists run run',
    SnapshotMergeRun.main Sample.lib Sample.plain_world ∅ = Ok run
    /\ SnapshotMergeRun.main Sample.lib Sample.plain_world
         (apply_effects ∅ (SnapshotMergeRun.effects run)) = Ok run'
    /\ length (SnapshotMergeRun.new_entries (SnapshotMergeRun.final run)) = 1
    /\ SnapshotMergeRun.new_entries (SnapshotMergeRun.final run') = [].
Proof.
  assert (H : exists run,
             SnapshotMergeRun.main Sample.lib Sample.plain_world ∅ = Ok run
             /\ Forall plain_row
                  (SnapshotMergeRun.new_master (SnapshotMergeRun.final run))
             /\ Forall fits_row
                  (SnapshotMergeRun.new_master (SnapshotMergeRun.final run))
             /\ length (SnapshotMergeRun.new_entries
                          (SnapshotMergeRun.final run)) = 1).
  { eexists. split; [reflexivity|].
    split; [apply plain_rows_check; vm_compute; reflexivity|].
    split; [apply fits_rows_check; vm_compute; reflexivity | reflexivity]. }
  destruct H as (run & E & Hplain & Hfit & Hlen).
  destruct (second_run_adds_nothing Sample.lib Sample.plain_world
              Sample.plain_world ∅ run E eq_refl Hplain Hfit)
    as (run' & Hrun' & Hnone & _).
  exists run, run'. repeat split; [exact E | exact Hrun' | exact Hlen | exact Hnone].
Defined.

(** * The append-only loop: what a run never does, and what it keeps *)

Section AppendOnlyRuns.
Import AppendOnly AppendOnlyRun.
Variable L : Lib.
Variable w : World.

(** No iteration adds a document to the files on disk. *)
Lemma process_entry_files (idx : nat) (st : RunState) (e : Entry) :
  files (process_entry L w idx st e) = files st.
Proof.
  unfold process_entry.
  destruct (bool_decide _); [reflexivity|].
  destruct (try_block_init L w idx (e_link e) (title_raw_of idx e))
    as (_ & _ & Hs).
  fold (candidate_locals L w idx e) in Hs.
  destruct (csv_writerow w idx) as [[]|ex];
    [destruct (csv_flush w idx) as [[]|ex']|];
    cbn [files]; rewrite Hs; apply app_nil_r.
Qed.

Lemma process_entries_files (entries : list Entry) (idx : nat) (st : RunState) :
  files (process_entries L w idx st entries) = files st.
Proof.
  revert idx st. induction entries as [|e entries IH]; intros idx st;
    [reflexivity|].
  cbn [process_entries]. rewrite IH. apply process_entry_files.
Qed.

(** The keys of the appended rows stay pairwise distinct and outside the
    set loaded at start. *)
Lemma process_entry_fresh (T0 : gset str) (idx : nat) (st : RunState)
      (e : Entry) :
  tracks T0 st ->
  fresh_keys T0 (appended st) ->
  fresh_keys T0 (appended (process_entry L w idx st e)).
Proof.
  intros [HT _] [Hnd Hnew].
  destruct (process_entry_cases L w idx st e) as [[_ ->]|[Hk H]];
    [split; assumption|].
  destruct H as [(_ & _ & _ & _ & ->)
                |[(_ & _ & _ & _ & _ & ->)|(_ & _ & _ & _ & _ & ->)]];
    [split; assumption | split; assumption |].
  destruct (candidate_row_fields L w idx e) as (Ht & _).
  assert (Hkey : key_of_row (candidate_row L w idx e)
                 = title_key_of (title_raw_of idx e))
    by (unfold key_of_row; rewrite Ht; reflexivity).
  rewrite HT in Hk. unfold fresh_keys. rewrite map_app. cbn [map].
  rewrite Hkey. split.
  - apply NoDup_app. split; [exact Hnd|]. split; [|apply NoDup_singleton].
    intros k Hin Hin'. apply list_elem_of_singleton in Hin'. subst k.
    apply Hk. apply elem_of_union_r, elem_of_list_to_set. exact Hin.
  - apply Forall_app. split; [exact Hnew|]. constructor; [|constructor].
    intros Hin. apply Hk. apply elem_of_union_l. exact Hin.
Qed.

Lemma process_entries_fresh (T0 : gset str) (entries : list Entry)
      (idx : nat) (st : RunState) :
  tracks T0 st ->
  fresh_keys T0 (appended st) ->
  fresh_keys T0 (appended (process_entries L w idx st entries)).
Proof.
  revert idx st. induction entries as [|e entries IH]; intros idx st HT HF;
    [exact HF|].
  cbn [process_entries]. apply IH.
  - apply process_entry_tracks, HT.
  - apply process_entry_fresh; assumption.
Qed.

(** No row handed to the catalog file has a key read at start. *)
Lemma process_entry_written_new (T0 : gset str) (idx : nat) (st : RunState)
      (e : Entry) :
  tracks T0 st ->
  Forall (fun k => k ∉ T0) (map key_of_row (written st)) ->
  Forall (fun k => k ∉ T0)
         (map key_of_row (written (process_entry L w idx st e))).
Proof.
  intros [HT _] Hnew.
  destruct (process_entry_cases L w idx st e) as [[_ ->]|[Hk H]];
    [assumption|].
  destruct (candidate_row_fields L w idx e) as (Ht & _).
  assert (Hkey : key_of_row (candidate_row L w idx e)
                 = title_key_of (title_raw_of idx e))
    by (unfold key_of_row; rewrite Ht; reflexivity).
  assert (Hrow : Forall (fun k => k ∉ T0)
                   (map key_of_row (written st ++ [candidate_row L w idx e]))).
  { rewrite map_app. cbn [map]. rewrite Hkey.
    apply Forall_app. split; [exact Hnew|]. constructor; [|constructor].
    intros Hin. apply Hk. rewrite HT. apply elem_of_union_l. exact Hin. }
  destruct H as [(_ & _ & _ & -> & _)
                |[(_ & _ & _ & _ & -> & _)|(_ & _ & _ & _ & -> & _)]];
    assumption.
Qed.

Lemma process_entries_written_new (T0 : gset str) (entries : list Entry)
      (idx : nat) (st : RunState) :
  tracks T0 st ->
  Forall (fun k => k ∉ T0) (map key_of_row (written st)) ->
  Forall (fun k => k ∉ T0)
         (map key_of_row (written (process_entries L w idx st entries))).
Proof.
  revert idx st. induction entries as [|e entries IH]; intros idx st HT HF;
    [exact HF|].
  cbn [process_entries]. apply IH.
  - apply process_entry_tracks, HT.
  - apply process_entry_written_new; assumption.
Qed.

(** When every flush returns, the rows handed to the catalog file are the
    appended rows. *)
Lemma process_entry_flushed (idx : nat) (st : RunState) (e : Entry) :
  (forall i, csv_flush w i = Ok tt) ->
  written st = appended st ->
  written (process_entry L w idx st e)
  = appended (process_entry L w idx st e).
Proof.
  intros Hfl Heq.
  destruct (process_entry_cases L w idx st e) as [[_ ->]|[_ H]];
    [assumption|].
  destruct H as [(_ & _ & _ & -> & ->)
                |[(_ & [ex Hex] & _)|(_ & _ & _ & _ & -> & ->)]].
  - exact Heq.
  - rewrite Hfl in Hex. discriminate Hex.
  - rewrite Heq. reflexivity.
Qed.

Lemma process_entries_flushed (entries : list Entry) (idx : nat)
      (st : RunState) :
  (forall i, csv_flush w i = Ok tt) ->
  written st = appended st ->
  written (process_entries L w idx st entries)
  = appended (process_entries L w idx st entries).
Proof.
  intros Hfl. revert idx st.
  induction entries as [|e entries IH]; intros idx st Heq; [exact Heq|].
  cbn [process_entries]. apply IH, process_entry_flushed; assumption.
Qed.

(** Each iteration hands at most one row to the catalog file, and a row
    counts as appended only after it was written. *)
Lemma process_entries_bounded (entries : list Entry) (idx : nat)
      (st : RunState) :
  let st' := process_entries L w idx st entries in
  length (written st') <= length (written st) + length entries
  /\ length (appended st') + length (written st)
     <= length (appended st) + length (written st').
Proof.
  cbv zeta. revert idx st.
  induction entries as [|e entries IH]; intros idx st; [cbn; lia|].
  cbn [process_entries length].
  destruct (IH (S idx) (process_entry L w idx st e)) as [H1 H2].
  destruct (process_entry_cases L w idx st e) as [[_ Hs]|[_ H]].
  - rewrite Hs in *. lia.
  - destruct H as [(_ & _ & _ & Hw & Ha)
                  |[(_ & _ & _ & _ & Hw & Ha)|(_ & _ & _ & _ & Hw & Ha)]];
      rewrite Hw, Ha in *; rewrite ?length_app in *; cbn [length] in *; lia.
Qed.

End AppendOnlyRuns.

(** X6. The append-only variant writes no document to disk: whatever the
    pages hold and whatever the downloads would answer, the files of a run
    are empty. *)
Theorem append_only_never_downloads (L : Lib) (w : AppendOnlyRun.World) :
  AppendOnlyRun.files (AppendOnlyRun.main L w) = []
  /\ forall (idx : nat) (e : Entry),
       AppendOnlyRun.saved (AppendOnlyRun.candidate_locals L w idx e) = [].
Proof.
  split.
  - unfold AppendOnlyRun.main.
    destruct (AppendOnly.listing_entries L (AppendOnlyRun.listing w));
      [reflexivity|].
    destruct (AppendOnlyRun.open_append w); [|reflexivity].
    apply process_entries_files.
  - intros idx e.
    apply (try_block_init L w idx (e_link e) (AppendOnlyRun.title_raw_of idx e)).
Qed.

(** X7. In a run of the append-only variant no row handed to the catalog
    file has a key that was read from the catalog at start, and the keys of
    the rows whose append completed (write and flush returned) are pairwise
    distinct. When every flush of the run returns, the rows handed to the
    file are exactly those rows, so that their keys are pairwise distinct;
    a flush that raises leaves its row in the file and its key out of the
    dedup set, and the same title can then be handed over twice. *)
Theorem append_only_rows_unique (L : Lib) (w : AppendOnlyRun.World) :
  let run := AppendOnlyRun.main L w in
  let T0 := AppendOnlyRun.read_existing_titles w in
  Forall (fun k => k ∉ T0) (map key_of_row (AppendOnlyRun.written run))
  /\ NoDup (map key_of_row (AppendOnlyRun.appended run))
  /\ Forall (fun k => k ∉ T0) (map key_of_row (AppendOnlyRun.appended run))
  /\ ((forall i, AppendOnlyRun.csv_flush w i = Ok tt) ->
      AppendOnlyRun.written run = AppendOnlyRun.appended run
      /\ NoDup (map key_of_row (AppendOnlyRun.written run))).
Proof.
  cbv zeta.
  assert (H0 : fresh_keys (AppendOnlyRun.read_existing_titles w)
                 (AppendOnlyRun.appended (AppendOnlyRun.init_state w)))
    by (split; constructor).
  assert (Hfresh : fresh_keys (AppendOnlyRun.read_existing_titles w)
                     (AppendOnlyRun.appended (AppendOnlyRun.main L w))).
  { unfold AppendOnlyRun.main.
    destruct (AppendOnly.listing_entries L (AppendOnlyRun.listing w));
      [exact H0|].
    destruct (AppendOnlyRun.open_append w); [|exact H0].
    apply process_entries_fresh; [apply init_state_tracks | exact H0]. }
  assert (Hflushed : (forall i, AppendOnlyRun.csv_flush w i = Ok tt) ->
                     AppendOnlyRun.written (AppendOnlyRun.main L w)
                     = AppendOnlyRun.appended (AppendOnlyRun.main L w)).
  { intros Hfl. unfold AppendOnlyRun.main.
    destruct (AppendOnly.listing_entries L (AppendOnlyRun.listing w));
      [reflexivity|].
    destruct (AppendOnlyRun.open_append w); [|reflexivity].
    apply process_entries_flushed; [exact Hfl | reflexivity]. }
  destruct Hfresh as [Hnd Hnew].
  split; [|split; [exact Hnd|split; [exact Hnew|]]].
  - unfold AppendOnlyRun.main.
    destruct (AppendOnly.listing_entries L (AppendOnlyRun.listing w));
      [constructor|].
    destruct (AppendOnlyRun.open_append w); [|constructor].
    apply process_entries_written_new;
      [apply init_state_tracks | constructor].
  - intros Hfl. split; [exact (Hflushed Hfl)|].
    rewrite (Hflushed Hfl). exact Hnd.
Qed.

(** X7 on a listing that shows one title twice, every flush returning:
    one row is handed to the catalog file. *)
Lemma append_only_rows_unique_witness :
  let run := AppendOnlyRun.main Sample.lib
               (Sample.ao_world [Sample.circular_a; Sample.circular_a] None
                                (Ok Sample.embed_page) (Ok tt) (Ok tt)) in
  AppendOnlyRun.written run = AppendOnlyRun.appended run
  /\ NoDup (map key_of_row (AppendOnlyRun.written run))
  /\ length (AppendOnlyRun.written run) = 1.
Proof.
  cbv zeta.
  destruct (append_only_rows_unique Sample.lib
              (Sample.ao_world [Sample.circular_a; Sample.circular_a] None
                               (Ok Sample.embed_page) (Ok tt) (Ok tt)))
    as (_ & _ & _ & H).
  destruct (H (fun _ => eq_refl)) as [Heq Hnd].
  split; [exact Heq|]. split; [exact Hnd|]. reflexivity.
Defined.

Section Bounds.
Variable L : Lib.

Lemma firstn_length_le {A : Type} (n : nat) (l : list A) :
  length (firstn n l) <= n.
Proof. rewrite length_firstn. lia. Qed.

(** Each iteration of the snapshot-merge loop adds at most one entry, and
    loads one detail page for each entry it adds. *)
Lemma snapshot_process_entries_bounded (w : SnapshotMergeRun.World)
      (entries : list Entry) (n : nat) (st : SnapshotMergeRun.LoopState) :
  let st' := SnapshotMergeRun.process_entries L w n st entries in
  length (SnapshotMergeRun.new_entries st')
  <= length (SnapshotMergeRun.new_entries st) + length entries
  /\ length (SnapshotMergeRun.trace st')
     + length (SnapshotMergeRun.new_entries st)
     = length (SnapshotMergeRun.trace st)
       + length (SnapshotMergeRun.new_entries st').
Proof.
  cbv zeta. revert n st.
  induction entries as [|e entries IH]; intros n st; [cbn; lia|].
  cbn [SnapshotMergeRun.process_entries length].
  destruct (IH (S n) (SnapshotMergeRun.process_entry L w n st e)) as [H1 H2].
  destruct (snapshot_process_entry_cases L w n st e)
    as [[_ Hs]|(_ & _ & _ & He & Ht)].
  - rewrite Hs in *. lia.
  - rewrite He, Ht in *. rewrite ?length_app in *. cbn [length] in *. lia.
Qed.

End Bounds.

(** X8. A run records at most [NUM_ENTRIES] rows. In the snapshot-merge
    variant a run that returns has at most ten new entries, and its page
    loads are the listing and one detail page for each new entry; in the
    append-only variant at most ten rows are handed to the catalog file,
    the appended rows are no more than the written ones, and the counter
    is at most ten. *)
Theorem rows_per_run_bounded (L : Lib) (ws : SnapshotMergeRun.World)
        (wa : AppendOnlyRun.World) (fs : gmap str str) :
  match SnapshotMergeRun.main L ws fs with
  | Raise _ => True
  | Ok run =>
      length (SnapshotMergeRun.new_entries (SnapshotMergeRun.final run))
      <= NUM_ENTRIES
      /\ length (SnapshotMergeRun.trace (SnapshotMergeRun.final run))
         = 1 + length (SnapshotMergeRun.new_entries
                         (SnapshotMergeRun.final run))
  end
  /\ length (AppendOnlyRun.written (AppendOnlyRun.main L wa)) <= NUM_ENTRIES
  /\ length (AppendOnlyRun.appended (AppendOnlyRun.main L wa))
     <= length (AppendOnlyRun.written (AppendOnlyRun.main L wa))
  /\ AppendOnlyRun.added (AppendOnlyRun.main L wa) <= NUM_ENTRIES.
Proof.
  split.
  - destruct (SnapshotMergeRun.main L ws fs) as [run|ex] eqn:E; [|exact I].
    destruct (main_cases L ws fs run E)
      as [(_ & _ & _ & Hf & _)|(_ & _ & Hent & Hf & _)].
    + rewrite Hf. cbn. lia.
    + destruct (snapshot_process_entries_bounded L ws
                  (SnapshotMergeRun.run_entries run) 0
                  (start_state (SnapshotMergeRun.master_rows run)))
        as [H1 H2].
      rewrite <- Hf in H1, H2. cbn in H1, H2.
      assert (Hn : length (SnapshotMergeRun.run_entries run) <= NUM_ENTRIES)
        by (rewrite Hent; apply firstn_length_le).
      lia.
  - assert (H : length (AppendOnlyRun.written (AppendOnlyRun.main L wa))
                <= NUM_ENTRIES
                /\ length (AppendOnlyRun.appended (AppendOnlyRun.main L wa))
                   <= length (AppendOnlyRun.written (AppendOnlyRun.main L wa))).
    { unfold AppendOnlyRun.main.
      destruct (AppendOnly.listing_entries L (AppendOnlyRun.listing wa))
        as [|e0 es] eqn:El; [cbn; lia|].
      destruct (AppendOnlyRun.open_append wa); [|cbn; lia].
      destruct (process_entries_bounded L wa (AppendOnlyRun.candidates L wa) 1
                  (AppendOnlyRun.init_state wa)) as [H1 H2].
      cbn [AppendOnlyRun.init_state AppendOnlyRun.written
           AppendOnlyRun.appended length] in H1, H2.
      assert (Hn : length (AppendOnlyRun.candidates L wa) <= NUM_ENTRIES)
        by apply firstn_length_le.
      lia. }
    destruct H as [H1 H2]. split; [exact H1|]. split; [exact H2|].
    destruct (main_tracks L wa) as [_ Ha]. rewrite Ha. lia.
Qed.

(** * Where a found address comes from *)

Section Provenance.
Variable L : Lib.

Lemma startswith_lower (s p : str) :
  startswith s p = true -> startswith (lower s) (lower p) = true.
Proof.
  revert s. induction p as [|x p IH]; intros [|y s] H; try reflexivity;
    try discriminate H.
  cbn in H |- *. apply andb_true_iff in H as [Hxy Hs].
  apply Ascii.eqb_eq in Hxy. subst y. rewrite Ascii.eqb_refl. cbn.
  apply IH, Hs.
Qed.

Lemma contains_lower (p s : str) :
  contains p s = true -> contains (lower p) (lower s) = true.
Proof.
  induction s as [|c s IH]; intros H.
  - cbn in H |- *. rewrite orb_false_r in H |- *.
    apply (startswith_lower [] p), H.
  - cbn [contains] in H. apply orb_true_iff in H as [H|H].
    + cbn [lower map contains].
      change (map lower_char s) with (lower s).
      change (lower_char c :: lower s) with (lower (c :: s)).
      rewrite (startswith_lower _ _ H). reflexivity.
    + cbn [lower map contains]. change (map lower_char s) with (lower s).
      rewrite (IH H). apply orb_true_r.
Qed.

Lemma mentions_pdf_value (v : option str) :
  mentions_pdf v = true ->
  exists s, v = Some s /\ contains ".pdf" (lower s) = true.
Proof.
  destruct v as [s|]; [|discriminate]. cbn. intros H.
  apply andb_true_iff in H as [_ H]. eauto.
Qed.

Lemma first_pdf_attr_value (el : Element) (attrs : list str) (s : str) :
  first_pdf_attr el attrs = Ok (Some s) ->
  contains ".pdf" (lower s) = true.
Proof.
  induction attrs as [|attr attrs IH]; [discriminate|].
  cbn [first_pdf_attr]. destruct (get_attribute el attr) as [v|ex];
    cbn [res_bind]; [|discriminate].
  destruct (mentions_pdf v) eqn:E; [|exact IH].
  intros H. destruct (mentions_pdf_value v E) as (s' & -> & Hs).
  congruence.
Qed.

Lemma scan_attrs_value (el : Element) (attrs : list str) (s : str) :
  scan_attrs el attrs = Some s -> contains ".pdf" (lower s) = true.
Proof.
  induction attrs as [|attr attrs IH]; [discriminate|].
  cbn [scan_attrs].
  set (v := match get_attribute el attr with Ok v => v | Raise _ => None end).
  destruct (mentions_pdf v) eqn:E; [|exact IH].
  intros H. destruct (mentions_pdf_value v E) as (s' & Hv & Hs).
  congruence.
Qed.

Lemma selector_tier_value (p : Page) (sels : list str) (u : str) :
  selector_tier L p sels = Ok (Some u) -> pdf_address L p u.
Proof.
  induction sels as [|sel sels IH]; [discriminate|].
  cbn [selector_tier]. destruct (query_selector p sel) as [el|]; [|exact IH].
  destruct (first_pdf_attr el _) as [[s|]|ex] eqn:E; cbn [res_bind];
    [|exact IH|discriminate].
  intros H. exists s. split; [congruence|].
  apply (first_pdf_attr_value _ _ _ E).
Qed.

Lemma attribute_tier_value (p : Page) (els : list Element) (u : str) :
  attribute_tier L p els = Some u -> pdf_address L p u.
Proof.
  induction els as [|el els IH]; [discriminate|].
  cbn [attribute_tier]. destruct (scan_attrs el _) as [s|] eqn:E; [|exact IH].
  intros H. exists s. split; [congruence|].
  apply (scan_attrs_value _ _ _ E).
Qed.

Lemma decoded_value (p : Page) (m : option str) (u : str) :
  match m with
  | Some g =>
      if contains ".pdf" (unquote L g)
      then Some (urljoin L (page_url p) (unquote L g)) else None
  | None => None
  end = Some u ->
  pdf_address L p u.
Proof.
  destruct m as [g|]; [|discriminate].
  destruct (contains ".pdf" (unquote L g)) eqn:E; [|discriminate].
  intros H. exists (unquote L g). split; [congruence|].
  apply (contains_lower ".pdf" _ E).
Qed.

Lemma snapshot_viewer_tier_value (p : Page) (ifrs : list Element) (u : str) :
  SnapshotMerge.viewer_tier L p ifrs = Ok (Some u) -> pdf_address L p u.
Proof.
  induction ifrs as [|ifr ifrs IH]; [discriminate|].
  cbn [SnapshotMerge.viewer_tier].
  destruct (get_attribute ifr "src") as [v|ex]; cbn [res_bind]; [|discriminate].
  match goal with
  | |- match ?hit with Some _ => _ | None => _ end = _ -> _ =>
      destruct hit as [u'|] eqn:E; [|exact IH]
  end.
  intros H. assert (u' = u) by congruence. subst u'.
  destruct (_ && _) in E; [|discriminate].
  apply (decoded_value p _ u E).
Qed.

Lemma append_viewer_tier_value (p : Page) (ifrs : list Element) (u : str) :
  AppendOnly.viewer_tier L p ifrs = Ok (Some u) -> pdf_address L p u.
Proof.
  induction ifrs as [|ifr ifrs IH]; [discriminate|].
  cbn [AppendOnly.viewer_tier].
  destruct (get_attribute ifr "src") as [v|ex]; cbn [res_bind]; [|discriminate].
  match goal with
  | |- match ?hit with Some _ => _ | None => _ end = _ -> _ =>
      destruct hit as [u'|] eqn:E
  end.
  - intros H. assert (u' = u) by congruence. subst u'.
    destruct (_ && _) in E; [|discriminate].
    apply (decoded_value p _ u E).
  - match goal with
    | |- match ?hit with Some _ => _ | None => _ end = _ -> _ =>
        destruct hit as [u'|] eqn:E'; [|exact IH]
    end.
    intros H. assert (u' = u) by congruence. subst u'.
    destruct (_ || _) in E'; [|discriminate].
    apply (decoded_value p _ u E').
Qed.

End Provenance.

(** X9. Whatever [find_pdf_url_on_page] returns, in either variant, is the
    page address joined with a value that mentions [.pdf] when put in lower
    case: an attribute value of the page, or the decoded parameter of a
    viewer address. *)
Theorem found_address_mentions_pdf (L : Lib) (p : Page) :
  match SnapshotMerge.find_pdf_url_on_page L p with
  | Ok (Some u) => pdf_address L p u
  | _ => True
  end
  /\ match AppendOnly.find_pdf_url_on_page L p with
     | Ok (Some u) => pdf_address L p u
     | _ => True
     end.
Proof.
  split.
  - destruct (SnapshotMerge.find_pdf_url_on_page L p) as [[u|]|ex] eqn:E;
      [|exact I|exact I].
    unfold SnapshotMerge.find_pdf_url_on_page in E.
    destruct (selector_tier L p selectors) as [[u1|]|ex] eqn:E1;
      cbn [res_bind] in E; [| |discriminate].
    + assert (u1 = u) by congruence. subst u1.
      apply (selector_tier_value L p _ u E1).
    + destruct (attribute_tier L p _) as [u2|] eqn:E2.
      * assert (u2 = u) by congruence. subst u2.
        apply (attribute_tier_value L p _ u E2).
      * apply (snapshot_viewer_tier_value L p _ u E).
  - destruct (AppendOnly.find_pdf_url_on_page L p) as [[u|]|ex] eqn:E;
      [|exact I|exact I].
    unfold AppendOnly.find_pdf_url_on_page in E.
    destruct (selector_tier L p selectors) as [[u1|]|ex] eqn:E1;
      cbn [res_bind] in E; [| |discriminate].
    + assert (u1 = u) by congruence. subst u1.
      apply (selector_tier_value L p _ u E1).
    + destruct (attribute_tier L p _) as [u2|] eqn:E2.
      * assert (u2 = u) by congruence. subst u2.
        apply (attribute_tier_value L p _ u E2).
      * apply (append_viewer_tier_value L p _ u E).
Qed.

(** * The fallback tier *)

Section Fallback.
Variable L : Lib.

Lemma fallback_loop_distinct (seen : gset (str * str))
      (anchors : list Anchor) :
  NoDup (map pair_of_entry (fallback_loop L seen anchors))
  /\ Forall (fun k => k ∉ seen)
            (map pair_of_entry (fallback_loop L seen anchors)).
Proof.
  revert seen. induction anchors as [|a anchors IH]; intros seen;
    [split; constructor|].
  cbn [fallback_loop].
  set (title := normalize_text (a_inner_text a)).
  set (link := urljoin L BASE_URL (or_empty (a_href a))).
  destruct (nonempty title); cbn [andb]; [|apply IH].
  destruct (bool_decide ((title, link) ∈ seen)) eqn:E; cbn [negb];
    [apply IH|].
  apply bool_decide_eq_false in E.
  destruct (IH ({[ (title, link) ]} ∪ seen)) as [Hnd Hnew].
  cbn [map]. unfold pair_of_entry at 1 3. cbn [e_title e_link].
  split.
  - constructor; [|exact Hnd]. intros Hin.
    rewrite Forall_forall in Hnew. specialize (Hnew _ Hin).
    apply Hnew. apply elem_of_union_l, elem_of_singleton. reflexivity.
  - constructor; [exact E|].
    eapply Forall_impl; [exact Hnew|]. intros k Hk Hin. apply Hk.
    apply elem_of_union_r, Hin.
Qed.

End Fallback.

(** X10. The fallback tier lists each (title, link) pair once, and every
    entry it lists has a title: in the append-only variant whenever it
    runs, in the snapshot-merge variant on a page without table. *)
Theorem fallback_entries_distinct (L : Lib) (page : ListingPage) :
  (NoDup (map pair_of_entry (AppendOnly.fallback_extract_entries L page))
   /\ Forall (fun e => e_title e <> [])
             (AppendOnly.fallback_extract_entries L page))
  /\ match lp_table page with
     | Some _ => True
     | None =>
         NoDup (map pair_of_entry
                    (SnapshotMerge.extract_entries_from_listing L page))
         /\ Forall (fun e => e_title e <> [])
                   (SnapshotMerge.extract_entries_from_listing L page)
     end.
Proof.
  split.
  - split; [|exact (fallback_loop_titles L ∅ (lp_content_anchors page))].
    exact (proj1 (fallback_loop_distinct L ∅ (lp_content_anchors page))).
  - unfold SnapshotMerge.extract_entries_from_listing.
    destruct (lp_table page); [exact I|].
    split; [|exact (fallback_loop_titles L ∅ (lp_content_anchors page))].
    exact (proj1 (fallback_loop_distinct L ∅ (lp_content_anchors page))).
Qed.

(** * The catalog file has LF line ends *)

Section LineEnds.
Import SnapshotMerge SnapshotMergeRun.

Lemma no_break_no_cr (s : str) :
  Forall no_break s -> Forall (fun c => c <> Csv.CR) s.
Proof.
  intros H. eapply Forall_impl; [exact H|]. intros c Hc ->. discriminate Hc.
Qed.

Lemma written_lines_no_cr (ls : list (list str)) :
  Forall (fun fs => Forall (Forall no_break) fs) ls ->
  Forall (fun c => c <> Csv.CR)
         (concat (map (fun fs => row_text fs ++ [Csv.LF]) ls)).
Proof.
  induction 1 as [|fs ls Hfs _ IH]; [constructor|].
  cbn [map concat]. apply Forall_app. split; [|exact IH].
  apply Forall_app. split.
  - apply no_break_no_cr, row_text_no_break, Hfs.
  - constructor; [discriminate|constructor].
Qed.

End LineEnds.

(** X11. The catalog file [write_csv] leaves for rows none of whose fields
    holds a line break has LF line ends only: it holds no CR, and it reads
    as one line for the header and one for each row. *)
Theorem catalog_lf_only (rows : list (gmap str str)) :
  Forall no_break_row rows ->
  Forall (fun c => c <> Csv.CR) (catalog_text rows)
  /\ length (Csv.readlines (catalog_text rows)) = 1 + length rows.
Proof.
  intros H. destruct (catalog_text_lines rows H) as [-> Hls].
  assert (Hnb : Forall (fun fs => Forall (Forall no_break) fs)
                  (SnapshotMergeRun.headers
                   :: map (fun r => SnapshotMergeRun.dict_to_list
                                      (SnapshotMergeRun.safe_row r)) rows))
    by (eapply Forall_impl; [exact Hls|]; intros fs [_ Hfs]; exact Hfs).
  split.
  - apply written_lines_no_cr, Hnb.
  - rewrite (readlines_written _ [Csv.LF] Hnb) by (left; reflexivity).
    cbn [map length]. rewrite !length_map. reflexivity.
Qed.

(** X11 on a catalog of one row. *)
Lemma catalog_lf_only_witness :
  Forall (fun c => c <> Csv.CR) (catalog_text [ Sample.titled "Circular | A" ])
  /\ length (Csv.readlines (catalog_text [ Sample.titled "Circular | A" ])) = 2.
Proof.
  apply (catalog_lf_only [ Sample.titled "Circular | A" ]).
  repeat constructor.
Defined.

(** * The address the append-only variant records *)

Section RecordedAddress.
Import AppendOnly AppendOnlyRun.
Variable L : Lib.
Variable w : World.

Lemma truthy_none (v : option str) : truthy v = None -> or_empty v = [].
Proof. destruct v as [[|c s]|]; [reflexivity|discriminate|reflexivity]. Qed.

(** When the lines that look for the address raise, no address has been
    found yet. *)
Lemma resolve_block_raises (p : Page) (ex : exn) :
  fst (resolve_block L p init_locals) = Raise ex ->
  truthy (pdf_url (snd (resolve_block L p init_locals))) = None.
Proof.
  unfold resolve_block, bind, lift, read, set_pdf_url, ret.
  destruct (find_pdf_url_on_page L p) as [found|ex0]; [|reflexivity].
  cbn -[list_ascii_of_string truthy].
  destruct (truthy found) as [u|] eqn:Ef.
  - cbn -[truthy]. rewrite Ef. discriminate.
  - destruct (anchor_heuristic L p (query_selector_all p "a"))
      as [[u|]|ex1]; cbn -[truthy].
    + destruct (truthy (Some u)); [discriminate|].
      destruct (check_frames L (page_frames p)); discriminate.
    + rewrite Ef.
      destruct (check_frames L (page_frames p)); discriminate.
    + intros _. exact Ef.
Qed.

(** The address the [try] block leaves: the one found, joined with the
    page address once more. *)
Lemma try_block_pdf_url (idx : nat) (link title_raw : str) (p : Page) :
  goto w idx link = Ok p ->
  or_empty (pdf_url (snd (try_block L w idx link title_raw init_locals)))
  = match truthy (pdf_url (snd (resolve_block L p init_locals))) with
    | Some u => urljoin L (page_url p) u
    | None => []
    end.
Proof.
  intros Hg.
  pose proof (resolve_block_raises p) as Hr.
  unfold try_block, bind at 1, lift at 1. rewrite Hg.
  unfold bind at 1.
  destruct (resolve_block L p init_locals) as [[[]|ex] l1];
    cbn [fst snd] in Hr |- *.
  - unfold bind at 1, read.
    destruct (truthy (pdf_url l1)) as [u|] eqn:Et.
    + reflexivity.
    + cbn. apply truthy_none, Et.
  - rewrite (Hr ex eq_refl). apply truthy_none, (Hr ex eq_refl).
Qed.

End RecordedAddress.

(** X12. In the append-only variant, when the detail page of a candidate
    loads, the [pdf_link] of its row is the address the search found on
    the page, joined with the page address once more; it is empty when the
    search found none or raised. *)
Theorem append_only_recorded_address (L : Lib) (w : AppendOnlyRun.World)
        (idx : nat) (e : Entry) (p : Page) :
  AppendOnlyRun.goto w idx (e_link e) = Ok p ->
  get (AppendOnlyRun.candidate_row L w idx e) "pdf_link"
  = match AppendOnlyRun.truthy
            (AppendOnlyRun.pdf_url
               (snd (AppendOnlyRun.resolve_block L p
                       AppendOnlyRun.init_locals))) with
    | Some u => urljoin L (page_url p) u
    | None => []
    end.
Proof.
  intros Hg. unfold AppendOnlyRun.candidate_row.
  destruct (row_of_fields e (AppendOnlyRun.title_raw_of idx e)
              (AppendOnlyRun.candidate_locals L w idx e)) as (_ & -> & _).
  apply try_block_pdf_url, Hg.
Qed.

(** X12 on a candidate whose detail page embeds a document. *)
Lemma append_only_recorded_address_witness :
  get (AppendOnlyRun.candidate_row Sample.lib
         (Sample.ao_world [ Sample.circular_a ] None (Ok Sample.embed_page)
                          (Ok tt) (Ok tt))
         1 {| e_date := "Jan 01, 2024"; e_title := "Circular A";
              e_link := "https://www.sebi.gov.in/legal/circulars/a.html" |})
      "pdf_link"
  = ("https://www.sebi.gov.in/sebi_data/attachdocs/b.pdf" : str).
Proof.
  etransitivity.
  - apply (append_only_recorded_address Sample.lib
             (Sample.ao_world [ Sample.circular_a ] None
                              (Ok Sample.embed_page) (Ok tt) (Ok tt))
             1 _ Sample.embed_page).
    reflexivity.
  - reflexivity.
Defined.

(** * Sanitizing a name twice *)

Section Stable.
Import SnapshotMerge SnapshotMergeRun.

(** The output of the white-space substitution is spaced, and a spaced
    text is left as it is. *)
Lemma sub_runs_spaced (b : bool) (s : str) :
  spaced b (sub_runs isspace " " b s).
Proof.
  revert b. induction s as [|c s IH]; intros b; [exact I|].
  cbn [sub_runs]. destruct (isspace c) eqn:E.
  - destruct b; [apply IH|].
    cbn [spaced]. change (isspace " ") with true. cbv iota.
    repeat split. apply IH.
  - cbn [spaced]. rewrite E. apply IH.
Qed.

Lemma spaced_fixed (b : bool) (s : str) :
  spaced b s -> sub_runs isspace " " b s = s.
Proof.
  revert b. induction s as [|c s IH]; intros b H; [reflexivity|].
  cbn [spaced] in H. cbn [sub_runs]. destruct (isspace c) eqn:E.
  - destruct H as (Hc & Hb & H). subst b. rewrite (IH true H), Hc.
    reflexivity.
  - rewrite (IH false H). reflexivity.
Qed.

Lemma spaced_weaken (b : bool) (s : str) : spaced b s -> spaced false s.
Proof.
  destruct s as [|c s]; [trivial|]. cbn [spaced].
  destruct (isspace c); [|trivial]. intros (Hc & _ & H). auto.
Qed.

Lemma spaced_firstn (n : nat) (b : bool) (s : str) :
  spaced b s -> spaced b (firstn n s).
Proof.
  revert b s. induction n as [|n IH]; intros b [|c s] H; try exact I.
  cbn [firstn spaced] in H |- *. destruct (isspace c).
  - destruct H as (Hc & Hb & H). repeat split; auto.
  - apply IH, H.
Qed.

Lemma spaced_lstrip (b : bool) (s : str) : spaced b s -> spaced false (lstrip s).
Proof.
  revert b. induction s as [|c s IH]; intros b H; [exact I|].
  cbn [lstrip]. destruct (isspace c) eqn:E.
  - cbn [spaced] in H. rewrite E in H. apply (IH true), H.
  - apply (spaced_weaken b), H.
Qed.

(** What [rstrip] keeps is a prefix. *)
Lemma rstrip_prefix (s : str) : rstrip s = firstn (length (rstrip s)) s.
Proof.
  unfold rstrip. destruct (lstrip_split (rev s)) as (sp & Hs & _).
  apply (f_equal (@rev ascii)) in Hs.
  rewrite rev_involutive, rev_app_distr in Hs.
  set (a := rev (lstrip (rev s))) in *. clearbody a. subst s.
  rewrite firstn_app, firstn_all, Nat.sub_diag. cbn [firstn].
  rewrite app_nil_r. reflexivity.
Qed.

Lemma spaced_strip (b : bool) (s : str) : spaced b s -> spaced false (strip s).
Proof.
  intros H. unfold strip. rewrite rstrip_prefix.
  apply spaced_firstn, (spaced_lstrip b), H.
Qed.

Lemma spaced_app (b : bool) (s t : str) :
  spaced b s -> spaced false t ->
  match t with [] => True | c :: _ => isspace c = false end ->
  spaced b (s ++ t).
Proof.
  intros Hs Ht Hc. revert b Hs.
  induction s as [|c s IH]; intros b Hs.
  - destruct t as [|c t]; [exact I|]. cbn [app spaced] in Ht |- *.
    rewrite Hc in Ht |- *. exact Ht.
  - cbn [app spaced] in Hs |- *. destruct (isspace c).
    + destruct Hs as (H1 & H2 & H3). repeat split; auto.
    + apply IH, Hs.
Qed.

Lemma sub_runs_id (cls : ascii -> bool) (rep : ascii) (b : bool) (s : str) :
  Forall (fun c => cls c = false) s -> sub_runs cls rep b s = s.
Proof.
  intros H. revert b. induction H as [|c s Hc _ IH]; intros b; [reflexivity|].
  cbn [sub_runs]. rewrite Hc, IH. reflexivity.
Qed.

Lemma replace_id (a b : ascii) (s : str) :
  Forall (fun c => c <> a) s -> replace a b s = s.
Proof.
  induction 1 as [|c s Hc _ IH]; [reflexivity|].
  unfold replace in *. cbn [map]. rewrite IH.
  destruct (Ascii.eqb c a) eqn:E; [|reflexivity].
  apply Ascii.eqb_eq in E. contradiction.
Qed.

Lemma sanitized_not (a : ascii) (s : str) :
  isspace a = true -> a <> " "%char ->
  Forall sanitized s -> Forall (fun c => c <> a) s.
Proof.
  intros Ha Hn H. eapply Forall_impl; [exact H|].
  intros c [_ Hc] ->. apply Hn, Hc, Ha.
Qed.

(** What [safe_filename] returns is spaced and stripped, and not empty. *)
Lemma safe_filename_shape (s fallback : str) :
  spaced false (safe_filename s fallback)
  /\ strip (safe_filename s fallback) = safe_filename s fallback
  /\ nonempty (safe_filename s fallback) = true.
Proof.
  unfold safe_filename.
  set (t := re_sub_class isspace " " _).
  assert (Ht : spaced false t) by apply sub_runs_spaced.
  assert (Hb : spaced false (strip (firstn 150 t)))
    by apply (spaced_strip false), spaced_firstn, Ht.
  destruct (strip_ends (firstn 150 t)) as [Hhd Htl].
  set (base := strip (firstn 150 t)) in *.
  destruct (endswith (lower base) ".pdf") eqn:E.
  - split; [exact Hb|]. split; [apply strip_idem|].
    destruct base; [discriminate E | reflexivity].
  - split; [apply spaced_app; [exact Hb | exact I | reflexivity]|].
    split.
    + apply strip_fixed.
      * destruct base; [reflexivity | exact Hhd].
      * rewrite rev_app_distr. reflexivity.
    + destruct base; reflexivity.
Qed.

Lemma safe_filename_fixed (f fallback : str) :
  Forall sanitized f -> spaced false f -> strip f = f ->
  endswith (lower f) ".pdf" = true -> length f <= 150 ->
  safe_filename f fallback = f.
Proof.
  intros Hs Hsp Hst Hsuf Hlen.
  assert (Hne : nonempty f = true) by (destruct f; [discriminate Hsuf | reflexivity]).
  unfold safe_filename. rewrite Hne, Hst.
  rewrite (replace_id "013" " " f)
    by (apply sanitized_not; [reflexivity | discriminate | exact Hs]).
  rewrite (replace_id "010" " " f)
    by (apply sanitized_not; [reflexivity | discriminate | exact Hs]).
  unfold re_sub_class.
  rewrite (sub_runs_id forbidden "_" false f)
    by (eapply Forall_impl; [exact Hs|]; intros c [Hc _]; exact Hc).
  rewrite (spaced_fixed false f Hsp).
  rewrite firstn_all2 by exact Hlen.
  rewrite Hst, Hsuf. reflexivity.
Qed.

Lemma safe_filename_again (s fallback fallback' : str) :
  length (safe_filename s fallback) <= 150 ->
  safe_filename (safe_filename s fallback) fallback'
  = safe_filename s fallback.
Proof.
  intros Hlen.
  destruct (safe_filename_shape s fallback) as (Hsp & Hst & _).
  exact (safe_filename_fixed _ fallback'
           (snapshot_safe_filename_sanitized s fallback) Hsp Hst
           (snapshot_safe_filename_suffix s fallback) Hlen).
Qed.

(** The writer hands on the same fields for a row and for the row it
    handed on before, once the name is short. *)
Lemma safe_row_again (r : gmap str str) :
  short_name r ->
  dict_to_list (safe_row (safe_row r)) = dict_to_list (safe_row r).
Proof.
  intros H. rewrite (safe_row_fields (safe_row r)), (safe_row_fields r).
  change (get (safe_row r) "pdf_filename")
    with (safe_filename (get r "pdf_filename") "document.pdf").
  rewrite (safe_filename_again _ _ _ H). reflexivity.
Qed.

Lemma catalog_text_again (rows : list (gmap str str)) :
  Forall short_name rows ->
  catalog_text (map safe_row rows) = catalog_text rows.
Proof.
  intros H.
  assert (Hmap : map (fun r => Csv.writerow (dict_to_list (safe_row r)))
                     (map safe_row rows)
                 = map (fun r => Csv.writerow (dict_to_list (safe_row r)))
                       rows).
  { rewrite map_map. apply map_ext_Forall.
    eapply Forall_impl; [exact H|]. intros r Hr. cbn beta.
    rewrite (safe_row_again r Hr). reflexivity. }
  unfold catalog_text, csv_lines. rewrite Hmap. reflexivity.
Qed.

Lemma short_names_check (rows : list (gmap str str)) :
  forallb short_nameb rows = true -> Forall short_name rows.
Proof.
  intros H. apply List.Forall_forall. intros r Hr.
  rewrite forallb_forall in H. apply Nat.leb_le, (H r Hr).
Qed.

End Stable.

(** X13. [safe_filename] of the snapshot-merge variant leaves a name it
    returned as it is, provided the name has at most 150 characters (a
    longer one is cut before the suffix is added again). *)
Theorem safe_filename_stable (s fallback fallback' : str) :
  length (SnapshotMerge.safe_filename s fallback) <= 150 ->
  SnapshotMerge.safe_filename (SnapshotMerge.safe_filename s fallback)
                              fallback'
  = SnapshotMerge.safe_filename s fallback.
Proof. apply safe_filename_again. Qed.

(** X13 on a title with characters to replace. *)
Lemma safe_filename_stable_witness :
  SnapshotMerge.safe_filename
    (SnapshotMerge.safe_filename " Circular:  A/B " "document")
    "document.pdf"
  = SnapshotMerge.safe_filename " Circular:  A/B " "document".
Proof.
  apply (safe_filename_stable " Circular:  A/B " "document" "document.pdf").
  apply Nat.leb_le. reflexivity.
Defined.

(** The bound is needed: a title of 147 characters gets the suffix after
    150 characters the first time, and a second suffix after the cut the
    second time. *)
Example safe_filename_long_name_changes :
  SnapshotMerge.safe_filename (repeat "a"%char 147) "document"
  = repeat "a"%char 147 ++ (".pdf" : str)
  /\ SnapshotMerge.safe_filename
       (SnapshotMerge.safe_filename (repeat "a"%char 147) "document")
       "document.pdf"
     = repeat "a"%char 147 ++ (".pd.pdf" : str).
Proof. vm_compute. split; reflexivity. Qed.

(** X14. When a run of the snapshot-merge variant returns, its catalog is
    plain, no field of it is longer than the reader's field size limit and
    the names in it are short, a second run against the same listing on the
    files of the first leaves the catalog file as the first run left it. *)
Theorem second_run_keeps_catalog (L : Lib) (w w' : SnapshotMergeRun.World)
        (fs : gmap str str) (run : SnapshotMergeRun.Run) :
  SnapshotMergeRun.main L w fs = Ok run ->
  SnapshotMergeRun.listing w' = SnapshotMergeRun.listing w ->
  Forall plain_row
         (SnapshotMergeRun.new_master (SnapshotMergeRun.final run)) ->
  Forall fits_row
         (SnapshotMergeRun.new_master (SnapshotMergeRun.final run)) ->
  Forall short_name
         (SnapshotMergeRun.new_master (SnapshotMergeRun.final run)) ->
  exists run',
    SnapshotMergeRun.main L w'
      (apply_effects fs (SnapshotMergeRun.effects run)) = Ok run'
    /\ apply_effects (apply_effects fs (SnapshotMergeRun.effects run))
                     (SnapshotMergeRun.effects run')
       !! SnapshotMerge.MASTER_CSV
       = apply_effects fs (SnapshotMergeRun.effects run)
         !! SnapshotMerge.MASTER_CSV.
Proof.
  intros Hm Hl Hplain Hfit Hshort.
  destruct (second_run_state L w w' fs run Hm Hl Hplain Hfit)
    as (run' & Hm' & _ & Hnm).
  exists run'. split; [exact Hm'|].
  destruct (main_cases L w' _ run' Hm')
    as [(_ & _ & _ & _ & He)|(Hx & _)].
  - rewrite He. reflexivity.
  - rewrite (catalog_after_run L w' _ run' Hm' Hx), Hnm.
    rewrite Hl in Hx.
    rewrite (catalog_after_run L w fs run Hm Hx).
    rewrite (catalog_text_again _ Hshort). reflexivity.
Qed.

(** X14 on two runs over a listing with one plain entry, from an empty
    directory. *)
Lemma second_run_keeps_catalog_witness :
  exists run run',
    SnapshotMergeRun.main Sample.lib Sample.plain_world ∅ = Ok run
    /\ SnapshotMergeRun.main Sample.lib Sample.plain_world
         (apply_effects ∅ (SnapshotMergeRun.effects run)) = Ok run'
    /\ apply_effects (apply_effects ∅ (SnapshotMergeRun.effects run))
                     (SnapshotMergeRun.effects run')
       !! SnapshotMerge.MASTER_CSV
       = apply_effects ∅ (SnapshotMergeRun.effects run)
         !! SnapshotMerge.MASTER_CSV.
Proof.
  assert (H : exists run,
             SnapshotMergeRun.main Sample.lib Sample.plain_world ∅ = Ok run
             /\ Forall plain_row
                  (SnapshotMergeRun.new_master (SnapshotMergeRun.final run))
             /\ Forall fits_row
                  (SnapshotMergeRun.new_master (SnapshotMergeRun.final run))
             /\ Forall short_name
                  (SnapshotMergeRun.new_master (SnapshotMergeRun.final run))).
  { eexists. split; [reflexivity|].
    split; [apply plain_rows_check; vm_compute; reflexivity|].
    split; [apply fits_rows_check; vm_compute; reflexivity|].
    apply short_names_check. vm_compute. reflexivity. }
  destruct H as (run & E & Hplain & Hfit & Hshort).
  destruct (second_run_keeps_catalog Sample.lib Sample.plain_world
              Sample.plain_world ∅ run E eq_refl Hplain Hfit Hshort)
    as (run' & Hrun' & Hfile).
  exists run, run'. repeat split; [exact E | exact Hrun' | exact Hfile].
Defined.

(** * The download call *)

Section Download.
Import AppendOnly AppendOnlyRun.
Variable w : World.

Lemma download_cases (url path : str) (l : Locals) :
  (exists content,
      request_get w url = Ok (200, content)
      /\ open_wb w path = Ok tt
      /\ write_body w path content = Written
      /\ download_pdf_via_playwright_request w url path l
         = (Ok true,
            {| pdf_url := pdf_url l; pdf_file := pdf_file l;
               downloaded := downloaded l;
               saved := saved l ++ [(url, path, content)] |}))
  \/ (exists content on_disk,
         request_get w url = Ok (200, content)
         /\ open_wb w path = Ok tt
         /\ write_body w path content = WriteRaised on_disk
         /\ download_pdf_via_playwright_request w url path l
            = (Ok false,
               {| pdf_url := pdf_url l; pdf_file := pdf_file l;
                  downloaded := downloaded l;
                  saved := saved l ++ [(url, path, on_disk)] |}))
  \/ ((forall content, request_get w url = Ok (200, content) ->
                       open_wb w path <> Ok tt)
      /\ download_pdf_via_playwright_request w url path l = (Ok false, l)).
Proof.
  unfold download_pdf_via_playwright_request.
  destruct (request_get w url) as [[status content]|ex] eqn:Er.
  - destruct (Nat.eqb status 200) eqn:Es; cbn [negb].
    + apply Nat.eqb_eq in Es. subst status.
      destruct (open_wb w path) as [[]|ex] eqn:Eo.
      * destruct (write_body w path content) as [|on_disk] eqn:Ew.
        -- left. exists content. auto.
        -- right. left. exists content, on_disk. auto.
      * right. right. split; [|reflexivity]. intros c _. discriminate.
    + right. right. split; [|reflexivity].
      intros c [= -> _]. discriminate Es.
  - right. right. split; [|reflexivity]. discriminate.
Qed.

End Download.

(** X15. [download_pdf_via_playwright_request] never raises and leaves the
    variables of the loop as they were. It answers true exactly when the
    request returns status 200, the destination opens for writing and the
    body is written to it; then that one document is on disk. When the
    destination has opened and the write raises, the answer is false and
    the destination is left with what the write had put into it; in every
    other case the answer is false and nothing on disk has changed. *)
Theorem download_never_raises (w : AppendOnlyRun.World)
        (url path : str) (l : AppendOnlyRun.Locals) :
  exists (ok : bool) (l' : AppendOnlyRun.Locals),
    AppendOnlyRun.download_pdf_via_playwright_request w url path l
    = (Ok ok, l')
    /\ AppendOnlyRun.pdf_url l' = AppendOnlyRun.pdf_url l
    /\ AppendOnlyRun.pdf_file l' = AppendOnlyRun.pdf_file l
    /\ AppendOnlyRun.downloaded l' = AppendOnlyRun.downloaded l
    /\ (ok = true
        <-> exists content,
              AppendOnlyRun.request_get w url = Ok (200, content)
              /\ AppendOnlyRun.open_wb w path = Ok tt
              /\ AppendOnlyRun.write_body w path content
                 = AppendOnlyRun.Written)
    /\ ((exists content,
           AppendOnlyRun.request_get w url = Ok (200, content)
           /\ AppendOnlyRun.open_wb w path = Ok tt
           /\ AppendOnlyRun.write_body w path content
              = AppendOnlyRun.Written
           /\ AppendOnlyRun.saved l'
              = AppendOnlyRun.saved l ++ [(url, path, content)])
        \/ (exists content on_disk,
              AppendOnlyRun.request_get w url = Ok (200, content)
              /\ AppendOnlyRun.open_wb w path = Ok tt
              /\ AppendOnlyRun.write_body w path content
                 = AppendOnlyRun.WriteRaised on_disk
              /\ AppendOnlyRun.saved l'
                 = AppendOnlyRun.saved l ++ [(url, path, on_disk)])
        \/ ((forall content,
               AppendOnlyRun.request_get w url = Ok (200, content) ->
               AppendOnlyRun.open_wb w path <> Ok tt)
            /\ AppendOnlyRun.saved l' = AppendOnlyRun.saved l)).
Proof.
  destruct (download_cases w url path l)
    as [(content & Hr & Ho & Hw & ->)
       |[(content & on_disk & Hr & Ho & Hw & ->)|(Hno & ->)]].
  - eexists true, _. split; [reflexivity|]. cbn [AppendOnlyRun.pdf_url
      AppendOnlyRun.pdf_file AppendOnlyRun.downloaded AppendOnlyRun.saved].
    split; [reflexivity|]. split; [reflexivity|]. split; [reflexivity|].
    split.
    + split; [intros _|reflexivity]. exists content. auto.
    + left. exists content. auto.
  - eexists false, _. split; [reflexivity|]. cbn [AppendOnlyRun.pdf_url
      AppendOnlyRun.pdf_file AppendOnlyRun.downloaded AppendOnlyRun.saved].
    split; [reflexivity|]. split; [reflexivity|]. split; [reflexivity|].
    split.
    + split; [discriminate|]. intros (c & Hr' & _ & Hw').
      rewrite Hr in Hr'. injection Hr' as <-. rewrite Hw in Hw'.
      discriminate Hw'.
    + right. left. exists content, on_disk. auto.
  - exists false, l. split; [reflexivity|].
    split; [reflexivity|]. split; [reflexivity|]. split; [reflexivity|].
    split.
    + split; [discriminate|]. intros (c & Hr' & Ho' & _).
      exfalso. exact (Hno c Hr' Ho').
    + right. right. split; [exact Hno | reflexivity].
Qed.

(** A write that raises after the destination was opened: the answer is
    false, and the destination is on disk with what had reached it, here
    nothing. *)
Example download_write_raises :
  let w := {| AppendOnlyRun.listing := Sample.listing_of [];
              AppendOnlyRun.csv_at_start := None;
              AppendOnlyRun.open_append := Ok tt;
              AppendOnlyRun.goto := fun _ _ => Raise PWTimeoutError;
              AppendOnlyRun.request_get :=
                fun _ => Ok (200, "%PDF-1.4" : str);
              AppendOnlyRun.open_wb := fun _ => Ok tt;
              AppendOnlyRun.write_body :=
                fun _ _ => AppendOnlyRun.WriteRaised [];
              AppendOnlyRun.csv_writerow := fun _ => Ok tt;
              AppendOnlyRun.csv_flush := fun _ => Ok tt |} in
  let l := {| AppendOnlyRun.pdf_url := None; AppendOnlyRun.pdf_file := [];
              AppendOnlyRun.downloaded := false;
              AppendOnlyRun.saved := [] |} in
  AppendOnlyRun.download_pdf_via_playwright_request
    w ("https://www.sebi.gov.in/a.pdf" : str) ("pdfs/a.pdf" : str) l
  = (Ok false,
     {| AppendOnlyRun.pdf_url := None; AppendOnlyRun.pdf_file := [];
        AppendOnlyRun.downloaded := false;
        AppendOnlyRun.saved :=
          [ ("https://www.sebi.gov.in/a.pdf" : str, "pdfs/a.pdf" : str,
             [] : str) ] |}).
Proof. reflexivity. Qed.

(** * Keys of the dedup set *)

Section KeysOfRuns.
Variable L : Lib.

Lemma lstrip_nonspace_exists (s : str) :
  Exists (fun c => isspace c = false) s ->
  Exists (fun c => isspace c = false) (lstrip s).
Proof.
  induction 1 as [c s Hc|c s _ IH].
  - rewrite (lstrip_nonspace c s Hc). left. exact Hc.
  - cbn [lstrip]. destruct (isspace c) eqn:E; [exact IH|].
    left. exact E.
Qed.

(** A text with a character that is no white space is not stripped to
    nothing. *)
Lemma strip_nonempty (s : str) :
  Exists (fun c => isspace c = false) s -> strip s <> [].
Proof.
  intros H. unfold strip, rstrip.
  apply lstrip_nonspace_exists in H.
  assert (Hr : Exists (fun c => isspace c = false) (rev (lstrip s))).
  { apply List.Exists_exists in H as (c & Hin & Hc).
    apply List.Exists_exists. exists c. split; [|exact Hc].
    apply in_rev. rewrite rev_involutive. exact Hin. }
  apply lstrip_nonspace_exists in Hr.
  destruct (lstrip (rev (lstrip s))) as [|c t]; [inversion Hr|].
  intros E. apply (f_equal (@length ascii)) in E.
  rewrite length_rev in E. discriminate E.
Qed.

(** The key of the title the append-only loop gives a candidate is not
    empty, when the candidate's own title is stripped. *)
Lemma title_raw_key_nonempty (idx : nat) (e : Entry) :
  strip (e_title e) = e_title e ->
  nonempty (title_key_of (AppendOnlyRun.title_raw_of idx e)) = true.
Proof.
  intros Hs. unfold AppendOnlyRun.title_raw_of, title_key_of.
  destruct (nonempty (e_title e)) eqn:E.
  - rewrite Hs. destruct (e_title e); [discriminate E | reflexivity].
  - set (t := strip (("entry_" : str) ++ AppendOnlyRun.decimal idx)).
    assert (H : t <> []) by (apply strip_nonempty; left; reflexivity).
    destruct t; [congruence | reflexivity].
Qed.

Lemma append_table_rows_stripped (trs : list Tr) :
  Forall (fun e => strip (e_title e) = e_title e)
         (AppendOnly.table_rows L trs).
Proof.
  induction trs as [|r trs IH]; [constructor|].
  cbn [AppendOnly.table_rows].
  destruct (read_table_row L r) as [e|] eqn:E; [|exact IH].
  destruct (_ || _); [|exact IH].
  constructor; [|exact IH]. apply (read_table_row_title L r e E).
Qed.

Lemma listing_entries_stripped (page : ListingPage) :
  Forall (fun e => strip (e_title e) = e_title e)
         (AppendOnly.listing_entries L page).
Proof.
  assert (Hf : Forall (fun e => strip (e_title e) = e_title e)
                 (AppendOnly.fallback_extract_entries L page)).
  { eapply Forall_impl;
      [exact (fallback_loop_stripped L ∅ (lp_content_anchors page))|].
    intros e [_ He]. exact He. }
  unfold AppendOnly.listing_entries, AppendOnly.extract_entries_from_table.
  destruct (lp_table page) as [table|]; [|exact Hf].
  pose proof (append_table_rows_stripped
                (list_or (tbody_trs table) (all_trs table))) as Ht.
  destruct (AppendOnly.table_rows L _); [exact Hf | exact Ht].
Qed.

Lemma candidates_stripped (w : AppendOnlyRun.World) :
  Forall (fun e => strip (e_title e) = e_title e)
         (AppendOnlyRun.candidates L w).
Proof.
  unfold AppendOnlyRun.candidates. apply List.Forall_forall.
  intros e He. apply firstn_In in He.
  pose proof (listing_entries_stripped (AppendOnlyRun.listing w)) as H.
  rewrite List.Forall_forall in H. apply H, He.
Qed.

Section AppendRunKeys.
Import AppendOnly AppendOnlyRun.
Variable w : World.

(** The rows appended for candidates with stripped titles have keys that
    are not empty. *)
Lemma process_entries_appended_keys (entries : list Entry) (idx : nat)
      (st : RunState) :
  Forall (fun e => strip (e_title e) = e_title e) entries ->
  Forall (fun r => nonempty (key_of_row r) = true) (appended st) ->
  Forall (fun r => nonempty (key_of_row r) = true)
         (appended (process_entries L w idx st entries)).
Proof.
  intros H. revert idx st.
  induction H as [|e entries He _ IH]; intros idx st Hst; [exact Hst|].
  cbn [process_entries]. apply IH.
  destruct (process_entry_cases L w idx st e) as [[_ ->]|[_ Hc]];
    [exact Hst|].
  destruct Hc as [(_ & _ & _ & _ & ->)
                 |[(_ & _ & _ & _ & _ & ->)|(_ & _ & _ & _ & _ & ->)]];
    [exact Hst | exact Hst |].
  apply Forall_app. split; [exact Hst|]. constructor; [|constructor].
  unfold key_of_row.
  destruct (candidate_row_fields L w idx e) as (-> & _).
  apply title_raw_key_nonempty, He.
Qed.

Lemma main_appended_keys :
  Forall (fun r => nonempty (key_of_row r) = true) (appended (main L w)).
Proof.
  unfold main.
  destruct (listing_entries L (listing w)); [constructor|].
  destruct (open_append w); [|constructor].
  apply process_entries_appended_keys;
    [apply candidates_stripped | constructor].
Qed.

(** When every append returns, the key of every candidate is in the dedup
    set after the loop. *)
Lemma process_entries_all_known (entries : list Entry) (idx : nat)
      (st : RunState) :
  (forall i, csv_writerow w i = Ok tt /\ csv_flush w i = Ok tt) ->
  existing_titles st ⊆ existing_titles (process_entries L w idx st entries)
  /\ Forall (fun k => k ∈ existing_titles
                           (process_entries L w idx st entries))
            (candidate_keys idx entries).
Proof.
  intros Hok. revert idx st.
  induction entries as [|e entries IH]; intros idx st;
    [split; [reflexivity | constructor]|].
  cbn [process_entries candidate_keys].
  destruct (IH (S idx) (process_entry L w idx st e)) as [Hsub Hall].
  assert (Hstep : existing_titles st
                  ⊆ existing_titles (process_entry L w idx st e)
                  /\ title_key_of (title_raw_of idx e)
                     ∈ existing_titles (process_entry L w idx st e)).
  { destruct (Hok idx) as [Hw Hf].
    destruct (process_entry_cases L w idx st e) as [[Hin ->]|[_ Hc]];
      [split; [reflexivity | exact Hin]|].
    destruct Hc as [((ex & Hex) & _)|[(_ & (ex & Hex) & _)
                                     |(_ & _ & -> & _)]];
      [congruence | congruence |].
    split; [apply union_subseteq_r|].
    apply elem_of_union_l, elem_of_singleton. reflexivity. }
  destruct Hstep as [H1 H2]. split.
  - etransitivity; [exact H1 | exact Hsub].
  - constructor; [apply Hsub, H2 | exact Hall].
Qed.

(** Candidates whose keys are all known leave the state as it is. *)
Lemma append_process_entries_known (entries : list Entry) (idx : nat)
      (st : RunState) :
  Forall (fun k => k ∈ existing_titles st) (candidate_keys idx entries) ->
  process_entries L w idx st entries = st.
Proof.
  revert idx. induction entries as [|e entries IH]; intros idx H;
    [reflexivity|].
  cbn [candidate_keys] in H. inversion H as [|k ks Hk Hks]; subst.
  cbn [process_entries]. unfold process_entry.
  rewrite bool_decide_eq_true_2 by exact Hk. apply IH, Hks.
Qed.

End AppendRunKeys.

(** The keys [titles_of] collects are not empty and are their own key. *)
Lemma titles_of_normal (rows : list (gmap str str)) :
  set_Forall normal_key (titles_of rows ∅).
Proof.
  intros k Hk. rewrite titles_of_spec in Hk.
  apply elem_of_union in Hk as [Hk|Hk]; [set_solver|].
  apply elem_of_list_to_set, list_elem_of_In, filter_In in Hk as [Hin Hne].
  apply in_map_iff in Hin as (r & <- & _). split.
  - destruct (key_of_row r); [discriminate Hne | discriminate].
  - apply title_key_idem.
Qed.

Lemma row_keys_normal (rows : list (gmap str str)) :
  Forall (fun r => nonempty (key_of_row r) = true) rows ->
  set_Forall normal_key (list_to_set (map key_of_row rows) : gset str).
Proof.
  intros H k Hk.
  apply elem_of_list_to_set, list_elem_of_In, in_map_iff in Hk
    as (r & <- & Hin).
  rewrite List.Forall_forall in H. specialize (H r Hin). split.
  - destruct (key_of_row r); [discriminate H | discriminate].
  - apply title_key_idem.
Qed.

Lemma filter_nonempty_keys (rows : list (gmap str str)) :
  Forall (fun r => nonempty (key_of_row r) = true) rows ->
  List.filter nonempty (map key_of_row rows) = map key_of_row rows.
Proof.
  induction 1 as [|r rows Hr _ IH]; [reflexivity|].
  cbn [map List.filter]. rewrite Hr, IH. reflexivity.
Qed.

Lemma read_existing_titles_normal (w : AppendOnlyRun.World) :
  set_Forall normal_key (AppendOnlyRun.read_existing_titles w).
Proof.
  unfold AppendOnlyRun.read_existing_titles.
  destruct (AppendOnlyRun.csv_at_start w);
    [apply titles_of_normal | apply set_Forall_empty].
Qed.

End KeysOfRuns.

(** X16. Every key of the dedup set after a run, in either variant, is
    canonical: it is not empty and it is its own key (stripped and in lower
    case). *)
Theorem dedup_keys_normal (L : Lib) (ws : SnapshotMergeRun.World)
        (wa : AppendOnlyRun.World) (fs : gmap str str) :
  match SnapshotMergeRun.main L ws fs with
  | Raise _ => True
  | Ok run =>
      set_Forall normal_key
                 (SnapshotMergeRun.existing_titles (SnapshotMergeRun.final run))
  end
  /\ set_Forall normal_key
                (AppendOnlyRun.existing_titles (AppendOnlyRun.main L wa)).
Proof.
  split.
  - destruct (SnapshotMergeRun.main L ws fs) as [run|ex] eqn:E; [|exact I].
    destruct (main_cases L ws fs run E)
      as [(_ & _ & _ & Hf & _)|(_ & _ & Hent & Hf & _)].
    + rewrite Hf. apply set_Forall_empty.
    + destruct (process_entries_keys L ws (SnapshotMergeRun.run_entries run) 0
                  (start_state (SnapshotMergeRun.master_rows run)))
        as (rows & _ & _ & Ht & _ & _ & Hfrom & _).
      rewrite <- Hf in Ht. rewrite Ht.
      apply set_Forall_union; [apply titles_of_normal|].
      intros k Hk.
      apply elem_of_list_to_set, list_elem_of_In in Hk.
      rewrite List.Forall_forall in Hfrom.
      destruct (Hfrom k Hk) as (e & Hin & ->).
      assert (He : In e (SnapshotMerge.extract_entries_from_listing
                           L (SnapshotMergeRun.listing ws)))
        by (rewrite Hent in Hin; exact (firstn_In _ _ _ Hin)).
      pose proof (extract_titles L (SnapshotMergeRun.listing ws)) as Hx.
      rewrite List.Forall_forall in Hx.
      pose proof (stripped_key_nonempty e (Hx e He)) as Hn. split.
      * destruct (title_key_of (e_title e)); [discriminate Hn | discriminate].
      * apply title_key_idem.
  - destruct (main_tracks L wa) as [-> _].
    apply set_Forall_union; [apply read_existing_titles_normal|].
    apply row_keys_normal, main_appended_keys.
Qed.

(** X17. A second run of the append-only variant appends nothing: when
    every append of a run returned, a run against the same listing whose
    catalog holds the rows the first run found and the rows it appended
    skips every candidate. *)
Theorem append_only_second_run (L : Lib) (w w' : AppendOnlyRun.World) :
  AppendOnlyRun.listing w' = AppendOnlyRun.listing w ->
  AppendOnlyRun.open_append w = Ok tt ->
  (forall i, AppendOnlyRun.csv_writerow w i = Ok tt
             /\ AppendOnlyRun.csv_flush w i = Ok tt) ->
  AppendOnlyRun.csv_at_start w'
  = Some (default [] (AppendOnlyRun.csv_at_start w)
          ++ AppendOnlyRun.appended (AppendOnlyRun.main L w)) ->
  AppendOnlyRun.main L w' = AppendOnlyRun.init_state w'.
Proof.
  intros Hl Hopen Hok Hcsv.
  assert (Hread : AppendOnlyRun.read_existing_titles w'
                  = AppendOnlyRun.existing_titles (AppendOnlyRun.main L w)).
  { destruct (main_tracks L w) as [-> _].
    unfold AppendOnlyRun.read_existing_titles at 1. rewrite Hcsv.
    rewrite titles_of_app. f_equal.
    - unfold AppendOnlyRun.read_existing_titles.
      destruct (AppendOnlyRun.csv_at_start w); reflexivity.
    - rewrite titles_of_spec, union_empty_l_L. f_equal.
      apply filter_nonempty_keys, main_appended_keys. }
  unfold AppendOnlyRun.main in *. unfold AppendOnlyRun.candidates in *.
  rewrite Hl.
  destruct (AppendOnly.listing_entries L (AppendOnlyRun.listing w))
    as [|e0 es]; [reflexivity|].
  destruct (AppendOnlyRun.open_append w'); [|reflexivity].
  rewrite Hopen in Hread.
  apply append_process_entries_known.
  cbn [AppendOnlyRun.init_state AppendOnlyRun.existing_titles].
  rewrite Hread.
  apply (process_entries_all_known L w _ 1 (AppendOnlyRun.init_state w) Hok).
Qed.

(** X17 on two runs over a listing with one entry, the first from a
    directory without catalog. *)
Lemma append_only_second_run_witness :
  AppendOnlyRun.appended
    (AppendOnlyRun.main Sample.lib
       (Sample.ao_world [ Sample.circular_a ] None (Ok Sample.embed_page)
                        (Ok tt) (Ok tt)))
  <> []
  /\ AppendOnlyRun.appended
       (AppendOnlyRun.main Sample.lib
          (Sample.ao_world [ Sample.circular_a ]
             (Some (AppendOnlyRun.appended
                      (AppendOnlyRun.main Sample.lib
                         (Sample.ao_world [ Sample.circular_a ] None
                            (Ok Sample.embed_page) (Ok tt) (Ok tt)))))
             (Ok Sample.embed_page) (Ok tt) (Ok tt)))
     = [].
Proof.
  split; [discriminate|].
  rewrite (append_only_second_run Sample.lib
             (Sample.ao_world [ Sample.circular_a ] None
                              (Ok Sample.embed_page) (Ok tt) (Ok tt))
             (Sample.ao_world [ Sample.circular_a ]
                (Some (AppendOnlyRun.appended
                         (AppendOnlyRun.main Sample.lib
                            (Sample.ao_world [ Sample.circular_a ] None
                               (Ok Sample.embed_page) (Ok tt) (Ok tt)))))
                (Ok Sample.embed_page) (Ok tt) (Ok tt))
             eq_refl eq_refl (fun _ => conj eq_refl eq_refl) eq_refl).
  reflexivity.
Defined.

(** * The new-entries artifact *)

(** X18. A run of the snapshot-merge variant that found entries leaves in
    [new_entries.json] the dump of exactly the rows it added, each as the
    catalog writer hands it on (the empty list when it added none); a run
    that found no entry leaves both files as they were. *)
Theorem new_entries_artifact (L : Lib) (w : SnapshotMergeRun.World)
        (fs : gmap str str) :
  match SnapshotMergeRun.main L w fs with
  | Raise _ => True
  | Ok run =>
      let fs' := apply_effects fs (SnapshotMergeRun.effects run) in
      SnapshotMergeRun.new_json run
      = map SnapshotMergeRun.safe_row
            (SnapshotMergeRun.new_entries (SnapshotMergeRun.final run))
      /\ match SnapshotMerge.extract_entries_from_listing
                 L (SnapshotMergeRun.listing w) with
         | [] => fs' = fs /\ SnapshotMergeRun.new_json run = []
         | _ :: _ =>
             fs' !! SnapshotMerge.NEW_JSON
             = Some (json_dumps L (SnapshotMergeRun.new_json run))
         end
  end.
Proof.
  destruct (SnapshotMergeRun.main L w fs) as [run|ex] eqn:E; [|exact I].
  cbv zeta. unfold SnapshotMergeRun.main in E.
  destruct (SnapshotMerge.extract_entries_from_listing
              L (SnapshotMergeRun.listing w)) as [|e0 es].
  - assert (Hrun : run = _)
      by (symmetry; exact (f_equal (fun r => match r with
                                             | Ok x => x
                                             | Raise _ => run
                                             end) E)).
    rewrite Hrun. repeat split.
  - destruct (SnapshotMergeRun.load_master_csv fs SnapshotMerge.MASTER_CSV)
      as [rows0|ex]; unfold res_bind in E; [|discriminate E].
    assert (Hrun : run = _)
      by (symmetry; exact (f_equal (fun r => match r with
                                             | Ok x => x
                                             | Raise _ => run
                                             end) E)).
    rewrite Hrun.
    cbn [SnapshotMergeRun.new_json SnapshotMergeRun.final
         SnapshotMergeRun.effects].
    split; [reflexivity|].
    rewrite app_assoc, apply_effects_app.
    unfold SnapshotMergeRun.write_json, SnapshotMergeRun.json_rows.
    cbn [apply_effects fold_left apply_effect].
    rewrite !lookup_insert_eq. reflexivity.
Qed.
